(** * The HTTP dispatch core of the Mailrify Node SDK

    A shallow embedding of [src/errors.ts], [src/config.ts],
    [src/interceptors.ts], [src/client.ts] and the string check of
    [src/utils/schema.ts], followed by the properties of the dispatcher
    that the specification states.

    Conventions of the embedding.
    - A JavaScript [number] is an exact rational extended with [NaN] and the
      two infinities.  The dispatcher only compares numbers, multiplies a
      delay by a power of two and multiplies a parsed integer by 1000, so no
      rounding is involved for the values at hand.
    - A value that the source type-tests at run time ([apiKey], [baseUrl],
      a thrown value) is a dynamically typed [jsval]; a value the source
      never inspects keeps its declared TypeScript type.
    - A plain object used as a map is the list of its properties in creation
      order; [Object_entries] gives the order the language enumerates them.
    - Code that can throw returns an [outcome]; [Throw] carries the thrown
      value.  [await] is sequencing: one logical call never runs two steps
      at once.  What a call does besides returning is kept as a log of
      [event]s.
    - The platform classes [Headers], [URL], [URLSearchParams] and
      [Response] are modelled by the part of their interface the client
      uses, and what the platform decides on its own is an input: whether
      [new URL] accepts a string, what [JSON.stringify] makes of a body,
      what [json()] and [text()] settle to.  Header names and values are
      taken to be well-formed, and a path to have no dot segment and no
      character the [pathname] setter would encode, so that the setter
      stores the string it is given.
    - Timers and abort signals act on the transport only; they show in what
      the transport's promise settles to.  Debug logging is left out. *)

From Stdlib Require Import ZArith QArith Lqa Lia List String Ascii Bool DecimalString.
From stdpp Require Import base strings gmap list.

Open Scope string_scope.

(** ** JavaScript numbers *)

Inductive jsnum : Type :=
| NaN
| NegInf
| Fin (q : Q)
| PosInf.

Definition num_of_Z (z : Z) : jsnum := Fin (inject_Z z).

Definition num_of_nat (n : nat) : jsnum := num_of_Z (Z.of_nat n).

(** [a <= b]; every comparison with [NaN] is false. *)
Definition num_le (a b : jsnum) : bool :=
  match a, b with
  | NaN, _ | _, NaN => false
  | NegInf, _ => true
  | _, PosInf => true
  | Fin x, Fin y => Qle_bool x y
  | _, _ => false
  end.

(** [a < b]. *)
Definition num_lt (a b : jsnum) : bool :=
  match a, b with
  | NaN, _ | _, NaN => false
  | _, _ => negb (num_le b a)
  end.

(** [a >= b]. *)
Definition num_ge (a b : jsnum) : bool := num_le b a.

(** [Number.isFinite]. *)
Definition isFinite (n : jsnum) : bool :=
  match n with Fin _ => true | _ => false end.

(** Truthiness of a number: [0] and [NaN] are falsy. *)
Definition num_truthy (n : jsnum) : bool :=
  match n with
  | NaN => false
  | Fin q => negb (Qeq_bool q 0)
  | _ => true
  end.

Definition Qsign_pos (q : Q) : bool := negb (Qle_bool q 0).

(** [a * b]. *)
Definition num_mul (a b : jsnum) : jsnum :=
  let inf (positive : bool) := if positive then PosInf else NegInf in
  let scaled (positive : bool) (q : Q) :=
    if Qeq_bool q 0 then NaN else inf (Bool.eqb positive (Qsign_pos q)) in
  match a, b with
  | NaN, _ | _, NaN => NaN
  | Fin x, Fin y => Fin (x * y)
  | Fin x, PosInf | PosInf, Fin x => scaled true x
  | Fin x, NegInf | NegInf, Fin x => scaled false x
  | PosInf, PosInf | NegInf, NegInf => PosInf
  | PosInf, NegInf | NegInf, PosInf => NegInf
  end.

(** [2 ** n] for a loop counter [n]. *)
Definition pow2 (n : nat) : jsnum := num_of_Z (2 ^ Z.of_nat n).

(** ** Strings *)

Definition is_space (c : ascii) : bool :=
  let n := nat_of_ascii c in
  ((9 <=? n) && (n <=? 13))%nat || (n =? 32)%nat.

Definition is_digit (c : ascii) : bool :=
  let n := nat_of_ascii c in ((48 <=? n) && (n <=? 57))%nat.

Fixpoint drop_spaces (l : list ascii) : list ascii :=
  match l with
  | c :: t => if is_space c then drop_spaces t else l
  | [] => []
  end.

(** [s.trim()], for the white space of the ASCII range. *)
Definition trim (s : string) : string :=
  string_of_list_ascii
    (rev (drop_spaces (rev (drop_spaces (list_ascii_of_string s))))).

Definition lower_ascii (c : ascii) : ascii :=
  let n := nat_of_ascii c in
  if ((65 <=? n) && (n <=? 90))%nat then ascii_of_nat (n + 32) else c.

(** [s.toLowerCase()] on the ASCII range, the case folding of header names. *)
Fixpoint lower (s : string) : string :=
  match s with
  | EmptyString => EmptyString
  | String c t => String (lower_ascii c) (lower t)
  end.

(** [hay.includes(needle)]. *)
Fixpoint includes (needle hay : string) : bool :=
  String.prefix needle hay ||
  match hay with
  | EmptyString => false
  | String _ t => includes needle t
  end.

(** [s.startsWith(p)]. *)
Definition startsWith (p s : string) : bool := String.prefix p s.

(** Decimal rendering of an integer, as [String(n)] and template
    literals produce it. *)
Definition string_of_Z (z : Z) : string := NilZero.string_of_int (Z.to_int z).

Fixpoint digits_value (acc : Z) (l : list ascii) : Z :=
  match l with
  | c :: t =>
      if is_digit c then digits_value (10 * acc + (Z.of_nat (nat_of_ascii c) - 48)) t
      else acc
  | [] => acc
  end.

(** [Number.parseInt(s, 10)]: leading white space, an optional sign, then
    the longest run of decimal digits; [NaN] when there is no digit. *)
Definition parseInt (s : string) : jsnum :=
  let unsigned (l : list ascii) : option Z :=
    match l with
    | c :: _ => if is_digit c then Some (digits_value 0 l) else None
    | [] => None
    end in
  match drop_spaces (list_ascii_of_string s) with
  | "-"%char :: t =>
      match unsigned t with Some n => num_of_Z (- n) | None => NaN end
  | "+"%char :: t =>
      match unsigned t with Some n => num_of_Z n | None => NaN end
  | l => match unsigned l with Some n => num_of_Z n | None => NaN end
  end.

(** ** Dynamically typed values *)

(** [VObject] is any object.  Where the source only asks whether a value is
    a string or is truthy, a function behaves as [VObject] does. *)
Inductive jsval : Type :=
| VUndefined
| VNull
| VBool (b : bool)
| VNum (n : jsnum)
| VStr (s : string)
| VObject.

Definition truthy (v : jsval) : bool :=
  match v with
  | VUndefined | VNull => false
  | VBool b => b
  | VNum n => num_truthy n
  | VStr s => negb (String.eqb s "")
  | VObject => true
  end.

Definition nullish (v : jsval) : bool :=
  match v with VUndefined | VNull => true | _ => false end.

Definition is_string (v : jsval) : bool :=
  match v with VStr _ => true | _ => false end.

(** Decoded JSON. *)
#[warnings="-register-all"]
Inductive json : Type :=
| JNull
| JBool (b : bool)
| JNum (q : Q)
| JStr (s : string)
| JArr (items : list json)
| JObj (members : list (string * json)).

(** ** errors.ts *)

Inductive ErrorClass : Type :=
| MailrifyErrorClass
| HTTPErrorClass
| ValidationErrorClass
| AuthErrorClass
| RateLimitErrorClass.

Global Instance ErrorClass_eq_dec : EqDecision ErrorClass.
Proof. solve_decision. Defined.

(** The [extends] clauses. *)
Definition superclass (c : ErrorClass) : option ErrorClass :=
  match c with
  | MailrifyErrorClass => None
  | HTTPErrorClass => Some MailrifyErrorClass
  | ValidationErrorClass => Some MailrifyErrorClass
  | AuthErrorClass => Some HTTPErrorClass
  | RateLimitErrorClass => Some HTTPErrorClass
  end.

(** [c] is [d] or inherits from it; the chain has at most three links. *)
Definition inherits (c d : ErrorClass) : bool :=
  let up (o : option ErrorClass) := o ≫= superclass in
  let is_d (o : option ErrorClass) := bool_decide (o = Some d) in
  is_d (Some c) || is_d (superclass c) || is_d (up (superclass c)).

Record MailrifyErrorOptions : Type := {
  opt_status : option jsnum;
  opt_code : option string;
  opt_details : option json;
  opt_requestId : option string;
  opt_cause : option jsval;
  opt_retryAfter : option jsnum
}.

(** The default argument [options = {}]. *)
Definition no_options : MailrifyErrorOptions :=
  {| opt_status := None; opt_code := None; opt_details := None;
     opt_requestId := None; opt_cause := None; opt_retryAfter := None |}.

(** An instance of [MailrifyError] or of one of its subclasses. *)
Record MailrifyError : Type := {
  class : ErrorClass;
  name : string;
  message : string;
  status : option jsnum;
  code : option string;
  details : option json;
  requestId : option string;
  cause : option jsval;
  retryAfter : option jsnum
}.

(** [new MailrifyError(message, options)].  [retryAfter] is a field of
    [RateLimitError] only and stays unset here. *)
Definition new_MailrifyError (msg : string) (o : MailrifyErrorOptions) : MailrifyError :=
  {| class := MailrifyErrorClass;
     name := "MailrifyError";
     message := msg;
     status := opt_status o;
     code := opt_code o;
     details := opt_details o;
     requestId := opt_requestId o;
     cause := match opt_cause o with
              | Some c => if truthy c then Some c else None
              | None => None
              end;
     retryAfter := None |}.

Definition with_status (o : MailrifyErrorOptions) (s : option jsnum) : MailrifyErrorOptions :=
  {| opt_status := s; opt_code := opt_code o; opt_details := opt_details o;
     opt_requestId := opt_requestId o; opt_cause := opt_cause o;
     opt_retryAfter := opt_retryAfter o |}.

Definition renamed (e : MailrifyError) (c : ErrorClass) (n : string) : MailrifyError :=
  {| class := c; name := n; message := message e; status := status e;
     code := code e; details := details e; requestId := requestId e;
     cause := cause e; retryAfter := retryAfter e |}.

(** [new HTTPError(message, options)]; the constructor assigns [status]
    once more from the same options. *)
Definition new_HTTPError (msg : string) (o : MailrifyErrorOptions) : MailrifyError :=
  let e := new_MailrifyError msg o in
  {| class := HTTPErrorClass; name := "HTTPError"; message := message e;
     status := opt_status o; code := code e; details := details e;
     requestId := requestId e; cause := cause e; retryAfter := retryAfter e |}.

(** [options.status ?? d]. *)
Definition status_or (o : MailrifyErrorOptions) (d : Z) : option jsnum :=
  match opt_status o with
  | Some s => Some s
  | None => Some (num_of_Z d)
  end.

(** [new ValidationError(message, options)]. *)
Definition new_ValidationError (msg : string) (o : MailrifyErrorOptions) : MailrifyError :=
  renamed (new_MailrifyError msg (with_status o (status_or o 400)))
          ValidationErrorClass "ValidationError".

(** [new AuthError(message, options)]. *)
Definition new_AuthError (msg : string) (o : MailrifyErrorOptions) : MailrifyError :=
  renamed (new_HTTPError msg (with_status o (status_or o 401)))
          AuthErrorClass "AuthError".

(** [new RateLimitError(message, options)]. *)
Definition new_RateLimitError (msg : string) (o : MailrifyErrorOptions) : MailrifyError :=
  let e := new_HTTPError msg (with_status o (status_or o 429)) in
  {| class := RateLimitErrorClass; name := "RateLimitError"; message := message e;
     status := status e; code := code e; details := details e;
     requestId := requestId e; cause := cause e;
     retryAfter := opt_retryAfter o |}.

(** ** Thrown values and fallible steps *)

(** Whatever a [catch] clause can receive: an error of the SDK's own
    hierarchy, another [Error] (a [TypeError] of the platform, an abort, a
    [SyntaxError]), or a value that is not an [Error] at all. *)
Inductive thrown : Type :=
| Typed (e : MailrifyError)
| NativeError (error_name error_message : string)
| NonError (v : jsval).

(** [t instanceof C] for a class [C] of the SDK. *)
Definition instanceof (t : thrown) (c : ErrorClass) : bool :=
  match t with
  | Typed e => inherits (class e) c
  | _ => false
  end.

(** [t instanceof Error]. *)
Definition instanceof_Error (t : thrown) : bool :=
  match t with
  | Typed _ | NativeError _ _ => true
  | NonError _ => false
  end.

Inductive outcome (A : Type) : Type :=
| Ok (a : A)
| Throw (t : thrown).

Arguments Ok {A} a.
Arguments Throw {A} t.

Global Instance outcome_bind : MBind outcome := fun A B k m =>
  match m with
  | Ok a => k a
  | Throw t => Throw t
  end.

Global Instance outcome_ret : MRet outcome := fun A a => Ok a.

(** ** Objects used as maps *)

(** A plain object with string keys: its own properties in the order they
    were created, every key once. *)
Abbreviation JsObject V := (list (string * V)).

Definition all_digits (s : string) : bool :=
  forallb is_digit (list_ascii_of_string s).

(** The value of [k] when [k] is an array index: a canonical decimal
    numeral below [2^32 - 1]. *)
Definition array_index (k : string) : option Z :=
  let n := digits_value 0 (list_ascii_of_string k) in
  if all_digits k && String.eqb (string_of_Z n) k && (n <? 4294967295)%Z
  then Some n else None.

Fixpoint insert_by_index {V : Type} (n : Z) (kv : string * V)
  (l : list (Z * (string * V))) : list (Z * (string * V)) :=
  match l with
  | (m, x) :: t =>
      if (n <? m)%Z then (n, kv) :: l else (m, x) :: insert_by_index n kv t
  | [] => [(n, kv)]
  end.

(** [Object.entries(o)]: the array-index keys in ascending numeric order,
    then the other keys in creation order. *)
Definition Object_entries {V : Type} (o : JsObject V) : list (string * V) :=
  let indexed :=
    foldl (fun acc kv =>
             match array_index kv.1 with
             | Some n => insert_by_index n kv acc
             | None => acc
             end) [] o in
  let named :=
    filter (fun kv => array_index kv.1 = None) o in
  map snd indexed ++ named.

(** ** The platform's [Headers], [URL] and [Response] *)

(** A [Headers] object: at most one value per name, names compared without
    regard to case.  The keys of the map are the lower-cased names.  [set]
    is modelled for the names and values it takes as they are
    ([header_name], [header_value] below). *)
Definition Headers_set (k v : string) (h : gmap string string) : gmap string string :=
  <[lower k := v]> h.

Definition Headers_get (k : string) (h : gmap string string) : option string :=
  h !! lower k.

Definition Headers_has (k : string) (h : gmap string string) : bool :=
  bool_decide (is_Some (h !! lower k)).

(** [for (const [key, value] of Object.entries(o)) headers.set(key, value)],
    the entries taken in the order [Object.entries] yields them. *)
Definition Headers_set_all (entries : JsObject string) (h : gmap string string)
  : gmap string string :=
  foldl (fun acc kv => Headers_set kv.1 kv.2 acc) h entries.

(** A [URL] object.  [searchParams] is the live list behind [search]. *)
Record URL : Type := {
  origin : string;
  pathname : string;
  searchParams : list (string * string);
  hash : string
}.

Record RequestInit : Type := {
  init_method : string;
  init_headers : gmap string string;
  init_body : option string
}.

(** A [Response]: its status and headers, and what [json()] and [text()]
    settle to when the body is read. *)
Record Response : Type := {
  resp_status : Z;
  resp_headers : gmap string string;
  resp_json : outcome json;
  resp_text : string
}.

(** [response.ok]. *)
Definition ok (r : Response) : bool :=
  (200 <=? resp_status r)%Z && (resp_status r <=? 299)%Z.

(** ** interceptors.ts *)

Record RequestContext : Type := {
  ctx_url : URL;
  ctx_init : RequestInit
}.

Record ResponseContext : Type := {
  rctx_url : URL;
  rctx_init : RequestInit;
  rctx_response : Response
}.

Record ErrorContext : Type := {
  ectx_url : URL;
  ectx_init : RequestInit;
  ectx_error : thrown
}.

(** What a response interceptor hands back: a bare [Response], a context
    (whose [response] may be missing), or nothing. *)
Inductive ResponseInterceptorResult : Type :=
| ReturnsResponse (r : Response)
| ReturnsContext (u : URL) (i : RequestInit) (r : option Response)
| ReturnsNothing.

(** A request interceptor may hand back nothing, which keeps the context
    it was given.  An error interceptor's value is of no declared use; it
    is kept as a [jsval] to show that nothing depends on it. *)
Definition RequestInterceptor : Type := RequestContext -> outcome (option RequestContext).
Definition ResponseInterceptor : Type := ResponseContext -> outcome ResponseInterceptorResult.
Definition ErrorInterceptor : Type := ErrorContext -> outcome jsval.

Record InterceptorConfig : Type := {
  on_request : option (list RequestInterceptor);
  on_response : option (list ResponseInterceptor);
  on_error : option (list ErrorInterceptor)
}.

Definition no_interceptors : InterceptorConfig :=
  {| on_request := None; on_response := None; on_error := None |}.

(** The transport function.  Its first argument is the index of the
    attempt it serves and stands for whatever the function remembers
    between two calls. *)
Definition Transport : Type := nat -> URL -> RequestInit -> outcome Response.

(** What a configuration holds where a function is expected: a function,
    or any other value. *)
Inductive fetch_slot : Type :=
| FetchFunction (f : Transport)
| FetchValue (v : jsval).

(** ** config.ts *)

Definition DEFAULT_BASE_URL : string := "https://app.mailrify.com/api".
Definition DEFAULT_TIMEOUT : jsnum := num_of_Z 30000.
Definition DEFAULT_MAX_RETRIES : jsnum := num_of_Z 2.
Definition DEFAULT_RETRY_DELAY : jsnum := num_of_Z 500.

Record ClientConfig : Type := {
  apiKey : jsval;
  baseUrl : jsval;
  timeout : option jsnum;
  maxRetries : option jsnum;
  retryDelayMs : option jsnum;
  fetch : fetch_slot;
  headers : option (JsObject string);
  interceptors : option InterceptorConfig;
  debug : jsval;
  userAgent : option string
}.

Record RetryPolicy : Type := {
  r_maxRetries : jsnum;
  r_retryDelayMs : jsnum
}.

Record ResolvedClientConfig : Type := {
  rc_apiKey : string;
  rc_baseUrl : string;
  rc_timeout : jsnum;
  rc_fetch : Transport;
  rc_headers : JsObject string;
  rc_interceptors : InterceptorConfig;
  rc_debug : bool;
  rc_retry : RetryPolicy;
  rc_userAgent : option string
}.

Definition validation_failure {A : Type} (msg : string) : outcome A :=
  Throw (Typed (new_ValidationError msg no_options)).

(** [validateConfig(config)].  The argument is [None] when the caller
    passed something that is not an object. *)
Definition validateConfig (config : option ClientConfig) : outcome ClientConfig :=
  match config with
  | None => validation_failure "Mailrify client configuration must be an object."
  | Some c =>
      if negb (truthy (apiKey c)) || negb (is_string (apiKey c))
         || match apiKey c with
            | VStr s => (String.length (trim s) =? 0)%nat
            | _ => false
            end
      then validation_failure "Mailrify client requires a non-empty apiKey."
      else if truthy (baseUrl c) && negb (is_string (baseUrl c))
      then validation_failure "baseUrl must be a string when provided."
      else if match timeout c with
              | Some t => negb (isFinite t) || num_le t (num_of_Z 0)
              | None => false
              end
      then validation_failure "timeout must be a positive number when provided."
      else if match maxRetries c with
              | Some n => num_lt n (num_of_Z 0)
              | None => false
              end
      then validation_failure "maxRetries cannot be negative."
      else if match retryDelayMs c with
              | Some n => num_lt n (num_of_Z 0)
              | None => false
              end
      then validation_failure "retryDelayMs cannot be negative."
      else Ok c
  end.

Fixpoint drop_slashes (l : list ascii) : list ascii :=
  match l with
  | c :: t => if Ascii.eqb c "/" then drop_slashes t else l
  | [] => []
  end.

(** [s.replace(/\/+$/, '')], and equally [s.replace(/\/*$/, '')]: the
    string without its trailing slashes. *)
Definition strip_trailing_slashes (s : string) : string :=
  string_of_list_ascii (rev (drop_slashes (rev (list_ascii_of_string s)))).

(** [resolveConfig(config)], given the ambient [globalThis.fetch]. *)
Definition resolveConfig (global_fetch : fetch_slot) (config : option ClientConfig)
  : outcome ResolvedClientConfig :=
  c ← validateConfig config;
  base ← match baseUrl c with
         | VUndefined | VNull => Ok DEFAULT_BASE_URL
         | VStr s => Ok (strip_trailing_slashes s)
         | _ => Throw (NativeError "TypeError" "config.baseUrl?.replace is not a function")
         end;
  let timeout_ := default DEFAULT_TIMEOUT (timeout c) in
  let maxRetries_ := default DEFAULT_MAX_RETRIES (maxRetries c) in
  let retryDelayMs_ := default DEFAULT_RETRY_DELAY (retryDelayMs c) in
  let fetchImpl :=
    match fetch c with
    | FetchValue v => if nullish v then global_fetch else fetch c
    | FetchFunction _ => fetch c
    end in
  match fetchImpl with
  | FetchValue _ =>
      Throw (NativeError "Error"
               "A fetch implementation is required (Node 18+ provides a global fetch).")
  | FetchFunction f =>
      (* a validated [apiKey] is a string *)
      Ok {| rc_apiKey := match apiKey c with VStr s => s | _ => "" end;
            rc_baseUrl := base;
            rc_timeout := timeout_;
            rc_fetch := f;
            rc_headers := default [] (headers c);
            rc_interceptors := default no_interceptors (interceptors c);
            rc_debug := truthy (debug c);
            rc_retry := {| r_maxRetries := maxRetries_; r_retryDelayMs := retryDelayMs_ |};
            rc_userAgent := userAgent c |}
  end.

(** ** utils/schema.ts *)

(** [assertNonEmptyString(value, fieldName)], the pre-flight check of the
    resource methods; on success the value is known to be a string. *)
Definition assertNonEmptyString (value : jsval) (fieldName : string) : outcome string :=
  match value with
  | VStr s =>
      if (String.length (trim s) =? 0)%nat
      then validation_failure ("Expected non-empty string for '" ++ fieldName ++ "'.")
      else Ok s
  | _ => validation_failure ("Expected non-empty string for '" ++ fieldName ++ "'.")
  end.

(** ** client.ts *)

Inductive HttpMethod : Type := GET | POST | PUT | PATCH | DELETE | HEAD.

Definition method_name (m : HttpMethod) : string :=
  match m with
  | GET => "GET" | POST => "POST" | PUT => "PUT"
  | PATCH => "PATCH" | DELETE => "DELETE" | HEAD => "HEAD"
  end.

(** A value that [String()] is applied to. *)
Inductive Scalar : Type :=
| SStr (s : string)
| SInt (z : Z)
| SBool (b : bool).

Definition String_of (v : Scalar) : string :=
  match v with
  | SStr s => s
  | SInt z => string_of_Z z
  | SBool true => "true"
  | SBool false => "false"
  end.

(** A value of the [query] record.  An item of an array is [None] when it
    is [null] or [undefined]. *)
Inductive QueryValue : Type :=
| QNullish
| QArray (items : list (option Scalar))
| QScalar (v : Scalar).

(** The [body] option: absent, passed through as it is (a string, a
    [FormData], a [URLSearchParams]), or any other value together with what
    [JSON.stringify] makes of it. *)
Inductive Body : Type :=
| BodyAbsent
| BodyRaw (b : string)
| BodyData (stringified : outcome (option string)).

(** [RequestOptions].  [signal] and [timeout] reach the transport through
    the abort signal only, that is through what the transport's promise
    settles to, and have no field here. *)
Record RequestOptions : Type := {
  query : option (JsObject QueryValue);
  o_headers : option (JsObject string);
  body : Body;
  idempotent : option bool
}.

Definition default_options : RequestOptions :=
  {| query := None; o_headers := None; body := BodyAbsent; idempotent := None |}.

Definition DEFAULT_HEADERS : JsObject string := [("Accept", "application/json")].

(** What the platform provides around the client. *)
Record Platform : Type := {
  new_URL : string -> outcome URL;
  navigator_defined : bool;
  globalThis_fetch : fetch_slot
}.

(** What a call leaves behind, in order. *)
Inductive event : Type :=
| RequestInterceptorRan (index : nat) (given : RequestContext)
| TransportCalled (attempt : nat) (u : URL) (i : RequestInit)
| ResponseInterceptorRan (index : nat) (given : ResponseContext)
| ErrorInterceptorRan (index : nat) (given : ErrorContext)
| Slept (ms : jsnum)
| NoSleep (ms : jsnum).

(** What [dispatch] resolves to: decoded JSON or text. *)
Inductive BodyValue : Type :=
| FromJson (j : json)
| FromText (s : string).

(** *** buildUrl *)

Definition nonempty (s : string) : bool := negb (String.eqb s "").

(** [s.replace(/\/{2,}/g, '/')]. *)
Fixpoint collapse_slashes (s : string) : string :=
  match s with
  | EmptyString => EmptyString
  | String c t =>
      if Ascii.eqb c "/" && String.prefix "/" t then collapse_slashes t
      else String c (collapse_slashes t)
  end.

(** [searchParams.append(k, v)]. *)
Definition params_append (k v : string) (ps : list (string * string))
  : list (string * string) := ps ++ [(k, v)].

Definition params_delete (k : string) (ps : list (string * string))
  : list (string * string) :=
  filter (fun kv => kv.1 ≠ k) ps.

(** [searchParams.set(k, v)]: the first pair named [k] takes the value, the
    other pairs named [k] go; without such a pair, [append]. *)
Fixpoint params_set (k v : string) (ps : list (string * string))
  : list (string * string) :=
  match ps with
  | (k', v') :: t =>
      if String.eqb k' k then (k, v) :: params_delete k t
      else (k', v') :: params_set k v t
  | [] => [(k, v)]
  end.

(** The body of the loop over [Object.entries(query)]. *)
Definition add_query_entry (ps : list (string * string)) (kv : string * QueryValue)
  : list (string * string) :=
  match kv.2 with
  | QNullish => ps
  | QArray items =>
      foldl (fun acc item =>
               match item with
               | Some x => params_append kv.1 (String_of x) acc
               | None => acc
               end) ps items
  | QScalar x => params_set kv.1 (String_of x) ps
  end.

Definition joinPath (basePath normalizedPath : string) : string :=
  String.concat "/" (filter (fun s => nonempty s = true) [basePath; normalizedPath]).

(** *** The [pathname] setter of [URL]

    [url.pathname = value] on a URL with a special scheme such as [https],
    the only kind of base address a transport can fetch: the URL parser of
    the URL Standard runs over [value] from its path start state.  It drops tabs and newlines, takes a backslash for a
    slash, percent-encodes the bytes of the path percent-encode set (a
    question mark and a number sign among them, which end no path here),
    and resolves the dot segments.  Strings are read as their UTF-8
    bytes. *)

Definition hex_digit (n : nat) : ascii :=
  ascii_of_nat (if (n <? 10)%nat then 48 + n else 55 + n).

Definition percent_encode_byte (c : ascii) : string :=
  let n := nat_of_ascii c in
  String "%" (String (hex_digit (n / 16)) (String (hex_digit (n mod 16)) EmptyString)).

Definition is_tab_or_newline (c : ascii) : bool :=
  let n := nat_of_ascii c in ((n =? 9) || (n =? 10) || (n =? 13))%nat.

Definition is_backslash (c : ascii) : bool := (nat_of_ascii c =? 92)%nat.

(** The path percent-encode set: the C0 controls, the space, the double
    quote, [#], [<], [>], [?], [^], the backquote, the braces, and
    everything above [~]. *)
Definition in_path_percent_encode_set (c : ascii) : bool :=
  let n := nat_of_ascii c in
  ((n <=? 32) || (n =? 34) || (n =? 35) || (n =? 60) || (n =? 62) || (n =? 63)
   || (n =? 94) || (n =? 96) || (n =? 123) || (n =? 125) || (127 <=? n))%nat.

(** The input as the path state reads it: without tabs and newlines, a
    backslash read as a slash, every other byte percent-encoded when it is
    in the set. *)
Fixpoint path_input (s : string) : string :=
  match s with
  | EmptyString => EmptyString
  | String c t =>
      if is_tab_or_newline c then path_input t
      else if is_backslash c then String "/" (path_input t)
      else if in_path_percent_encode_set c then percent_encode_byte c ++ path_input t
      else String c (path_input t)
  end.

(** The pieces of a path between its slashes, empty ones included. *)
Fixpoint pieces (s : string) : list string :=
  match s with
  | EmptyString => [""]
  | String c t =>
      if Ascii.eqb c "/" then "" :: pieces t
      else match pieces t with
           | p :: rest => String c p :: rest
           | [] => [String c ""]
           end
  end.

(** A single-dot and a double-dot URL path segment. *)
Definition single_dot (segment : string) : bool :=
  let l := lower segment in String.eqb l "." || String.eqb l "%2e".

Definition double_dot (segment : string) : bool :=
  let l := lower segment in
  String.eqb l ".." || String.eqb l ".%2e" || String.eqb l "%2e." || String.eqb l "%2e%2e".

(** The path state, one buffer at a time: a double-dot segment shortens
    the path, a single-dot segment is dropped, any other buffer is
    appended; a dot segment that ends the input leaves an empty segment
    behind. *)
Fixpoint resolve_segments (path buffers : list string) : list string :=
  match buffers with
  | [] => path
  | buffer :: rest =>
      match rest with
      | [] =>
          if double_dot buffer then (removelast path ++ [""])%list
          else if single_dot buffer then (path ++ [""])%list
          else (path ++ [buffer])%list
      | _ :: _ =>
          resolve_segments
            (if double_dot buffer then removelast path
             else if single_dot buffer then path
             else (path ++ [buffer])%list) rest
      end
  end.

(** The URL path serializer. *)
Fixpoint serialize_path (path : list string) : string :=
  match path with
  | [] => ""
  | segment :: rest => "/" ++ segment ++ serialize_path rest
  end.

(** What [url.pathname] reads after [url.pathname = value]. *)
Definition URL_set_pathname (value : string) : string :=
  let input := path_input value in
  let remaining :=
    match input with
    | String c t => if Ascii.eqb c "/" then t else input
    | EmptyString => input
    end in
  serialize_path (resolve_segments [] (pieces remaining)).

Definition buildUrl (pf : Platform) (config : ResolvedClientConfig)
  (path : string) (q : option (JsObject QueryValue)) : outcome URL :=
  baseUrl ← new_URL pf (rc_baseUrl config);
  let basePath := strip_trailing_slashes (pathname baseUrl) in
  let normalizedPath :=
    if startsWith "/" path then String.substring 1 (String.length path - 1) path
    else path in
  let combinedPath := joinPath basePath normalizedPath in
  let url :=
    {| origin := origin baseUrl;
       pathname := URL_set_pathname
                     (collapse_slashes
                        (if nonempty combinedPath then "/" ++ combinedPath else "/"));
       searchParams := [];
       hash := "" |} in
  Ok match q with
     | Some o =>
         {| origin := origin url; pathname := pathname url;
            searchParams := foldl add_query_entry (searchParams url) (Object_entries o);
            hash := hash url |}
     | None => url
     end.

(** The [application/x-www-form-urlencoded] byte serializer. *)
Definition urlencode_byte (c : ascii) : string :=
  let n := nat_of_ascii c in
  if is_digit c
     || ((65 <=? n) && (n <=? 90))%nat || ((97 <=? n) && (n <=? 122))%nat
     || (n =? 42)%nat || (n =? 45)%nat || (n =? 46)%nat || (n =? 95)%nat
  then String c EmptyString
  else if (n =? 32)%nat then "+"
  else String "%" (String (hex_digit (n / 16)) (String (hex_digit (n mod 16)) EmptyString)).

Fixpoint urlencode (s : string) : string :=
  match s with
  | EmptyString => EmptyString
  | String c t => urlencode_byte c ++ urlencode t
  end.

(** [url.search]. *)
Definition search (u : URL) : string :=
  match searchParams u with
  | [] => ""
  | ps => "?" ++ String.concat "&" (map (fun kv => urlencode kv.1 ++ "=" ++ urlencode kv.2) ps)
  end.

(** [url.toString()]. *)
Definition URL_toString (u : URL) : string :=
  origin u ++ pathname u ++ search u ++ hash u.

(** *** buildHeaders *)

Definition buildHeaders (pf : Platform) (config : ResolvedClientConfig)
  (overrideHeaders : option (JsObject string)) : gmap string string :=
  let h := Headers_set_all (Object_entries DEFAULT_HEADERS) ∅ in
  let h := Headers_set_all (Object_entries (rc_headers config)) h in
  let h := Headers_set "authorization" ("Bearer " ++ rc_apiKey config) h in
  let h := Headers_set "x-mailrify-client" "mailrify" h in
  let h :=
    match rc_userAgent config with
    | Some ua =>
        if nonempty ua && negb (navigator_defined pf)
        then Headers_set "user-agent" ua h else h
    | None => h
    end in
  match overrideHeaders with
  | Some o => Headers_set_all (Object_entries o) h
  | None => h
  end.

(** *** parseResponse, safeParseError and buildError *)

Definition header_is (k v : string) (h : gmap string string) : bool :=
  bool_decide (Headers_get k h = Some v).

Definition is_json (r : Response) : bool :=
  includes "application/json" (default "" (Headers_get "content-type" (resp_headers r))).

(** [parseResponse(response)]; [None] is [undefined]. *)
Definition parseResponse (r : Response) : outcome (option BodyValue) :=
  if (resp_status r =? 204)%Z || header_is "content-length" "0" (resp_headers r)
  then Ok None
  else if is_json r
  then j ← resp_json r; Ok (Some (FromJson j))
  else
    let text := resp_text r in
    Ok (if nonempty text then Some (FromText text) else None).

(** [safeParseError(response)]: the payload, [None] for [undefined]. *)
Definition safeParseError (r : Response) : option json :=
  if is_json r
  then match resp_json r with
       | Ok j => Some j
       | Throw _ => None
       end
  else
    let text := resp_text r in
    if nonempty text then Some (JObj [("message", JStr text)]) else None.

(** [payload?.[field]]: [None] when the payload or the property is missing
    or [null]. *)
Definition member (field : string) (payload : option json) : option json :=
  match payload with
  | Some (JObj members) =>
      match List.find (fun kv => String.eqb kv.1 field) members with
      | Some (_, JNull) | None => None
      | Some (_, v) => Some v
      end
  | _ => None
  end.

(** A property that [MailrifyErrorPayload] declares as a string.  The cast
    [as MailrifyErrorPayload] is taken at its word: a property of another
    type counts as missing. *)
Definition string_member (field : string) (payload : option json) : option string :=
  match member field payload with
  | Some (JStr s) => Some s
  | _ => None
  end.

(** [a ?? b] on optional values. *)
Definition or_else {A : Type} (a b : option A) : option A :=
  match a with
  | Some _ => a
  | None => b
  end.

Definition buildError (r : Response) (context : RequestContext) : MailrifyError :=
  let payload := safeParseError r in
  let requestId_ := Headers_get "x-request-id" (resp_headers r) in
  let baseDetails :=
    {| opt_status := Some (num_of_Z (resp_status r));
       opt_code := string_member "code" payload;
       opt_details := or_else (member "details" payload) payload;
       opt_requestId := requestId_;
       opt_cause := None;
       opt_retryAfter := None |} in
  if (resp_status r =? 401)%Z || (resp_status r =? 403)%Z
  then
    new_AuthError
      (default "Unauthorized request."
         (or_else (string_member "message" payload) (string_member "error" payload)))
      baseDetails
  else if (resp_status r =? 429)%Z
  then
    let retryAfterHeader := Headers_get "retry-after" (resp_headers r) in
    let retryAfter_ :=
      match retryAfterHeader with
      | Some h =>
          if nonempty h then Some (num_mul (parseInt h) (num_of_Z 1000)) else None
      | None => None
      end in
    new_RateLimitError
      (default "Rate limit exceeded." (string_member "message" payload))
      {| opt_status := opt_status baseDetails; opt_code := opt_code baseDetails;
         opt_details := opt_details baseDetails;
         opt_requestId := opt_requestId baseDetails;
         opt_cause := opt_cause baseDetails; opt_retryAfter := retryAfter_ |}
  else
    let message_ :=
      default ("Request to " ++ pathname (ctx_url context) ++ " failed with status "
               ++ string_of_Z (resp_status r) ++ ".")
        (or_else (string_member "message" payload) (string_member "error" payload)) in
    new_HTTPError message_ baseDetails.

(** *** The retry policy *)

(** [options.idempotent ?? (method === 'GET' || method === 'HEAD')]. *)
Definition isIdempotent (method : HttpMethod) (options : RequestOptions) : bool :=
  default (match method with GET | HEAD => true | _ => false end) (idempotent options).

(** [error.status >= 500]; a missing status compares as [NaN]. *)
Definition status_at_least_500 (error : thrown) : bool :=
  match error with
  | Typed e =>
      match status e with
      | Some s => num_ge s (num_of_Z 500)
      | None => false
      end
  | _ => false
  end.

Definition shouldRetry (method : HttpMethod) (error : thrown)
  (options : RequestOptions) (attempt : nat) (maxRetries_ : jsnum) : bool :=
  if num_ge (num_of_nat attempt) maxRetries_ then false
  else if negb (isIdempotent method options) then false
  else if instanceof error RateLimitErrorClass then true
  else if instanceof error HTTPErrorClass then status_at_least_500 error
  else if instanceof error MailrifyErrorClass then false
  else true.

Definition getRetryDelay (config : ResolvedClientConfig) (error : thrown) (attempt : nat)
  : jsnum :=
  let backoff := num_mul (r_retryDelayMs (rc_retry config)) (pow2 attempt) in
  match error with
  | Typed e =>
      if inherits (class e) RateLimitErrorClass
      then match retryAfter e with
           | Some ms => if num_truthy ms then ms else backoff
           | None => backoff
           end
      else backoff
  | _ => backoff
  end.

(** [delay(durationMs)]: what the call does before it resolves. *)
Definition delay (durationMs : jsnum) : event :=
  if num_le durationMs (num_of_Z 0) then NoSleep durationMs else Slept durationMs.

(** The retry budget of a call. *)
Definition retry_budget (config : ResolvedClientConfig) (options : RequestOptions) : jsnum :=
  match idempotent options with
  | Some false => num_of_Z 0
  | _ => r_maxRetries (rc_retry config)
  end.

(** *** The interceptor pipeline *)

Fixpoint runRequestInterceptors_from (index : nat) (l : list RequestInterceptor)
  (next : RequestContext) : outcome RequestContext * list event :=
  match l with
  | [] => (Ok next, [])
  | interceptor :: rest =>
      match interceptor next with
      | Throw t => (Throw t, [RequestInterceptorRan index next])
      | Ok result =>
          let (r, log) := runRequestInterceptors_from (S index) rest (default next result) in
          (r, RequestInterceptorRan index next :: log)
      end
  end.

Definition runRequestInterceptors (ic : InterceptorConfig) (context : RequestContext)
  : outcome RequestContext * list event :=
  runRequestInterceptors_from 0 (default [] (on_request ic)) context.

Fixpoint runResponseInterceptors_from (index : nat) (l : list ResponseInterceptor)
  (nextContext : ResponseContext) : outcome Response * list event :=
  match l with
  | [] => (Ok (rctx_response nextContext), [])
  | interceptor :: rest =>
      match interceptor nextContext with
      | Throw t => (Throw t, [ResponseInterceptorRan index nextContext])
      | Ok result =>
          let nextContext' :=
            match result with
            | ReturnsResponse r =>
                {| rctx_url := rctx_url nextContext; rctx_init := rctx_init nextContext;
                   rctx_response := r |}
            | ReturnsContext u i r =>
                {| rctx_url := u; rctx_init := i;
                   rctx_response := default (rctx_response nextContext) r |}
            | ReturnsNothing => nextContext
            end in
          let (r, log) := runResponseInterceptors_from (S index) rest nextContext' in
          (r, ResponseInterceptorRan index nextContext :: log)
      end
  end.

Definition runResponseInterceptors (ic : InterceptorConfig) (context : RequestContext)
  (response : Response) : outcome Response * list event :=
  runResponseInterceptors_from 0 (default [] (on_response ic))
    {| rctx_url := ctx_url context; rctx_init := ctx_init context;
       rctx_response := response |}.

Fixpoint runErrorInterceptors_from (index : nat) (l : list ErrorInterceptor)
  (context : RequestContext) (error : thrown) : outcome unit * list event :=
  match l with
  | [] => (Ok tt, [])
  | interceptor :: rest =>
      let given :=
        {| ectx_url := ctx_url context; ectx_init := ctx_init context;
           ectx_error := error |} in
      match interceptor given with
      | Throw t => (Throw t, [ErrorInterceptorRan index given])
      | Ok _ =>
          let (r, log) := runErrorInterceptors_from (S index) rest context error in
          (r, ErrorInterceptorRan index given :: log)
      end
  end.

Definition runErrorInterceptors (ic : InterceptorConfig) (context : RequestContext)
  (error : thrown) : outcome unit * list event :=
  runErrorInterceptors_from 0 (default [] (on_error ic)) context error.

(** *** dispatch *)

(** The [body] branch of [dispatch]: the body to send and the headers,
    which gain a JSON content type when the body was encoded here and none
    is set yet. *)
Definition serializeBody (b : Body) (h : gmap string string)
  : outcome (option string * gmap string string) :=
  match b with
  | BodyAbsent => Ok (None, h)
  | BodyRaw s => Ok (Some s, h)
  | BodyData stringified =>
      s ← stringified;
      Ok (s, if Headers_has "content-type" h then h
             else Headers_set "content-type" "application/json" h)
  end.

(** [x ?? undefined] on a parsed body: a JSON [null] becomes [undefined]. *)
Definition or_undefined (parsed : option BodyValue) : option BodyValue :=
  match parsed with
  | Some (FromJson JNull) => None
  | _ => parsed
  end.

(** The end of the [try] block, once the final response is known: raise
    the typed error of a response that is not [ok], parse the body of one
    that is. *)
Definition settle (finalResponse : Response) (requestContext : RequestContext)
  : outcome (option BodyValue) :=
  if negb (ok finalResponse)
  then Throw (Typed (buildError finalResponse requestContext))
  else parsed ← parseResponse finalResponse; Ok (or_undefined parsed).

(** The [try] block of [dispatch].  Beside the outcome and the log it
    gives the value the variable [requestContext] holds when the block is
    left, which is the context the [catch] clause hands to the error
    interceptors. *)
Definition dispatch_try (config : ResolvedClientConfig) (attempt : nat)
  (requestContext : RequestContext)
  : RequestContext * outcome (option BodyValue) * list event :=
  let ic := rc_interceptors config in
  let (r1, log1) := runRequestInterceptors ic requestContext in
  match r1 with
  | Throw t => (requestContext, Throw t, log1)
  | Ok requestContext' =>
      let called :=
        TransportCalled attempt (ctx_url requestContext') (ctx_init requestContext') in
      match rc_fetch config attempt (ctx_url requestContext') (ctx_init requestContext') with
      | Throw t => (requestContext', Throw t, (log1 ++ [called])%list)
      | Ok response =>
          let (r2, log2) := runResponseInterceptors ic requestContext' response in
          (requestContext',
           (finalResponse ← r2; settle finalResponse requestContext'),
           (log1 ++ called :: log2)%list)
      end
  end.

(** The [catch] clause of [dispatch]: run the error interceptors on the
    context at hand, then throw the error again.  The result is what
    leaves the clause. *)
Definition dispatch_catch (config : ResolvedClientConfig)
  (requestContext : RequestContext) (error : thrown) : thrown * list event :=
  let (r, log) := runErrorInterceptors (rc_interceptors config) requestContext error in
  (match r with
   | Ok _ => error
   | Throw t => t
   end, log).

Definition dispatch (pf : Platform) (config : ResolvedClientConfig)
  (method : HttpMethod) (path : string) (options : RequestOptions) (attempt : nat)
  : outcome (option BodyValue) * list event :=
  match buildUrl pf config path (query options) with
  | Throw t => (Throw t, [])
  | Ok url =>
      match serializeBody (body options) (buildHeaders pf config (o_headers options)) with
      | Throw t => (Throw t, [])
      | Ok (body_, headers_) =>
          let init :=
            {| init_method := method_name method; init_headers := headers_;
               init_body := body_ |} in
          let '(requestContext, r, log) :=
            dispatch_try config attempt {| ctx_url := url; ctx_init := init |} in
          match r with
          | Ok v => (Ok v, log)
          | Throw error =>
              let (t, log') := dispatch_catch config requestContext error in
              (Throw t, (log ++ log')%list)
          end
      end
  end.

(** *** request *)

(** The statement after the loop:
    [throw lastError instanceof Error ? lastError : new MailrifyError(...)].
    [lastError] is [None] while the variable has never been assigned. *)
Definition after_loop (lastError : option thrown) : thrown :=
  let wrapped (c : jsval) :=
    Typed (new_MailrifyError "Unknown request failure"
             {| opt_status := None; opt_code := None; opt_details := None;
                opt_requestId := None; opt_cause := Some c;
                opt_retryAfter := None |}) in
  match lastError with
  | Some (NonError v) => wrapped v
  | Some t => t
  | None => wrapped VUndefined
  end.

(** The attempt loop of [request], from [attempt] on.  [run] is
    [this.dispatch(method, path, {...options, attempt})].  The loop has no
    bound of its own when the budget is infinite, so it is run on [fuel],
    one unit per call of [run]; [None] is fuel running out. *)
Fixpoint request_loop (config : ResolvedClientConfig) (method : HttpMethod)
  (options : RequestOptions) (run : nat -> outcome (option BodyValue) * list event)
  (fuel attempt : nat) (lastError : option thrown)
  : option (outcome (option BodyValue) * list event) :=
  let maxRetries_ := retry_budget config options in
  if num_le (num_of_nat attempt) maxRetries_
  then
    match fuel with
    | O => None
    | S fuel' =>
        let (r, log) := run attempt in
        match r with
        | Ok v => Some (Ok v, log)
        | Throw error =>
            if negb (shouldRetry method error options attempt maxRetries_)
            then Some (Throw error, log)
            else
              let pause := delay (getRetryDelay config error attempt) in
              match request_loop config method options run fuel' (S attempt) (Some error) with
              | Some (r', log') => Some (r', (log ++ pause :: log')%list)
              | None => None
              end
        end
    end
  else Some (Throw (after_loop lastError), []).

Definition request (pf : Platform) (config : ResolvedClientConfig)
  (method : HttpMethod) (path : string) (options : RequestOptions) (fuel : nat)
  : option (outcome (option BodyValue) * list event) :=
  request_loop config method options (dispatch pf config method path options) fuel 0 None.

(** [new HttpClient(config)]: the constructor resolves the configuration
    and keeps it. *)
Definition new_HttpClient (pf : Platform) (config : option ClientConfig)
  : outcome ResolvedClientConfig :=
  resolveConfig (globalThis_fetch pf) config.

(** * The vocabulary of the specification *)

(** ** Configuration *)

(** The credential is missing or blank: it is not a string with something
    else than white space in it. *)
Definition credential_missing (v : jsval) : Prop :=
  forall s, v = VStr s -> trim s = "".

(** The base address is there (truthy) and is not a string. *)
Definition base_address_not_a_string (v : jsval) : Prop :=
  truthy v = true /\ forall s, v <> VStr s.

(** The timeout is there and is not a finite positive number. *)
Definition timeout_rejected (t : option jsnum) : Prop :=
  exists n, t = Some n /\ ~ exists q, n = Fin q /\ (0 < q)%Q.

(** A count or a delay is there and is negative. *)
Definition negative (o : option jsnum) : Prop :=
  exists n, o = Some n /\ (n = NegInf \/ exists q, n = Fin q /\ (q < 0)%Q).

(** What [validateConfig] refuses. *)
Definition invalid (config : option ClientConfig) : Prop :=
  match config with
  | None => True
  | Some c =>
      credential_missing (apiKey c)
      \/ base_address_not_a_string (baseUrl c)
      \/ timeout_rejected (timeout c)
      \/ negative (maxRetries c)
      \/ negative (retryDelayMs c)
  end.

(** The transport function resolution settles on: the configured one, or
    the ambient one when the configuration has [undefined] or [null]. *)
Definition transport_available (global_fetch : fetch_slot) (c : ClientConfig)
  : option Transport :=
  match fetch c with
  | FetchFunction f => Some f
  | FetchValue v =>
      if nullish v
      then match global_fetch with FetchFunction f => Some f | FetchValue _ => None end
      else None
  end.

Definition is_ValidationError (t : thrown) : Prop :=
  exists e, t = Typed e /\ class e = ValidationErrorClass.

(** ** The retry policy *)

(** The call is idempotent: by the explicit flag when there is one, and
    otherwise exactly when the verb is GET or HEAD. *)
Definition idempotent_call (method : HttpMethod) (options : RequestOptions) : Prop :=
  match idempotent options with
  | Some flag => flag = true
  | None => method = GET \/ method = HEAD
  end.

(** The error is one the policy retries: a rate-limit error, an HTTP error
    with a status of 500 or more, or a value outside the typed hierarchy. *)
Definition retryable_error (error : thrown) : Prop :=
  instanceof error RateLimitErrorClass = true
  \/ (instanceof error HTTPErrorClass = true
      /\ exists e s, error = Typed e /\ status e = Some s
                     /\ num_le (num_of_Z 500) s = true)
  \/ instanceof error MailrifyErrorClass = false.

(** The retry-after value a rate-limit error carries. *)
Definition carried_retry_after (error : thrown) : option jsnum :=
  match error with
  | Typed e => if inherits (class e) RateLimitErrorClass then retryAfter e else None
  | _ => None
  end.

(** A delay that is zero or negative. *)
Definition zero_or_negative (d : jsnum) : Prop :=
  d = NegInf \/ exists q, d = Fin q /\ (q <= 0)%Q.

(** Exponential backoff: the base delay times two to the attempt index. *)
Definition exponential_backoff (config : ResolvedClientConfig) (attempt : nat) : jsnum :=
  num_mul (r_retryDelayMs (rc_retry config)) (pow2 attempt).

(** ** Headers *)

(** The value of the last entry named [k], names compared without regard
    to case. *)
Fixpoint named (k : string) (entries : list (string * string)) : option string :=
  match entries with
  | [] => None
  | (k', v) :: rest =>
      or_else (named k rest) (if decide (lower k' = lower k) then Some v else None)
  end.

(** The headers the client forces: authorization, client identity and,
    outside a browser, the configured user agent. *)
Definition forced_header (pf : Platform) (config : ResolvedClientConfig) (k : string)
  : option string :=
  if decide (lower k = "authorization") then Some ("Bearer " ++ rc_apiKey config)
  else if decide (lower k = "x-mailrify-client") then Some "mailrify"
  else if decide (lower k = "user-agent") then
    match rc_userAgent config with
    | Some ua => if nonempty ua && negb (navigator_defined pf) then Some ua else None
    | None => None
    end
  else None.

(** ** Error interceptors *)

(** The first interceptor that throws when given [ctx], with its position
    and what it throws. *)
Fixpoint first_throwing (index : nat) (l : list ErrorInterceptor) (ctx : ErrorContext)
  : option (nat * thrown) :=
  match l with
  | [] => None
  | interceptor :: rest =>
      match interceptor ctx with
      | Throw t => Some (index, t)
      | Ok _ => first_throwing (S index) rest ctx
      end
  end.

(** The log of the interceptors at positions [from], ..., [from + n - 1]
    running on [ctx]. *)
Definition error_interceptors_ran (from n : nat) (ctx : ErrorContext) : list event :=
  map (fun i => ErrorInterceptorRan i ctx) (seq from n).

(** The positions of the error interceptors a log shows, in order. *)
Definition error_interceptor_runs (log : list event) : list nat :=
  omap (fun ev => match ev with ErrorInterceptorRan i _ => Some i | _ => None end) log.

(** ** Responses *)

(** [needle] occurs in [hay]. *)
Definition contains (needle hay : string) : Prop :=
  exists pre post, hay = pre ++ needle ++ post.

(** The response says its body is JSON. *)
Definition json_content (r : Response) : Prop :=
  exists ct, Headers_get "content-type" (resp_headers r) = Some ct
             /\ contains "application/json" ct.

(** The response has no body to read: status 204, or a [content-length]
    header equal to ["0"]. *)
Definition bodiless (r : Response) : Prop :=
  resp_status r = 204%Z \/ Headers_get "content-length" (resp_headers r) = Some "0".

(** ** The course of one attempt *)

(** The steps before the [try] block went through and built the context
    [ctx0]. *)
Definition prepared (pf : Platform) (config : ResolvedClientConfig)
  (method : HttpMethod) (path : string) (options : RequestOptions)
  (ctx0 : RequestContext) : Prop :=
  exists url body_ headers_,
    buildUrl pf config path (query options) = Ok url
    /\ serializeBody (body options) (buildHeaders pf config (o_headers options))
       = Ok (body_, headers_)
    /\ ctx0 = {| ctx_url := url;
                 ctx_init := {| init_method := method_name method;
                                init_headers := headers_; init_body := body_ |} |}.

(** The [try] block, started on [ctx0], received the final response [r]:
    the request interceptors gave the context [ctx], the transport answered
    and the response interceptors settled on [r], all of which left
    [log]. *)
Definition final_response (config : ResolvedClientConfig) (attempt : nat)
  (ctx0 ctx : RequestContext) (r : Response) (log : list event) : Prop :=
  exists response log1 log2,
    runRequestInterceptors (rc_interceptors config) ctx0 = (Ok ctx, log1)
    /\ rc_fetch config attempt (ctx_url ctx) (ctx_init ctx) = Ok response
    /\ runResponseInterceptors (rc_interceptors config) ctx response = (Ok r, log2)
    /\ log = (log1 ++ TransportCalled attempt (ctx_url ctx) (ctx_init ctx) :: log2)%list.

(** ** Addresses *)

(** The pairs one entry of the query stands for: none for [null] or
    [undefined], one per item that is neither for a sequence, one for a
    scalar. *)
Definition query_pairs (kv : string * QueryValue) : list (string * string) :=
  match kv.2 with
  | QNullish => []
  | QArray items => map (fun x => (kv.1, String_of x)) (omap id items)
  | QScalar x => [(kv.1, String_of x)]
  end.

(** The segments of a path: its pieces that are not empty. *)
Definition segments (s : string) : list string :=
  List.filter nonempty (pieces s).

(** What [resolveConfig] throws when it finds no transport function. *)
Definition fetch_required : thrown :=
  NativeError "Error"
    "A fetch implementation is required (Node 18+ provides a global fetch).".

(** * Sample inputs

    The client of [test/unit/client.test.ts]: base address
    [https://api.example.com], key [test-key], one retry, no backoff. *)

Definition sample_base : URL :=
  {| origin := "https://api.example.com"; pathname := "/";
     searchParams := []; hash := "" |}.

(** A platform without an ambient [fetch].  Its [URL] constructor accepts
    the sample base address; the only other string the samples give it has
    no scheme, and is rejected. *)
Definition sample_platform : Platform :=
  {| new_URL := fun s =>
       if String.eqb s "https://api.example.com" then Ok sample_base
       else Throw (NativeError "TypeError" "Invalid URL");
     navigator_defined := false;
     globalThis_fetch := FetchValue VUndefined |}.

(** [jsonResponse(data, { status, headers })] of the test helpers. *)
Definition jsonResponse (st : Z) (data : json) (extra : list (string * string)) : Response :=
  {| resp_status := st;
     resp_headers := Headers_set_all (("content-type", "application/json") :: extra) ∅;
     resp_json := Ok data;
     resp_text := "" |}.

Definition sample_config_with (f : fetch_slot) (retries : option jsnum) : ClientConfig :=
  {| apiKey := VStr "test-key"; baseUrl := VStr "https://api.example.com";
     timeout := Some (num_of_Z 5000); maxRetries := retries;
     retryDelayMs := Some (num_of_Z 500); fetch := f; headers := None;
     interceptors := None; debug := VUndefined; userAgent := None |}.

Definition sample_config (f : fetch_slot) : ClientConfig :=
  sample_config_with f (Some (num_of_Z 1)).

Definition sample_resolved_at (base : string) (f : Transport) (budget : jsnum)
  (ic : InterceptorConfig) : ResolvedClientConfig :=
  {| rc_apiKey := "test-key"; rc_baseUrl := base;
     rc_timeout := num_of_Z 5000; rc_fetch := f; rc_headers := [];
     rc_interceptors := ic; rc_debug := false;
     rc_retry := {| r_maxRetries := budget; r_retryDelayMs := num_of_Z 500 |};
     rc_userAgent := None |}.

Definition sample_resolved : Transport -> jsnum -> InterceptorConfig -> ResolvedClientConfig :=
  sample_resolved_at "https://api.example.com".

(** The context of a GET of [/v1/domains] on the sample client, before
    any header is set. *)
Definition sample_context : RequestContext :=
  {| ctx_url := {| origin := "https://api.example.com"; pathname := "/v1/domains";
                   searchParams := []; hash := "" |};
     ctx_init := {| init_method := "GET"; init_headers := ∅; init_body := None |} |}.

(** The calls of the transport in a log. *)
Definition transport_calls (log : list event) : list nat :=
  omap (fun ev => match ev with TransportCalled n _ _ => Some n | _ => None end) log.

(** The pauses between attempts in a log. *)
Definition pauses (log : list event) : list event :=
  omap (fun ev => match ev with
                  | Slept _ | NoSleep _ => Some ev
                  | _ => None
                  end) log.

(** The outcome of a call, and the whole of it. *)
Definition outcome_of {A : Type} (result : option (outcome A * list event))
  : option (outcome A) := fst <$> result.

Definition log_of {A : Type} (result : option (outcome A * list event)) : list event :=
  default [] (snd <$> result).

(** A transport that fails on its first call and answers afterwards, as
    in the unit test of retries. *)
Definition flaky (t : thrown) (r : Response) : Transport :=
  fun attempt _ _ => match attempt with O => Throw t | S _ => Ok r end.

(** A transport that always answers with the same response. *)
Definition answering (r : Response) : Transport := fun _ _ _ => Ok r.

(** A transport that always throws the same value. *)
Definition failing (t : thrown) : Transport := fun _ _ _ => Throw t.

(** [jsonResponse({ ok: true })]. *)
Definition sample_ok : Response := jsonResponse 200 (JObj [("ok", JBool true)]) [].

(** The client of the unit tests over a transport, with a retry budget
    and error interceptors. *)
Definition sample_client (f : Transport) : ResolvedClientConfig :=
  sample_resolved f (num_of_Z 1) no_interceptors.

(** The context [dispatch] builds for [client.get('/v1/domains')]. *)
Definition sample_get_context : RequestContext :=
  {| ctx_url := {| origin := "https://api.example.com"; pathname := "/v1/domains";
                   searchParams := []; hash := "" |};
     ctx_init :=
       {| init_method := "GET";
          init_headers := buildHeaders sample_platform (sample_client (answering sample_ok)) None;
          init_body := None |} |}.

(** An error interceptor that only observes, and one that throws. *)
Definition observing : ErrorInterceptor := fun _ => Ok VUndefined.

Definition throwing (t : thrown) : ErrorInterceptor := fun _ => Throw t.

Definition with_error_interceptors (l : list ErrorInterceptor) : InterceptorConfig :=
  {| on_request := None; on_response := None; on_error := Some l |}.

(** A body with a [BigInt] in it, which [JSON.stringify] refuses. *)
Definition bigint_body : Body :=
  BodyData (Throw (NativeError "TypeError" "Do not know how to serialize a BigInt")).

Definition options_with_body (b : Body) : RequestOptions :=
  {| query := None; o_headers := None; body := b; idempotent := None |}.

(** The query of the unit test, [{ page: 2, values: ['a', 'b'] }], and one
    whose second key is an array index, [{ b: 'x', 1: 'y' }]. *)
Definition sample_query : JsObject QueryValue :=
  [("page", QScalar (SInt 2)); ("values", QArray [Some (SStr "a"); Some (SStr "b")])].

Definition indexed_query : JsObject QueryValue :=
  [("b", QScalar (SStr "x")); ("1", QScalar (SStr "y"))].

(** * Further vocabulary *)

(** ** Response interceptors *)

(** A response interceptor's result leaves the response where it is: it
    returned nothing, or a context without a response. *)
Definition keeps_response (result : ResponseInterceptorResult) : Prop :=
  match result with
  | ReturnsResponse _ => False
  | ReturnsContext _ _ r => r = None
  | ReturnsNothing => True
  end.

(** A response interceptor that returns nothing, and one that substitutes
    a response of its own. *)
Definition passing : ResponseInterceptor := fun _ => Ok ReturnsNothing.

Definition substituting (r : Response) : ResponseInterceptor :=
  fun _ => Ok (ReturnsResponse r).

Definition with_response_interceptors (l : list ResponseInterceptor) : InterceptorConfig :=
  {| on_request := None; on_response := Some l; on_error := None |}.

(** [jsonResponse({ synthetic: true })]. *)
Definition synthetic : Response := jsonResponse 200 (JObj [("synthetic", JBool true)]) [].

(** A response that is plain text. *)
Definition textResponse (st : Z) (text : string) : Response :=
  {| resp_status := st; resp_headers := ∅;
     resp_json := Throw (NativeError "SyntaxError" "Unexpected token in JSON");
     resp_text := text |}.

(** * The resource methods *)

(** ** utils/schema.ts, continued *)

(** A value of unknown type, as far as [Array.isArray] tells: an array
    with its items, or any other value. *)
Inductive maybe_array (A : Type) : Type :=
| IsArray (items : list A)
| NotArray (v : jsval).

Arguments IsArray {A} items.
Arguments NotArray {A} v.

(** [Number.isNaN(n)]. *)
Definition isNaN (n : jsnum) : bool :=
  match n with NaN => true | _ => false end.

(** [assertArray(value, fieldName)]. *)
Definition assertArray {A : Type} (value : maybe_array A) (fieldName : string)
  : outcome (list A) :=
  match value with
  | IsArray items => Ok items
  | NotArray _ => validation_failure ("Expected array for '" ++ fieldName ++ "'.")
  end.

(** [assertPositiveNumber(value, fieldName)]. *)
Definition assertPositiveNumber (value : jsval) (fieldName : string) : outcome jsnum :=
  match value with
  | VNum n =>
      if negb (isFinite n) || num_le n (num_of_Z 0)
      then validation_failure ("Expected positive number for '" ++ fieldName ++ "'.")
      else Ok n
  | _ => validation_failure ("Expected positive number for '" ++ fieldName ++ "'.")
  end.

Section Dates.

(** [Date.parse] of the platform: the time value of a string, [NaN] when
    the string is not a date. *)
Variable Date_parse : string -> jsnum.

(** [assertIsoDate(value, fieldName)]. *)
Definition assertIsoDate (value : jsval) (fieldName : string) : outcome string :=
  match value with
  | VStr s =>
      if isNaN (Date_parse s)
      then validation_failure ("Expected ISO-8601 date string for '" ++ fieldName ++ "'.")
      else Ok s
  | _ => validation_failure ("Expected ISO-8601 date string for '" ++ fieldName ++ "'.")
  end.

(** [optionalIsoDate(value, fieldName)]. *)
Definition optionalIsoDate (value : jsval) (fieldName : string) : outcome unit :=
  if nullish value then Ok tt
  else _ ← assertIsoDate value fieldName; Ok tt.

(** ** resources/emails.ts *)

(** The fields of a [SendEmailRequest] that the SDK reads, and what
    [JSON.stringify] makes of the whole request. *)
Record SendEmailRequest : Type := {
  send_to : maybe_array jsval;
  send_from : jsval;
  send_subject : jsval;
  send_templateId : jsval;
  send_scheduledAt : jsval;
  send_json : outcome (option string)
}.

(** [items.forEach((item, index) => check(item, index))], from [index]
    on: the checks run in order and the first failure ends them. *)
Fixpoint forEach {A : Type} (check : A -> nat -> outcome unit) (index : nat)
  (items : list A) : outcome unit :=
  match items with
  | [] => Ok tt
  | item :: rest => _ ← check item index; forEach check (S index) rest
  end.

(** [validateSendRequest(request, prefix)]. *)
Definition validateSendRequest (request : SendEmailRequest) (prefix : string)
  : outcome unit :=
  _ ← match send_to request with
      | IsArray items =>
          _ ← assertArray (send_to request) (prefix ++ ".to");
          if (length items =? 0)%nat
          then validation_failure "`to` must contain at least one recipient."
          else forEach (fun recipient index =>
                          _ ← assertNonEmptyString recipient
                                (prefix ++ ".to[" ++ string_of_Z (Z.of_nat index) ++ "]");
                          Ok tt) 0 items
      | NotArray v => _ ← assertNonEmptyString v (prefix ++ ".to"); Ok tt
      end;
  _ ← assertNonEmptyString (send_from request) (prefix ++ ".from");
  if negb (truthy (send_subject request)) && negb (truthy (send_templateId request))
  then validation_failure "Either subject or templateId must be provided."
  else optionalIsoDate (send_scheduledAt request) (prefix ++ ".scheduledAt").

(** A call of a resource method that fails before the client is called
    leaves no log. *)
Definition then_request {A : Type} (checked : outcome A)
  (call : A -> option (outcome (option BodyValue) * list event))
  : option (outcome (option BodyValue) * list event) :=
  match checked with
  | Ok a => call a
  | Throw t => Some (Throw t, [])
  end.

(** [emails.send(request)] on a client with configuration [config]. *)
Definition emails_send (pf : Platform) (config : ResolvedClientConfig)
  (request_ : SendEmailRequest) (fuel : nat)
  : option (outcome (option BodyValue) * list event) :=
  then_request (validateSendRequest request_ "request")
    (fun _ =>
       request pf config POST "/v1/emails"
         {| query := None; o_headers := None; body := BodyData (send_json request_);
            idempotent := Some false |} fuel).

(** [emails.batch(requests)]; [payload_json] is what [JSON.stringify]
    makes of the array. *)
Definition emails_batch (pf : Platform) (config : ResolvedClientConfig)
  (requests : maybe_array SendEmailRequest) (payload_json : outcome (option string))
  (fuel : nat) : option (outcome (option BodyValue) * list event) :=
  then_request
    (payload ← assertArray requests "requests";
     forEach (fun request_ index =>
                validateSendRequest request_
                  ("requests[" ++ string_of_Z (Z.of_nat index) ++ "]")) 0 payload)
    (fun _ =>
       request pf config POST "/v1/emails/batch"
         {| query := None; o_headers := None; body := BodyData payload_json;
            idempotent := Some false |} fuel).

(** ** The vocabulary of the pre-flight checks *)

(** A string with something else than white space in it. *)
Definition non_blank_string (v : jsval) : Prop :=
  exists s, v = VStr s /\ trim s <> "".

(** A string that [Date.parse] reads as a date. *)
Definition date_string (v : jsval) : Prop :=
  exists s, v = VStr s /\ Date_parse s <> NaN.

(** What [validateSendRequest] asks of a request: one recipient that is a
    non-blank string, or a non-empty array of such; a sender that is a
    non-blank string; a subject or a template; and, when there is a
    schedule, a date string. *)
Definition acceptable_send_request (request : SendEmailRequest) : Prop :=
  match send_to request with
  | IsArray items => items <> [] /\ Forall non_blank_string items
  | NotArray v => non_blank_string v
  end
  /\ non_blank_string (send_from request)
  /\ (truthy (send_subject request) = true \/ truthy (send_templateId request) = true)
  /\ (nullish (send_scheduledAt request) = true \/ date_string (send_scheduledAt request)).

End Dates.

(** A [Date.parse] for the samples: it reads one timestamp. *)
Definition sample_Date_parse (s : string) : jsnum :=
  if String.eqb s "2030-01-01T00:00:00.000Z" then num_of_Z 1893456000000 else NaN.

(** A string between double quotes, as [JSON.stringify] writes it when
    nothing in it needs an escape. *)
Definition quoted (s : string) : string :=
  String (ascii_of_nat 34) s ++ String (ascii_of_nat 34) "".

(** A request to one recipient, with a subject, and its JSON text. *)
Definition sample_send_request : SendEmailRequest :=
  {| send_to := NotArray (VStr "user@example.com");
     send_from := VStr "noreply@example.com";
     send_subject := VStr "Welcome";
     send_templateId := VUndefined;
     send_scheduledAt := VUndefined;
     send_json :=
       Ok (Some ("{" ++ quoted "to" ++ ":" ++ quoted "user@example.com" ++ ","
                 ++ quoted "from" ++ ":" ++ quoted "noreply@example.com" ++ ","
                 ++ quoted "subject" ++ ":" ++ quoted "Welcome" ++ "}")) |}.

(** The same request without a sender. *)
Definition sample_send_request_without_sender : SendEmailRequest :=
  {| send_to := NotArray (VStr "user@example.com");
     send_from := VUndefined;
     send_subject := VStr "Welcome";
     send_templateId := VUndefined;
     send_scheduledAt := VUndefined;
     send_json :=
       Ok (Some ("{" ++ quoted "to" ++ ":" ++ quoted "user@example.com" ++ ","
                 ++ quoted "subject" ++ ":" ++ quoted "Welcome" ++ "}")) |}.

(** * Diagnostics *)

(** The [redact] closure of [logDebug]: the headers as the debug record
    shows them.  [headers.forEach] visits every name once, and the record
    is an object keyed by those names. *)
Definition redact (h : gmap string string) : gmap string string :=
  map_imap (fun key value =>
              Some (if String.eqb (lower key) "authorization" then "REDACTED" else value)) h.

(** * The attempt loop *)

(** The pause the loop of [request] takes after an attempt that threw and
    is retried. *)
Definition pause_after (config : ResolvedClientConfig) (r : outcome (option BodyValue))
  (attempt : nat) : list event :=
  match r with
  | Throw error => [delay (getRetryDelay config error attempt)]
  | Ok _ => []
  end.

(** * Paths the [pathname] setter leaves as they are *)

(** A byte the path state copies: no tab, newline or backslash, and not in
    the path percent-encode set. *)
Definition plain_byte (c : ascii) : bool :=
  negb (is_tab_or_newline c || is_backslash c || in_path_percent_encode_set c).

Definition dot_segment (segment : string) : bool :=
  single_dot segment || double_dot segment.

Definition plain_bytes (s : string) : bool :=
  forallb plain_byte (list_ascii_of_string s).

Definition no_dot_segment (l : list string) : bool :=
  forallb (fun segment => negb (dot_segment segment)) l.

(** A path of plain bytes without dot segments. *)
Definition plain_path (s : string) : bool :=
  plain_bytes s && no_dot_segment (segments s).

(** * Configurations with a given base address *)

Definition sample_config_at (base : jsval) : ClientConfig :=
  {| apiKey := VStr "test-key"; baseUrl := base;
     timeout := Some (num_of_Z 5000); maxRetries := Some (num_of_Z 1);
     retryDelayMs := Some (num_of_Z 500); fetch := FetchFunction (answering sample_ok);
     headers := None; interceptors := None; debug := VUndefined; userAgent := None |}.

(** * What the transport is handed *)

(** The request inits the transport was called with, in a log. *)
Definition requests_sent (log : list event) : list RequestInit :=
  omap (fun ev => match ev with TransportCalled _ _ i => Some i | _ => None end) log.

(** Names and values that [Headers.set] takes as they are: a name that is
    a token, and a value without [NUL], [CR] or [LF] that neither starts nor
    ends with a tab or a space.  On any other name or value [Headers.set]
    throws a [TypeError], or stores the value without the white space
    around it. *)
Definition is_token_byte (c : ascii) : bool :=
  let n := nat_of_ascii c in
  (is_digit c || ((65 <=? n) && (n <=? 90)) || ((97 <=? n) && (n <=? 122))
   || (n =? 33) || ((35 <=? n) && (n <=? 39)) || (n =? 42) || (n =? 43) || (n =? 45)
   || (n =? 46) || (n =? 94) || (n =? 95) || (n =? 96) || (n =? 124) || (n =? 126))%nat.

Definition header_name (k : string) : bool :=
  nonempty k && forallb is_token_byte (list_ascii_of_string k).

Definition is_tab_or_space (c : ascii) : bool :=
  let n := nat_of_ascii c in ((n =? 9) || (n =? 32))%nat.

Definition header_value (v : string) : bool :=
  let l := list_ascii_of_string v in
  forallb (fun c => let n := nat_of_ascii c in
                    negb ((n =? 0) || (n =? 10) || (n =? 13))%nat) l
  && match l with c :: _ => negb (is_tab_or_space c) | [] => true end
  && match rev l with c :: _ => negb (is_tab_or_space c) | [] => true end.

Definition header_entries (entries : JsObject string) : bool :=
  forallb (fun kv => header_name kv.1 && header_value kv.2) entries.

(** Every header [buildHeaders] sets is one [Headers.set] takes as it
    is. *)
Definition headers_taken_verbatim (config : ResolvedClientConfig)
  (overrides : option (JsObject string)) : bool :=
  header_entries (rc_headers config)
  && header_value ("Bearer " ++ rc_apiKey config)
  && header_value (default "" (rc_userAgent config))
  && header_entries (default [] overrides).

(** The value of a header [k] by precedence: the per-call overrides, else
    the forced headers, else the static extra headers, else the default. *)
Definition header_by_precedence (pf : Platform) (config : ResolvedClientConfig)
  (overrides : option (JsObject string)) (k : string) : option string :=
  or_else (named k (Object_entries (default [] overrides)))
    (or_else (forced_header pf config k)
       (or_else (named k (Object_entries (rc_headers config)))
          (named k (Object_entries DEFAULT_HEADERS)))).

(** The value of a header [k] in the headers [dispatch] builds before the
    request interceptors run: the precedence of [buildHeaders], and for the
    content type of a body encoded as JSON, [application/json] when that
    precedence gives none. *)
Definition built_header (pf : Platform) (config : ResolvedClientConfig)
  (options : RequestOptions) (k : string) : option string :=
  let by_precedence := header_by_precedence pf config (o_headers options) k in
  if decide (lower k = "content-type")
  then match body options with
       | BodyData _ => Some (default "application/json" by_precedence)
       | _ => by_precedence
       end
  else by_precedence.

(** A request interceptor that replaces the authorization header. *)
Definition intruding : RequestInterceptor :=
  fun context =>
    Ok (Some {| ctx_url := ctx_url context;
                ctx_init :=
                  {| init_method := init_method (ctx_init context);
                     init_headers := Headers_set "Authorization" "Basic intruder"
                                       (init_headers (ctx_init context));
                     init_body := init_body (ctx_init context) |} |}).

Definition with_request_interceptors (l : list RequestInterceptor) : InterceptorConfig :=
  {| on_request := Some l; on_response := None; on_error := None |}.

(** * The response interceptors in a run *)

(** The value of [nextContext] after an interceptor returned [result]. *)
Definition next_response_context (nextContext : ResponseContext)
  (result : ResponseInterceptorResult) : ResponseContext :=
  match result with
  | ReturnsResponse r =>
      {| rctx_url := rctx_url nextContext; rctx_init := rctx_init nextContext;
         rctx_response := r |}
  | ReturnsContext u i r =>
      {| rctx_url := u; rctx_init := i;
         rctx_response := default (rctx_response nextContext) r |}
  | ReturnsNothing => nextContext
  end.

(** The context the interceptor registered after those of [l] is handed
    in a run that starts from [context]; none when one of [l] throws. *)
Fixpoint response_context_after (l : list ResponseInterceptor) (context : ResponseContext)
  : option ResponseContext :=
  match l with
  | [] => Some context
  | interceptor :: rest =>
      match interceptor context with
      | Ok result => response_context_after rest (next_response_context context result)
      | Throw _ => None
      end
  end.

(** In the run that starts from [context], every interceptor of [l]
    returns, and returns nothing or a context without a response. *)
Fixpoint keep_response_in_run (l : list ResponseInterceptor) (context : ResponseContext)
  : Prop :=
  match l with
  | [] => True
  | interceptor :: rest =>
      exists result,
        interceptor context = Ok result
        /\ keeps_response result
        /\ keep_response_in_run rest (next_response_context context result)
  end.

(** The response interceptor of the unit test [runs interceptors in
    order]: it wraps the status of the response it is handed. *)
Definition wrapping : ResponseInterceptor :=
  fun context =>
    Ok (ReturnsResponse
          (jsonResponse (resp_status (rctx_response context))
             (JObj [("wrapped", JBool true)]) [])).

(** * Properties *)

(** ** Numbers and strings *)

Lemma num_lt_not_ge (a b : jsnum) : num_lt a b = true -> num_ge a b = false.
Proof.
  unfold num_ge. destruct a, b; simpl; try discriminate; try reflexivity.
  intros H. now apply negb_true_iff in H.
Qed.

Lemma num_lt_zero_iff (n : jsnum) :
  num_lt n (num_of_Z 0) = true <-> n = NegInf \/ exists q, n = Fin q /\ (q < 0)%Q.
Proof.
  destruct n as [| |q|]; simpl.
  - split; [discriminate|]. intros [H|(q & H & _)]; discriminate.
  - split; [now left|reflexivity].
  - rewrite negb_true_iff. split.
    + intros H. right. exists q. split; [reflexivity|].
      destruct (Qlt_le_dec q 0) as [Hq|Hq]; [exact Hq|].
      apply Qle_bool_iff in Hq. unfold inject_Z in H. congruence.
    + intros [H|(q' & H & Hq)]; [discriminate|]. injection H as <-.
      destruct (Qle_bool (inject_Z 0) q) eqn:E; [|reflexivity].
      apply Qle_bool_iff in E. unfold inject_Z in E. lra.
  - split; [discriminate|]. intros [H|(q & H & _)]; discriminate.
Qed.

Lemma num_le_zero_iff (d : jsnum) :
  num_le d (num_of_Z 0) = true <-> zero_or_negative d.
Proof.
  unfold zero_or_negative. destruct d as [| |q|]; simpl.
  - split; [discriminate|]. intros [H|(q & H & _)]; discriminate.
  - split; [now left|reflexivity].
  - rewrite Qle_bool_iff. unfold inject_Z. split.
    + intros H. right. now exists q.
    + intros [H|(q' & [= <-] & H)]; [discriminate|exact H].
  - split; [discriminate|]. intros [H|(q & H & _)]; discriminate.
Qed.

Lemma positive_finite_iff (t : jsnum) :
  negb (isFinite t) || num_le t (num_of_Z 0) = false
  <-> exists q, t = Fin q /\ (0 < q)%Q.
Proof.
  destruct t as [| |q|]; simpl.
  - split; [discriminate|]. intros (q & H & _); discriminate.
  - split; [discriminate|]. intros (q & H & _); discriminate.
  - split.
    + intros H. exists q. split; [reflexivity|].
      destruct (Qlt_le_dec 0 q) as [Hq|Hq]; [exact Hq|].
      apply Qle_bool_iff in Hq. unfold inject_Z in H. congruence.
    + intros (q' & H & Hq). injection H as <-.
      destruct (Qle_bool q (inject_Z 0)) eqn:E; [|reflexivity].
      apply Qle_bool_iff in E. unfold inject_Z in E. lra.
  - split; [discriminate|]. intros (q & H & _); discriminate.
Qed.

Lemma length_zero_iff (s : string) : (String.length s =? 0)%nat = true <-> s = "".
Proof. destruct s; simpl; split; intros H; try reflexivity; discriminate. Qed.

(** ** The error taxonomy *)

(** An explicit status is kept. *)
Lemma ValidationError_explicit_status (msg : string) (o : MailrifyErrorOptions) (s : jsnum) :
  opt_status o = Some s -> status (new_ValidationError msg o) = Some s.
Proof. intros H. unfold new_ValidationError, status_or. now rewrite H. Qed.

(** The class tests the retry policy relies on. *)
Lemma ValidationError_instanceof (msg : string) (o : MailrifyErrorOptions) :
  let e := Typed (new_ValidationError msg o) in
  instanceof e MailrifyErrorClass = true
  /\ instanceof e HTTPErrorClass = false
  /\ instanceof e RateLimitErrorClass = false.
Proof. repeat split. Qed.

Lemma inherits_Mailrify (c : ErrorClass) : inherits c MailrifyErrorClass = true.
Proof. destruct c; reflexivity. Qed.

(** ** The configuration resolver *)

Lemma credential_check (v : jsval) :
  negb (truthy v) || negb (is_string v)
  || match v with VStr s => (String.length (trim s) =? 0)%nat | _ => false end = true
  <-> credential_missing v.
Proof.
  unfold credential_missing. destruct v as [| |b|n|s|]; simpl;
    try (split; [intros _ s' H'; discriminate | reflexivity]);
    try (split; [intros _ s' H'; discriminate | intros _; now destruct_all bool]).
  - split; [intros _ s' H'; discriminate | intros _].
    now destruct (num_truthy n).
  - rewrite orb_false_r. split.
    + intros H s' [= <-]. apply orb_true_iff in H as [H|H].
      * apply negb_true_iff, negb_false_iff, String.eqb_eq in H. now subst.
      * now apply length_zero_iff.
    + intros H. apply orb_true_iff. right. apply length_zero_iff. now apply H.
Qed.

Lemma base_address_check (v : jsval) :
  truthy v && negb (is_string v) = true <-> base_address_not_a_string v.
Proof.
  unfold base_address_not_a_string. rewrite andb_true_iff, negb_true_iff.
  destruct v; simpl; split; intros [H1 H2]; try discriminate; try (split; congruence).
  exfalso. now eapply H2.
Qed.

Lemma timeout_check (t : option jsnum) :
  match t with
  | Some n => negb (isFinite n) || num_le n (num_of_Z 0)
  | None => false
  end = true <-> timeout_rejected t.
Proof.
  unfold timeout_rejected. destruct t as [n|].
  - destruct (negb (isFinite n) || num_le n (num_of_Z 0)) eqn:E.
    + split; [|reflexivity]. intros _. exists n. split; [reflexivity|].
      intros H. apply positive_finite_iff in H. congruence.
    + split; [discriminate|]. intros (n' & [= <-] & H).
      exfalso. apply H. now apply positive_finite_iff.
  - split; [discriminate|]. intros (n & H & _). discriminate.
Qed.

Lemma negative_check (o : option jsnum) :
  match o with
  | Some n => num_lt n (num_of_Z 0)
  | None => false
  end = true <-> negative o.
Proof.
  unfold negative. destruct o as [n|].
  - rewrite num_lt_zero_iff. split.
    + intros H. exists n. split; [reflexivity|exact H].
    + now intros (n' & [= <-] & H).
  - split; [discriminate|]. intros (n & H & _). discriminate.
Qed.

(** [validateConfig] refuses exactly the invalid configurations, always
    with a [ValidationError], and hands a valid one back unchanged. *)
Lemma validateConfig_spec (config : option ClientConfig) :
  (invalid config /\ exists t, validateConfig config = Throw t /\ is_ValidationError t)
  \/ (~ invalid config /\ exists c, config = Some c /\ validateConfig config = Ok c).
Proof.
  assert (Hfail : forall msg, exists t : thrown,
             @validation_failure ClientConfig msg = Throw t /\ is_ValidationError t).
  { intros msg. eexists. split; [reflexivity|]. eexists. split; reflexivity. }
  destruct config as [c|]; [|left; split; [exact I|apply Hfail]].
  unfold validateConfig, invalid.
  pose proof (credential_check (apiKey c)) as H1.
  pose proof (base_address_check (baseUrl c)) as H2.
  pose proof (timeout_check (timeout c)) as H3.
  pose proof (negative_check (maxRetries c)) as H4.
  pose proof (negative_check (retryDelayMs c)) as H5.
  destruct (negb (truthy (apiKey c)) || _ || _) eqn:E1;
    [left; split; [left; now apply H1|apply Hfail]|].
  destruct (truthy (baseUrl c) && _) eqn:E2;
    [left; split; [right; left; now apply H2|apply Hfail]|].
  destruct (match timeout c with Some _ => _ | None => _ end) eqn:E3;
    [left; split; [do 2 right; left; now apply H3|apply Hfail]|].
  destruct (match maxRetries c with Some _ => _ | None => _ end) eqn:E4;
    [left; split; [do 3 right; left; now apply H4|apply Hfail]|].
  destruct (match retryDelayMs c with Some _ => _ | None => _ end) eqn:E5;
    [left; split; [do 4 right; now apply H5|apply Hfail]|].
  right. split; [|exists c; split; reflexivity].
  intros [H|[H|[H|[H|H]]]];
    [apply H1 in H|apply H2 in H|apply H3 in H|apply H4 in H|apply H5 in H];
    discriminate.
Qed.

(** What the constructor refuses, and with what.  It throws a
    [ValidationError] exactly when the configuration is not an object, the
    credential is missing or blank, the base address is truthy and not a
    string, the timeout is present and not a finite positive number, the
    retry count is negative or the backoff delay is negative.  A
    configuration that passes these checks and whose base address is a
    string or absent fails at construction, with a plain [Error] that is
    not a [ValidationError], when no transport function is available, and
    resolves with the transport function found otherwise. *)
Theorem resolution_failures (pf : Platform) (config : option ClientConfig) :
  (invalid config <->
   exists t, new_HttpClient pf config = Throw t /\ is_ValidationError t)
  /\ (forall c, config = Some c -> ~ invalid config ->
      nullish (baseUrl c) = true \/ is_string (baseUrl c) = true ->
      match transport_available (globalThis_fetch pf) c with
      | None =>
          new_HttpClient pf config = Throw fetch_required
          /\ ~ is_ValidationError fetch_required
      | Some f =>
          exists rc, new_HttpClient pf config = Ok rc /\ rc_fetch rc = f
      end).
Proof.
  unfold new_HttpClient, resolveConfig.
  destruct (validateConfig_spec config)
    as [(Hinv & t & Ht & Hval)|(Hok & c & -> & Hc)].
  - rewrite Ht. split.
    + split; [intros _; now exists t|intros _; exact Hinv].
    + intros c _ Hn. contradiction.
  - rewrite Hc. split.
    + split; [contradiction|]. intros (t & Ht & e & -> & He). exfalso. revert Ht.
      simpl. destruct (baseUrl c); simpl; try discriminate;
        (destruct (fetch c) as [f|v]; [discriminate|]);
        (destruct (nullish v); [destruct (globalThis_fetch pf)|]; discriminate).
    + intros c' [= <-] _ Hbase. unfold transport_available. simpl.
      assert (Hnot : ~ is_ValidationError fetch_required).
      { intros (e & He & _). discriminate. }
      destruct (baseUrl c); simpl in Hbase |- *;
        try (destruct Hbase; discriminate);
        (destruct (fetch c) as [f|v];
         [eexists; split; reflexivity|]);
        (destruct (nullish v);
         [destruct (globalThis_fetch pf); [eexists; split; reflexivity|]|]);
        (split; [reflexivity|exact Hnot]).
Qed.

(** *** Pre-flight validation *)

(** Claim C10.  A [ValidationError] constructed without an explicit status
    carries status 400, whatever its message and its other options; this
    is the status of every failure that [validateConfig] and the pre-flight
    check [assertNonEmptyString] raise, before any network call. *)
Theorem ValidationError_default_status (msg : string) (o : MailrifyErrorOptions) :
  opt_status o = None ->
  (status (new_ValidationError msg o) = Some (num_of_Z 400)
   /\ class (new_ValidationError msg o) = ValidationErrorClass)
  /\ (forall config t, validateConfig config = Throw t ->
      exists e, t = Typed e /\ class e = ValidationErrorClass
                /\ status e = Some (num_of_Z 400))
  /\ (forall value fieldName t, assertNonEmptyString value fieldName = Throw t ->
      exists e, t = Typed e /\ class e = ValidationErrorClass
                /\ status e = Some (num_of_Z 400)).
Proof.
  intros H.
  assert (Hfail : forall (A : Type) m t, @validation_failure A m = Throw t ->
            exists e, t = Typed e /\ class e = ValidationErrorClass
                      /\ status e = Some (num_of_Z 400)).
  { intros A m t [= <-]. eexists. repeat split. }
  split; [|split].
  - unfold new_ValidationError, status_or. rewrite H. split; reflexivity.
  - intros [c|] t; [|apply Hfail]. unfold validateConfig.
    repeat (match goal with
            | |- (if ?b then _ else _) = _ -> _ => destruct b; [apply Hfail|]
            end).
    discriminate.
  - intros value fieldName t. unfold assertNonEmptyString.
    destruct value; try apply Hfail.
    destruct (_ =? _)%nat; [apply Hfail|discriminate].
Qed.

Lemma ValidationError_default_status_witness :
  opt_status no_options = None
  /\ status (new_ValidationError "Expected array for 'to'." no_options) = Some (num_of_Z 400).
Proof.
  split; [reflexivity|].
  exact (proj1 (proj1 (ValidationError_default_status "Expected array for 'to'."
                         no_options eq_refl))).
Defined.

Lemma sample_config_valid (f : fetch_slot) : ~ invalid (Some (sample_config f)).
Proof.
  destruct (validateConfig_spec (Some (sample_config f)))
    as [(_ & t & Ht & _)|(H & _)]; [discriminate|exact H].
Qed.

Lemma resolution_failures_witness :
  new_HttpClient sample_platform (Some (sample_config (FetchValue VNull)))
  = Throw fetch_required.
Proof.
  pose proof (proj2 (resolution_failures sample_platform
                       (Some (sample_config (FetchValue VNull))))
                _ eq_refl (sample_config_valid _) (or_intror eq_refl)) as H.
  exact (proj1 H).
Defined.

(** Without any transport function the constructor throws, yet what it
    throws is no [ValidationError]. *)
Lemma transport_missing_is_not_a_ValidationError :
  transport_available (globalThis_fetch sample_platform)
    (sample_config (FetchValue VUndefined)) = None
  /\ ~ exists t,
        new_HttpClient sample_platform (Some (sample_config (FetchValue VUndefined)))
        = Throw t /\ is_ValidationError t.
Proof.
  split; [reflexivity|].
  intros (t & Ht & e & -> & _). discriminate.
Qed.

(** Claim C4, at the inputs where the code departs from it.  A base
    address that is present, is not a string and is falsy ([0], [false],
    [NaN]) passes [validateConfig], whose guard tests the truthiness of the
    value although its message reads [baseUrl must be a string when
    provided]; the constructor then fails in [.replace] with a [TypeError],
    which is no [ValidationError].  A truthy base address that is not a
    string is refused with a [ValidationError], as the claim says.  A
    missing transport function is reported with a plain [Error]. *)
Theorem falsy_base_address_is_not_refused :
  let crash := NativeError "TypeError" "config.baseUrl?.replace is not a function" in
  validateConfig (Some (sample_config_at (VNum (num_of_Z 0))))
  = Ok (sample_config_at (VNum (num_of_Z 0)))
  /\ new_HttpClient sample_platform (Some (sample_config_at (VNum (num_of_Z 0))))
     = Throw crash
  /\ new_HttpClient sample_platform (Some (sample_config_at (VBool false))) = Throw crash
  /\ new_HttpClient sample_platform (Some (sample_config_at (VNum NaN))) = Throw crash
  /\ ~ is_ValidationError crash
  /\ (exists t,
        new_HttpClient sample_platform (Some (sample_config_at (VNum (num_of_Z 1))))
        = Throw t
        /\ is_ValidationError t)
  /\ new_HttpClient sample_platform (Some (sample_config (FetchValue VUndefined)))
     = Throw fetch_required
  /\ ~ is_ValidationError fetch_required.
Proof.
  intros crash. repeat split.
  - intros (e & He & _). discriminate He.
  - eexists. split; [reflexivity|]. eexists. split; reflexivity.
  - intros (e & He & _). discriminate He.
Qed.

(** ** The retry policy *)

Lemma num_le_nat (a n : nat) :
  num_le (num_of_nat a) (num_of_nat n) = true <-> (a <= n)%nat.
Proof.
  unfold num_of_nat, num_of_Z. simpl. rewrite Qle_bool_iff, <- Zle_Qle. lia.
Qed.

Lemma status_at_least_500_iff (error : thrown) :
  status_at_least_500 error = true
  <-> exists e s, error = Typed e /\ status e = Some s /\ num_le (num_of_Z 500) s = true.
Proof.
  unfold status_at_least_500, num_ge. split.
  - destruct error as [e| |]; try discriminate.
    destruct (status e) as [s|] eqn:E; [|discriminate].
    intros H. now exists e, s.
  - intros (e & s & -> & Hs & H). now rewrite Hs.
Qed.

Lemma isIdempotent_iff (method : HttpMethod) (options : RequestOptions) :
  isIdempotent method options = true <-> idempotent_call method options.
Proof.
  unfold isIdempotent, idempotent_call. destruct (idempotent options) as [b|]; simpl.
  - reflexivity.
  - destruct method; split; intros H; try reflexivity; try discriminate;
      try (now left); try (now right); destruct H; discriminate.
Qed.

Lemma num_lt_le (a b : jsnum) : num_lt a b = true -> num_le a b = true.
Proof.
  destruct a as [| |x|], b as [| |y|]; simpl; try discriminate; try reflexivity.
  rewrite negb_true_iff. intros H. apply Qle_bool_iff.
  destruct (Qlt_le_dec x y) as [Hlt|Hle]; [now apply Qlt_le_weak|].
  apply Qle_bool_iff in Hle. congruence.
Qed.

Section AttemptLoop.

Variables (config : ResolvedClientConfig) (method : HttpMethod)
  (options : RequestOptions) (run : nat -> outcome (option BodyValue) * list event).

(** One turn of the attempt loop, for an attempt the loop admits. *)
Lemma request_loop_unfold (fuel attempt : nat) (lastError : option thrown) :
  num_le (num_of_nat attempt) (retry_budget config options) = true ->
  request_loop config method options run (S fuel) attempt lastError =
  match run attempt with
  | (Ok v, log) => Some (Ok v, log)
  | (Throw error, log) =>
      if shouldRetry method error options attempt (retry_budget config options)
      then
        match request_loop config method options run fuel (S attempt) (Some error) with
        | Some (r', log') =>
            Some (r', (log ++ delay (getRetryDelay config error attempt) :: log')%list)
        | None => None
        end
      else Some (Throw error, log)
  end.
Proof.
  intros H. cbn [request_loop]. rewrite H.
  destruct (run attempt) as [[v|error] log]; [reflexivity|].
  now destruct (shouldRetry _ _ _ _ _).
Qed.

(** Once the attempt index is past the budget the loop is left, and the
    statement after it throws. *)
Lemma request_loop_exit (fuel attempt : nat) (lastError : option thrown) :
  num_le (num_of_nat attempt) (retry_budget config options) = false ->
  request_loop config method options run fuel attempt lastError =
  Some (Throw (after_loop lastError), []).
Proof. intros H. destruct fuel; cbn [request_loop]; now rewrite H. Qed.

Lemma shouldRetry_below (error : thrown) (attempt : nat) (budget : jsnum) :
  shouldRetry method error options attempt budget = true ->
  num_ge (num_of_nat attempt) budget = false.
Proof. unfold shouldRetry. now destruct (num_ge _ _). Qed.

(** With a budget that is a count, the loop ends within [budget + 1]
    attempts, and what the call settles to is what its last attempt settled
    to: the statement after the loop is never reached. *)
Lemma request_loop_counted_budget (n : nat) :
  retry_budget config options = num_of_nat n ->
  forall fuel attempt lastError,
    (attempt <= n)%nat -> (n < attempt + fuel)%nat ->
    exists k r log0 logk,
      (attempt <= k <= n)%nat
      /\ run k = (r, logk)
      /\ request_loop config method options run fuel attempt lastError
         = Some (r, (log0 ++ logk)%list)
      /\ (forall error, r = Throw error ->
            k = n \/ shouldRetry method error options k (num_of_nat n) = false).
Proof.
  intros Hbudget. induction fuel as [|fuel IH]; intros attempt lastError Hle Hfuel;
    [lia|].
  rewrite request_loop_unfold by (rewrite Hbudget; now apply num_le_nat).
  destruct (run attempt) as [[v|error] log] eqn:Hrun.
  - exists attempt, (Ok v), [], log. repeat split; try lia; try assumption.
    intros error H. discriminate.
  - rewrite Hbudget.
    destruct (shouldRetry method error options attempt (num_of_nat n)) eqn:Hretry.
    + assert (Hlt : (attempt < n)%nat).
      { apply shouldRetry_below in Hretry. unfold num_ge in Hretry.
        destruct (Nat.le_gt_cases n attempt) as [H|H]; [|exact H].
        apply num_le_nat in H. congruence. }
      destruct (IH (S attempt) (Some error)) as (k & r & log0 & logk & Hk & Hrk & Hloop & Hlast);
        [lia|lia|].
      exists k, r, (log ++ delay (getRetryDelay config error attempt) :: log0)%list, logk.
      rewrite Hloop. repeat split; try lia; try assumption.
      now rewrite <- app_assoc.
    + exists attempt, (Throw error), [], log. repeat split; try lia; try assumption.
      intros error' [= <-]. now right.
Qed.

End AttemptLoop.

(** The decision [shouldRetry] takes once the attempt index is below the
    budget. *)
Lemma shouldRetry_below_budget (method : HttpMethod) (error : thrown)
  (options : RequestOptions) (attempt : nat) (budget : jsnum) :
  num_lt (num_of_nat attempt) budget = true ->
  (shouldRetry method error options attempt budget = true
   <-> idempotent_call method options /\ retryable_error error).
Proof.
  intros Hlt. unfold shouldRetry. rewrite (num_lt_not_ge _ _ Hlt).
  rewrite <- isIdempotent_iff. unfold retryable_error.
  rewrite <- status_at_least_500_iff.
  destruct (isIdempotent method options); simpl;
    [|split; [discriminate|intros [H _]; discriminate]].
  destruct error as [e| |]; simpl; try (split; [intros _; split; auto|reflexivity]).
  destruct (inherits (class e) RateLimitErrorClass) eqn:ERL;
    [split; [intros _; split; auto|reflexivity]|].
  destruct (inherits (class e) HTTPErrorClass) eqn:EH.
  - split.
    + intros H. split; [reflexivity|]. right. left. now split.
    + intros [_ [H|[[_ H]|H]]]; [discriminate|exact H|].
      now rewrite inherits_Mailrify in H.
  - rewrite inherits_Mailrify. split; [discriminate|].
    intros [_ [H|[[H _]|H]]]; discriminate.
Qed.



(** Claim C3, as amended.  The delay before the next attempt is the
    retry-after value a [RateLimitError] carries whenever that value is
    present and truthy (neither 0 nor [NaN]), and the base delay times two
    to the power of the attempt index otherwise; a delay that is zero or
    negative resolves at once, any other one suspends; and in the attempt
    loop that delay stands between a retried attempt and the next one. *)
Theorem retry_delay (config : ResolvedClientConfig) (error : thrown) (attempt : nat) :
  (forall ms, carried_retry_after error = Some ms -> num_truthy ms = true ->
     getRetryDelay config error attempt = ms)
  /\ ((forall ms, carried_retry_after error = Some ms -> num_truthy ms = false) ->
      getRetryDelay config error attempt = exponential_backoff config attempt)
  /\ (forall d, (zero_or_negative d -> delay d = NoSleep d)
                 /\ (~ zero_or_negative d -> delay d = Slept d))
  /\ (forall method options run fuel lastError log,
        num_le (num_of_nat attempt) (retry_budget config options) = true ->
        run attempt = (Throw error, log) ->
        shouldRetry method error options attempt (retry_budget config options) = true ->
        forall r log',
          request_loop config method options run fuel (S attempt) (Some error)
          = Some (r, log') ->
          request_loop config method options run (S fuel) attempt lastError
          = Some (r, (log ++ delay (getRetryDelay config error attempt) :: log')%list)).
Proof.
  split; [|split; [|split]].
  - intros ms. unfold carried_retry_after, getRetryDelay.
    destruct error as [e| |]; try discriminate.
    destruct (inherits (class e) RateLimitErrorClass); [|discriminate].
    intros -> H. now rewrite H.
  - unfold carried_retry_after, getRetryDelay, exponential_backoff.
    destruct error as [e| |]; try reflexivity.
    destruct (inherits (class e) RateLimitErrorClass); [|reflexivity].
    destruct (retryAfter e) as [ms|]; [|reflexivity].
    intros H. now rewrite (H ms eq_refl).
  - intros d. unfold delay. rewrite <- num_le_zero_iff.
    destruct (num_le d (num_of_Z 0)); split; intros H; try reflexivity;
      [now elim H|discriminate].
  - intros method options run fuel lastError log Hle Hrun Hretry r log' Hnext.
    rewrite request_loop_unfold by exact Hle. now rewrite Hrun, Hretry, Hnext.
Qed.

Lemma retry_delay_witness :
  let config := sample_resolved (failing (NonError VNull)) (num_of_Z 1) no_interceptors in
  let error :=
    Typed (new_RateLimitError "Slow down" no_options) in
  getRetryDelay config error 2 = exponential_backoff config 2.
Proof.
  refine (proj1 (proj2 (retry_delay _ _ 2)) _).
  intros ms H. discriminate H.
Defined.

(** The claim as stated fails: a response [429] with [retry-after: 0]
    gives a [RateLimitError] whose retry-after value is present and equal
    to 0, and the delay before the next attempt is then the backoff, 1000
    ms after the second attempt, not 0.  A GET that keeps receiving this
    response with a budget of two retries sleeps 500 ms and then 1000 ms
    between its three attempts. *)
Lemma zero_retry_after_is_not_used :
  let busy := jsonResponse 429 (JObj []) [("retry-after", "0")] in
  let config := sample_resolved (answering busy) (num_of_Z 2) no_interceptors in
  let e := buildError busy sample_context in
  class e = RateLimitErrorClass
  /\ retryAfter e = Some (num_of_Z 0)
  /\ getRetryDelay config (Typed e) 1 = num_of_Z 1000
  /\ getRetryDelay config (Typed e) 1 <> num_of_Z 0
  /\ let result := request sample_platform config GET "/v1/domains" default_options 3 in
     transport_calls (log_of result) = [0; 1; 2]%nat
     /\ pauses (log_of result) = [Slept (num_of_Z 500); Slept (num_of_Z 1000)].
Proof.
  repeat split; try (vm_compute; reflexivity).
  vm_compute. discriminate.
Qed.

(** ** The attempt loop *)

(** The same for [request]: with a counted budget and enough fuel the call
    settles to what one of its attempts settled to. *)
Lemma request_counted_budget (pf : Platform) (config : ResolvedClientConfig)
  (method : HttpMethod) (path : string) (options : RequestOptions) (n : nat) :
  retry_budget config options = num_of_nat n ->
  exists k r log0 logk,
    (k <= n)%nat
    /\ dispatch pf config method path options k = (r, logk)
    /\ request pf config method path options (S n) = Some (r, (log0 ++ logk)%list).
Proof.
  intros Hbudget.
  destruct (request_loop_counted_budget config method options
              (dispatch pf config method path options) n Hbudget (S n) 0 None)
    as (k & r & log0 & logk & Hk & Hrun & Hloop & _); [lia|lia|].
  exists k, r, log0, logk. repeat split; [lia|exact Hrun|exact Hloop].
Qed.

(** The unit tests of the retry loop: an idempotent GET is tried again
    after a transport failure and returns the decoded body of the second
    attempt; a POST is not.  The backoff of 500 ms precedes the retry. *)
Example retry_unit_tests :
  let down := NativeError "TypeError" "network down" in
  let config := sample_client (flaky down sample_ok) in
  let get := request sample_platform config GET "/v1/domains" default_options 2 in
  let post := request sample_platform config POST "/v1/domains" default_options 2 in
  outcome_of get = Some (Ok (Some (FromJson (JObj [("ok", JBool true)]))))
  /\ transport_calls (log_of get) = [0; 1]%nat
  /\ pauses (log_of get) = [Slept (num_of_Z 500)]
  /\ outcome_of post = Some (Throw down)
  /\ transport_calls (log_of post) = [0%nat].
Proof. repeat split. Qed.

(** Claim C9, at the inputs where the code departs from it.  [NaN] and
    one half pass [validateConfig] as retry counts.  With [NaN] the loop
    runs no attempt and the call fails with a fresh
    [MailrifyError('Unknown request failure')] without the transport being
    called.  With one half, a GET whose transport throws a value that is
    not an [Error] is attempted once, [shouldRetry] approves a retry, the
    loop is then left, and the caller receives the wrapping
    [MailrifyError] instead of the value the attempt threw. *)
Theorem request_with_uncounted_budget :
  (exists rc,
      new_HttpClient sample_platform
        (Some (sample_config_with (FetchFunction (failing (NonError (VStr "boom"))))
                 (Some NaN))) = Ok rc
      /\ r_maxRetries (rc_retry rc) = NaN
      /\ forall fuel,
          request sample_platform rc GET "/v1/domains" default_options fuel
          = Some (Throw (after_loop None), []))
  /\ (exists rc,
      new_HttpClient sample_platform
        (Some (sample_config_with (FetchFunction (failing (NonError (VStr "boom"))))
                 (Some (Fin (1 # 2))))) = Ok rc
      /\ dispatch sample_platform rc GET "/v1/domains" default_options 0
         = (Throw (NonError (VStr "boom")),
            snd (dispatch sample_platform rc GET "/v1/domains" default_options 0))
      /\ exists log,
          request sample_platform rc GET "/v1/domains" default_options 1
          = Some (Throw (after_loop (Some (NonError (VStr "boom")))), log)
          /\ transport_calls log = [0%nat]
          /\ after_loop (Some (NonError (VStr "boom"))) <> NonError (VStr "boom")).
Proof.
  split.
  - eexists. split; [reflexivity|]. split; [reflexivity|].
    intros fuel. unfold request. now apply request_loop_exit.
  - eexists. split; [reflexivity|]. split; [reflexivity|].
    eexists. split; [vm_compute; reflexivity|]. split; [reflexivity|].
    discriminate.
Qed.

(** ** Error classification *)

(** What [parseInt] returns: an integer or [NaN]. *)
Lemma parseInt_range (s : string) : parseInt s = NaN \/ exists n, parseInt s = num_of_Z n.
Proof.
  unfold parseInt. destruct (drop_spaces (list_ascii_of_string s)) as [|c t].
  - now left.
  - assert (H : forall l,
               match match l with
                     | [] => None
                     | c0 :: _ => if is_digit c0 then Some (digits_value 0 l) else None
                     end with
               | Some n => num_of_Z n
               | None => NaN
               end = NaN
               \/ exists n,
                   match match l with
                         | [] => None
                         | c0 :: _ => if is_digit c0 then Some (digits_value 0 l) else None
                         end with
                   | Some n => num_of_Z n
                   | None => NaN
                   end = num_of_Z n).
    { intros [|c0 l]; [now left|]. destruct (is_digit c0); [right; eauto|now left]. }
    assert (H' : forall l,
               match match l with
                     | [] => None
                     | c0 :: _ => if is_digit c0 then Some (digits_value 0 l) else None
                     end with
               | Some n => num_of_Z (- n)
               | None => NaN
               end = NaN
               \/ exists n,
                   match match l with
                         | [] => None
                         | c0 :: _ => if is_digit c0 then Some (digits_value 0 l) else None
                         end with
                   | Some n => num_of_Z (- n)
                   | None => NaN
                   end = num_of_Z n).
    { intros [|c0 l]; [now left|]. destruct (is_digit c0); [right; eauto|now left]. }
    destruct c as [[] [] [] [] [] [] [] []]; try apply (H (_ :: t)); try apply H; apply H'.
Qed.

(** The classification of a response that is not [ok], in the order
    [buildError] tests the status. *)
Lemma buildError_classification (r : Response) (context : RequestContext) :
  let payload := safeParseError r in
  let told := or_else (string_member "message" payload) (string_member "error" payload) in
  let e := buildError r context in
  status e = Some (num_of_Z (resp_status r))
  /\ (resp_status r = 401%Z \/ resp_status r = 403%Z ->
      class e = AuthErrorClass
      /\ message e = default "Unauthorized request." told)
  /\ (resp_status r = 429%Z ->
      class e = RateLimitErrorClass
      /\ retryAfter e =
         match Headers_get "retry-after" (resp_headers r) with
         | Some h => if nonempty h then Some (num_mul (parseInt h) (num_of_Z 1000)) else None
         | None => None
         end)
  /\ (resp_status r <> 401%Z -> resp_status r <> 403%Z -> resp_status r <> 429%Z ->
      class e = HTTPErrorClass
      /\ message e =
         default ("Request to " ++ pathname (ctx_url context) ++ " failed with status "
                  ++ string_of_Z (resp_status r) ++ ".") told).
Proof.
  intros payload told e. unfold e, buildError. fold payload. fold told.
  destruct (resp_status r =? 401)%Z eqn:E1; [apply Z.eqb_eq in E1|apply Z.eqb_neq in E1];
    (destruct (resp_status r =? 403)%Z eqn:E3; [apply Z.eqb_eq in E3|apply Z.eqb_neq in E3]);
    (destruct (resp_status r =? 429)%Z eqn:E9; [apply Z.eqb_eq in E9|apply Z.eqb_neq in E9]);
    simpl; repeat split; intros; try reflexivity; try lia; try (destruct H; lia).
Qed.

(** Every error [buildError] makes is an [HTTPError]. *)
Lemma buildError_is_HTTPError (r : Response) (context : RequestContext) :
  instanceof (Typed (buildError r context)) HTTPErrorClass = true.
Proof.
  unfold buildError.
  destruct ((resp_status r =? 401)%Z || (resp_status r =? 403)%Z); [reflexivity|].
  now destruct (resp_status r =? 429)%Z.
Qed.

(** The retry-after value of a 429 read off the header: absent without a
    header or with an empty one, a number of milliseconds when the header
    starts with an integer, and [NaN] for any other header. *)
Lemma retryAfter_cases (r : Response) (context : RequestContext) :
  resp_status r = 429%Z ->
  match Headers_get "retry-after" (resp_headers r) with
  | None => retryAfter (buildError r context) = None
  | Some h =>
      (h = "" /\ retryAfter (buildError r context) = None)
      \/ (exists n, parseInt h = num_of_Z n
                    /\ retryAfter (buildError r context) = Some (num_of_Z (n * 1000)))
      \/ (h <> "" /\ parseInt h = NaN /\ retryAfter (buildError r context) = Some NaN)
  end.
Proof.
  intros H429.
  destruct (buildError_classification r context) as (_ & _ & H & _).
  destruct (H H429) as [_ ->].
  destruct (Headers_get "retry-after" (resp_headers r)) as [h|]; [|reflexivity].
  destruct h as [|c h']; [left; now split|]. simpl.
  destruct (parseInt_range (String c h')) as [HN|(n & Hn)].
  - right. right. rewrite HN. repeat split. discriminate.
  - right. left. exists n. rewrite Hn. split; reflexivity.
Qed.

(** Claim C2, at an input where the code departs from it.  A 429 whose
    [retry-after] header is an HTTP date, which is not numeric, is
    classified as a [RateLimitError], but its retry-after value is not
    absent: it is [NaN]. *)
Theorem retry_after_of_a_date_header :
  let r := jsonResponse 429 (JObj [("message", JStr "Slow down")])
             [("retry-after", "Wed, 21 Oct 2015 07:28:00 GMT")] in
  let e := buildError r sample_context in
  ok r = false
  /\ class e = RateLimitErrorClass
  /\ message e = "Slow down"
  /\ retryAfter e = Some NaN
  /\ retryAfter e <> None.
Proof. repeat split. discriminate. Qed.

(** The cases the unit tests cover: 401 gives an [AuthError], and
    [retry-after: 2] gives 2000 ms. *)
Example buildError_unit_tests :
  class (buildError (jsonResponse 401 (JObj [("message", JStr "Invalid token");
                                              ("code", JStr "invalid_auth")]) [])
           sample_context) = AuthErrorClass
  /\ retryAfter (buildError (jsonResponse 429 (JObj [("message", JStr "Slow down")])
                               [("retry-after", "2")]) sample_context)
     = Some (num_of_Z 2000)
  /\ message (buildError (jsonResponse 502 JNull []) sample_context)
     = "Request to /v1/domains failed with status 502.".
Proof. repeat split. Qed.

(** ** The catch clause *)

Lemma runErrorInterceptors_from_spec (l : list ErrorInterceptor) (index : nat)
  (context : RequestContext) (error : thrown) :
  let given := {| ectx_url := ctx_url context; ectx_init := ctx_init context;
                  ectx_error := error |} in
  match first_throwing index l given with
  | None =>
      runErrorInterceptors_from index l context error
      = (Ok tt, error_interceptors_ran index (length l) given)
  | Some (i, t) =>
      (index <= i)%nat
      /\ runErrorInterceptors_from index l context error
         = (Throw t, error_interceptors_ran index (S (i - index)) given)
  end.
Proof.
  intros given. revert index.
  induction l as [|interceptor rest IH]; intros index; [reflexivity|].
  cbn [first_throwing runErrorInterceptors_from]. fold given.
  destruct (interceptor given) as [v|t].
  - specialize (IH (S index)).
    destruct (first_throwing (S index) rest given) as [[i t]|].
    + destruct IH as [Hle ->]. split; [lia|].
      replace (S (i - index)) with (S (S (i - S index))) by lia. reflexivity.
    + now rewrite IH.
  - split; [lia|]. now rewrite Nat.sub_diag.
Qed.

Lemma first_throwing_none (l : list ErrorInterceptor) (index : nat) (given : ErrorContext) :
  (forall interceptor, In interceptor l -> exists v, interceptor given = Ok v) ->
  first_throwing index l given = None.
Proof.
  revert index. induction l as [|interceptor rest IH]; intros index H; [reflexivity|].
  cbn [first_throwing]. destruct (H interceptor (or_introl eq_refl)) as [v ->].
  apply IH. intros i Hi. apply H. now right.
Qed.

(** What leaves the [catch] clause: the error it caught, unless an error
    interceptor throws. *)
Lemma dispatch_catch_spec (config : ResolvedClientConfig) (context : RequestContext)
  (error : thrown) :
  let registered := default [] (on_error (rc_interceptors config)) in
  let given := {| ectx_url := ctx_url context; ectx_init := ctx_init context;
                  ectx_error := error |} in
  dispatch_catch config context error
  = match first_throwing 0 registered given with
    | None => (error, error_interceptors_ran 0 (length registered) given)
    | Some (i, t) => (t, error_interceptors_ran 0 (S i) given)
    end.
Proof.
  intros registered given. unfold dispatch_catch, runErrorInterceptors. fold registered.
  pose proof (runErrorInterceptors_from_spec registered 0 context error) as Hrun.
  cbv zeta in Hrun. fold given in Hrun.
  destruct (first_throwing 0 registered given) as [[i t]|].
  - destruct Hrun as [_ ->]. now rewrite Nat.sub_0_r.
  - now rewrite Hrun.
Qed.

(** ** The final response *)

Lemma append_nil (s : string) : "" ++ s = s.
Proof. reflexivity. Qed.

Lemma append_cons (c : ascii) (a b : string) : String c a ++ b = String c (a ++ b).
Proof. reflexivity. Qed.

Lemma prefix_iff (p s : string) : String.prefix p s = true <-> exists post, s = p ++ post.
Proof.
  revert s. induction p as [|a p IH]; intros s.
  - split; [intros _; now exists s|]. intros _. now destruct s.
  - destruct s as [|b s]; simpl.
    + split; [discriminate|]. intros (post & H). rewrite append_cons in H. discriminate.
    + destruct (ascii_dec a b) as [->|Hne].
      * rewrite IH. split; intros (post & H); exists post.
        -- rewrite append_cons. now rewrite H.
        -- rewrite append_cons in H. now injection H.
      * split; [discriminate|]. intros (post & H). rewrite append_cons in H.
        injection H as H _. congruence.
Qed.

Lemma includes_iff (needle hay : string) :
  includes needle hay = true <-> contains needle hay.
Proof.
  unfold contains. split.
  - induction hay as [|c hay IH]; cbn [includes].
    + rewrite orb_false_r. intros H. apply prefix_iff in H as (post & H).
      now exists "", post.
    + intros H. apply orb_true_iff in H as [H|H].
      * apply prefix_iff in H as (post & H). now exists "", post.
      * destruct (IH H) as (pre & post & ->). now exists (String c pre), post.
  - intros (pre & post & ->). induction pre as [|c pre IH].
    + rewrite append_nil.
      assert (H : String.prefix needle (needle ++ post) = true).
      { apply prefix_iff. now exists post. }
      destruct (needle ++ post); cbn [includes]; now rewrite H.
    + rewrite append_cons. cbn [includes]. rewrite IH. apply orb_true_r.
Qed.

Lemma is_json_iff (r : Response) : is_json r = true <-> json_content r.
Proof.
  unfold is_json, json_content. rewrite includes_iff.
  destruct (Headers_get "content-type" (resp_headers r)) as [ct|]; simpl.
  - split; [intros H; now exists ct|]. now intros (ct' & [= <-] & H).
  - split.
    + intros (pre & post & H). destruct pre; discriminate.
    + intros (ct & H & _). discriminate.
Qed.

Lemma bodiless_iff (r : Response) :
  (resp_status r =? 204)%Z || header_is "content-length" "0" (resp_headers r) = true
  <-> bodiless r.
Proof.
  unfold bodiless, header_is.
  rewrite orb_true_iff, Z.eqb_eq, bool_decide_eq_true. reflexivity.
Qed.

Lemma ok_iff (r : Response) : ok r = true <-> (200 <= resp_status r <= 299)%Z.
Proof. unfold ok. rewrite andb_true_iff, !Z.leb_le. reflexivity. Qed.

(** What [parseResponse] makes of a response. *)
Lemma parseResponse_spec (r : Response) :
  (bodiless r -> parseResponse r = Ok None)
  /\ (~ bodiless r -> json_content r ->
      parseResponse r = (j ← resp_json r; Ok (Some (FromJson j))))
  /\ (~ bodiless r -> ~ json_content r ->
      parseResponse r
      = Ok (if decide (resp_text r = "") then None else Some (FromText (resp_text r)))).
Proof.
  unfold parseResponse.
  pose proof (bodiless_iff r) as Hb. pose proof (is_json_iff r) as Hj.
  destruct (_ || _).
  - assert (bodiless r) by now apply Hb.
    split; [reflexivity|]. split; intros; contradiction.
  - assert (~ bodiless r) by (intros H; apply Hb in H; discriminate).
    split; [contradiction|]. destruct (is_json r).
    + assert (json_content r) by now apply Hj.
      split; [reflexivity|]. intros; contradiction.
    + assert (~ json_content r) by (intros H'; apply Hj in H'; discriminate).
      split; [intros; contradiction|]. intros _ _. unfold nonempty.
      destruct (decide (resp_text r = "")) as [->|Hne]; [reflexivity|].
      apply String.eqb_neq in Hne. now rewrite Hne.
Qed.

(** [dispatch] once the final response is known. *)
Lemma dispatch_final_response (pf : Platform) (config : ResolvedClientConfig)
  (method : HttpMethod) (path : string) (options : RequestOptions) (attempt : nat)
  (ctx0 ctx : RequestContext) (r : Response) (log : list event) :
  prepared pf config method path options ctx0 ->
  final_response config attempt ctx0 ctx r log ->
  dispatch pf config method path options attempt =
  match settle r ctx with
  | Ok v => (Ok v, log)
  | Throw error =>
      (Throw (fst (dispatch_catch config ctx error)),
       (log ++ snd (dispatch_catch config ctx error))%list)
  end.
Proof.
  intros (url & body_ & headers_ & Hurl & Hbody & ->)
         (response & log1 & log2 & H1 & H2 & H3 & ->).
  unfold dispatch, dispatch_try. rewrite Hurl, Hbody, H1, H2, H3. simpl.
  destruct (settle r ctx) as [v|error]; [reflexivity|].
  now destruct (dispatch_catch config ctx error).
Qed.

(** Claim C5.  For the final response of an attempt: with a status outside
    200..299 the dispatcher builds the typed error of the response, raises
    it through the [catch] clause (where it stays the error raised unless
    an error interceptor throws) and returns no body; otherwise what it
    parses is absent for status 204 or a [content-length] of ["0"], the
    JSON-decoded body when the content type contains [application/json],
    and else the raw text, an empty text being absent. *)
Theorem final_response_handling (pf : Platform) (config : ResolvedClientConfig)
  (method : HttpMethod) (path : string) (options : RequestOptions) (attempt : nat)
  (ctx0 ctx : RequestContext) (r : Response) (log : list event) :
  prepared pf config method path options ctx0 ->
  final_response config attempt ctx0 ctx r log ->
  let typed := Typed (buildError r ctx) in
  ((resp_status r < 200 \/ 299 < resp_status r)%Z ->
     instanceof typed HTTPErrorClass = true
     /\ dispatch pf config method path options attempt
        = (Throw (fst (dispatch_catch config ctx typed)),
           (log ++ snd (dispatch_catch config ctx typed))%list)
     /\ (first_throwing 0 (default [] (on_error (rc_interceptors config)))
           {| ectx_url := ctx_url ctx; ectx_init := ctx_init ctx; ectx_error := typed |}
         = None ->
         fst (dispatch_catch config ctx typed) = typed))
  /\ ((200 <= resp_status r <= 299)%Z ->
      (bodiless r ->
         parseResponse r = Ok None
         /\ dispatch pf config method path options attempt = (Ok None, log))
      /\ (~ bodiless r -> json_content r -> forall j, resp_json r = Ok j ->
          parseResponse r = Ok (Some (FromJson j))
          /\ dispatch pf config method path options attempt
             = (Ok (or_undefined (Some (FromJson j))), log))
      /\ (~ bodiless r -> ~ json_content r ->
          let text := if decide (resp_text r = "") then None
                      else Some (FromText (resp_text r)) in
          parseResponse r = Ok text
          /\ dispatch pf config method path options attempt = (Ok text, log))).
Proof.
  intros Hprep Hfinal typed.
  rewrite (dispatch_final_response _ _ _ _ _ _ _ _ _ _ Hprep Hfinal).
  destruct (parseResponse_spec r) as (Hnone & Hjson & Htext).
  unfold settle. split.
  - intros Hst. split; [apply buildError_is_HTTPError|].
    assert (Hok : ok r = false).
    { destruct (ok r) eqn:E; [|reflexivity]. apply ok_iff in E. lia. }
    rewrite Hok. split; [reflexivity|].
    intros Hquiet. pose proof (dispatch_catch_spec config ctx typed) as Hcatch.
    cbv zeta in Hcatch. rewrite Hquiet in Hcatch. now rewrite Hcatch.
  - intros Hst. apply ok_iff in Hst. rewrite Hst. cbn [negb]. split; [|split].
    + intros Hb. rewrite (Hnone Hb). now split.
    + intros Hb Hj j Hrj. rewrite (Hjson Hb Hj), Hrj. now split.
    + intros Hb Hj. rewrite (Htext Hb Hj). split; [reflexivity|].
      now destruct (decide (resp_text r = "")).
Qed.

Lemma final_response_handling_witness :
  fst (dispatch sample_platform (sample_client (answering sample_ok)) GET "/v1/domains"
         default_options 0)
  = Ok (Some (FromJson (JObj [("ok", JBool true)]))).
Proof.
  assert (Hprep : prepared sample_platform (sample_client (answering sample_ok)) GET
                    "/v1/domains" default_options sample_get_context).
  { eexists _, _, _. repeat split; reflexivity. }
  assert (Hfinal : final_response (sample_client (answering sample_ok)) 0
                     sample_get_context sample_get_context sample_ok
                     [TransportCalled 0 (ctx_url sample_get_context)
                        (ctx_init sample_get_context)]).
  { eexists _, _, _. repeat split; reflexivity. }
  destruct (final_response_handling _ _ _ _ _ _ _ _ _ _ Hprep Hfinal) as [_ H].
  destruct H as (_ & H & _); [simpl; lia|].
  assert (Hnb : ~ bodiless sample_ok).
  { intros [E|E]; vm_compute in E; discriminate E. }
  assert (Hjc : json_content sample_ok).
  { exists "application/json". split; [reflexivity|]. now exists "", "". }
  destruct (H Hnb Hjc (JObj [("ok", JBool true)]) eq_refl) as [_ Hd].
  now rewrite Hd.
Defined.

(** ** Headers *)

Lemma Headers_get_set (k k' v : string) (h : gmap string string) :
  Headers_get k (Headers_set k' v h)
  = if decide (lower k' = lower k) then Some v else Headers_get k h.
Proof. unfold Headers_get, Headers_set. apply lookup_insert. Qed.

Lemma Headers_get_set_all (entries : list (string * string)) (h : gmap string string)
  (k : string) :
  Headers_get k (Headers_set_all entries h) = or_else (named k entries) (Headers_get k h).
Proof.
  unfold Headers_set_all. revert h.
  induction entries as [|[k' v] rest IH]; intros h; [reflexivity|].
  cbn [foldl named]. rewrite IH, Headers_get_set. cbn [fst snd].
  destruct (named k rest); [reflexivity|].
  now destruct (decide (lower k' = lower k)).
Qed.

Lemma serializeBody_headers (b : Body) (h : gmap string string) (body_ : option string)
  (h' : gmap string string) (k : string) :
  serializeBody b h = Ok (body_, h') ->
  lower k <> "content-type" ->
  Headers_get k h' = Headers_get k h.
Proof.
  unfold serializeBody. destruct b as [|s|[s|t]]; intros H Hk;
    try (injection H as <- <-; reflexivity); try discriminate.
  simpl in H. injection H as <- <-.
  destruct (Headers_has "content-type" h); [reflexivity|].
  rewrite Headers_get_set. destruct (decide _) as [E|E]; [|reflexivity].
  now elim Hk.
Qed.

(** The value of a header [k] among the headers [buildHeaders] returns is
    found, names compared without regard to case, in the per-call
    overrides; failing that among the forced headers ([authorization:
    Bearer <credential>], the client identity, the user agent); failing
    that in the static extra headers of the configuration; failing that in
    the default [Accept: application/json].  Apart from the content type
    of an encoded body, these are the headers of the context [dispatch]
    builds. *)
Lemma buildHeaders_precedence (pf : Platform) (config : ResolvedClientConfig)
  (overrides : option (JsObject string)) (k : string) :
  Headers_get k (buildHeaders pf config overrides)
  = or_else (named k (Object_entries (default [] overrides)))
      (or_else (forced_header pf config k)
         (or_else (named k (Object_entries (rc_headers config)))
            (named k (Object_entries DEFAULT_HEADERS))))
  /\ forall method path options ctx0,
      o_headers options = overrides ->
      prepared pf config method path options ctx0 ->
      lower k <> "content-type" ->
      Headers_get k (init_headers (ctx_init ctx0))
      = Headers_get k (buildHeaders pf config overrides).
Proof.
  split.
  - unfold buildHeaders, forced_header.
    assert (Hbase : forall h : gmap string string,
               Headers_get k
                 match rc_userAgent config with
                 | Some ua =>
                     if nonempty ua && negb (navigator_defined pf)
                     then Headers_set "user-agent" ua h else h
                 | None => h
                 end
               = if decide (lower k = "user-agent")
                 then match rc_userAgent config with
                      | Some ua =>
                          if nonempty ua && negb (navigator_defined pf)
                          then Some ua else Headers_get k h
                      | None => Headers_get k h
                      end
                 else Headers_get k h).
    { intros h. destruct (rc_userAgent config) as [ua|];
        [|now destruct (decide _)].
      destruct (nonempty ua && negb (navigator_defined pf));
        [|now destruct (decide _)].
      rewrite Headers_get_set. change (lower "user-agent") with "user-agent".
      destruct (decide ("user-agent" = lower k)), (decide (lower k = "user-agent"));
        congruence. }
    assert (Hgoal :
      Headers_get k
        match rc_userAgent config with
        | Some ua =>
            if nonempty ua && negb (navigator_defined pf)
            then Headers_set "user-agent" ua
                   (Headers_set "x-mailrify-client" "mailrify"
                      (Headers_set "authorization" ("Bearer " ++ rc_apiKey config)
                         (Headers_set_all (Object_entries (rc_headers config))
                            (Headers_set_all (Object_entries DEFAULT_HEADERS) ∅))))
            else Headers_set "x-mailrify-client" "mailrify"
                   (Headers_set "authorization" ("Bearer " ++ rc_apiKey config)
                      (Headers_set_all (Object_entries (rc_headers config))
                         (Headers_set_all (Object_entries DEFAULT_HEADERS) ∅)))
        | None =>
            Headers_set "x-mailrify-client" "mailrify"
              (Headers_set "authorization" ("Bearer " ++ rc_apiKey config)
                 (Headers_set_all (Object_entries (rc_headers config))
                    (Headers_set_all (Object_entries DEFAULT_HEADERS) ∅)))
        end
      = or_else
          (if decide (lower k = "authorization")
           then Some ("Bearer " ++ rc_apiKey config)
           else if decide (lower k = "x-mailrify-client") then Some "mailrify"
           else if decide (lower k = "user-agent")
           then match rc_userAgent config with
                | Some ua =>
                    if nonempty ua && negb (navigator_defined pf) then Some ua else None
                | None => None
                end
           else None)
          (or_else (named k (Object_entries (rc_headers config)))
             (named k (Object_entries DEFAULT_HEADERS)))).
    { rewrite Hbase, !Headers_get_set, !Headers_get_set_all.
      change (lower "x-mailrify-client") with "x-mailrify-client".
      change (lower "authorization") with "authorization".
      assert (Hempty : Headers_get k (∅ : gmap string string) = None)
        by apply lookup_empty.
      rewrite Hempty.
      set (static := named k (Object_entries (rc_headers config))).
      set (preset := named k (Object_entries DEFAULT_HEADERS)).
      assert (Hrest : or_else static (or_else preset None) = or_else static preset)
        by now destruct static, preset.
      destruct (decide (lower k = "authorization")) as [E1|E1].
      - rewrite E1. now destruct (decide _).
      - destruct (decide ("authorization" = lower k)); [congruence|].
        destruct (decide (lower k = "x-mailrify-client")) as [E2|E2].
        + rewrite E2. destruct (decide ("x-mailrify-client" = "user-agent"));
            [discriminate|]. now destruct (decide _).
        + destruct (decide ("x-mailrify-client" = lower k)); [congruence|].
          destruct (decide (lower k = "user-agent")) as [E3|E3];
            [destruct (rc_userAgent config) as [ua|];
             [destruct (nonempty ua && negb (navigator_defined pf))|]|];
            cbn [or_else]; try reflexivity; exact Hrest. }
    destruct overrides as [o|]; cbv zeta; cbn [default].
    + rewrite Headers_get_set_all. now rewrite Hgoal.
    + rewrite Hgoal. reflexivity.
  - intros method path options ctx0 Ho (url & body_ & headers_ & _ & Hbody & ->) Hk.
    simpl. rewrite Ho in Hbody. now apply (serializeBody_headers _ _ _ _ _ Hbody).
Qed.

(** Static extra headers override the default and yield to the forced
    headers; a per-call override beats both. *)
Example header_precedence_sample :
  let config :=
    {| rc_apiKey := "test-key"; rc_baseUrl := "https://api.example.com";
       rc_timeout := num_of_Z 5000; rc_fetch := answering sample_ok;
       rc_headers := [("accept", "text/csv"); ("Authorization", "Basic abc")];
       rc_interceptors := no_interceptors; rc_debug := false;
       rc_retry := {| r_maxRetries := num_of_Z 1; r_retryDelayMs := num_of_Z 0 |};
       rc_userAgent := None |} in
  Headers_get "Accept" (buildHeaders sample_platform config None) = Some "text/csv"
  /\ Headers_get "authorization" (buildHeaders sample_platform config None)
     = Some "Bearer test-key"
  /\ Headers_get "authorization"
       (buildHeaders sample_platform config (Some [("AUTHORIZATION", "Bearer other")]))
     = Some "Bearer other".
Proof. repeat split. Qed.

(** ** Error interceptors *)

(** Claim C8, as amended.  For an error thrown inside the [try] block of
    an attempt (by a request interceptor, the transport, a response
    interceptor, or while the response is classified or parsed), the error
    interceptors run in registration order on the context at hand, up to
    and including the first one that throws.  When none throws, all of
    them have run and the original error is raised again, whatever they
    returned; when one throws, what it throws replaces the original error
    and the interceptors after it do not run. *)
Theorem error_interceptor_pipeline (pf : Platform) (config : ResolvedClientConfig)
  (method : HttpMethod) (path : string) (options : RequestOptions) (attempt : nat)
  (ctx0 ctx : RequestContext) (error : thrown) (log : list event) :
  prepared pf config method path options ctx0 ->
  dispatch_try config attempt ctx0 = (ctx, Throw error, log) ->
  let registered := default [] (on_error (rc_interceptors config)) in
  let given := {| ectx_url := ctx_url ctx; ectx_init := ctx_init ctx;
                  ectx_error := error |} in
  dispatch pf config method path options attempt
  = match first_throwing 0 registered given with
    | None =>
        (Throw error, (log ++ error_interceptors_ran 0 (length registered) given)%list)
    | Some (i, t) =>
        (Throw t, (log ++ error_interceptors_ran 0 (S i) given)%list)
    end
  /\ ((forall interceptor, In interceptor registered ->
         exists v, interceptor given = Ok v) ->
      dispatch pf config method path options attempt
      = (Throw error, (log ++ error_interceptors_ran 0 (length registered) given)%list)).
Proof.
  intros (url & body_ & headers_ & Hurl & Hbody & ->) Htry registered given.
  assert (Hmain :
    dispatch pf config method path options attempt
    = match first_throwing 0 registered given with
      | None =>
          (Throw error, (log ++ error_interceptors_ran 0 (length registered) given)%list)
      | Some (i, t) =>
          (Throw t, (log ++ error_interceptors_ran 0 (S i) given)%list)
      end).
  { unfold dispatch. rewrite Hurl, Hbody, Htry.
    pose proof (dispatch_catch_spec config ctx error) as Hcatch.
    cbv zeta in Hcatch. fold registered in Hcatch. fold given in Hcatch.
    rewrite Hcatch. now destruct (first_throwing 0 registered given) as [[i t]|]. }
  split; [exact Hmain|].
  intros Hall. rewrite Hmain. now rewrite (first_throwing_none _ _ _ Hall).
Qed.

Lemma error_interceptor_pipeline_witness :
  let config :=
    sample_resolved (failing (NativeError "TypeError" "network down")) (num_of_Z 1)
      (with_error_interceptors [observing; observing]) in
  let result := dispatch sample_platform config GET "/v1/domains" default_options 0 in
  fst result = Throw (NativeError "TypeError" "network down")
  /\ error_interceptor_runs (snd result) = [0; 1]%nat.
Proof.
  intros config result.
  assert (Hprep : prepared sample_platform config GET "/v1/domains" default_options
                    sample_get_context).
  { eexists _, _, _. repeat split; reflexivity. }
  assert (Htry : dispatch_try config 0 sample_get_context
                 = (sample_get_context, Throw (NativeError "TypeError" "network down"),
                    [TransportCalled 0 (ctx_url sample_get_context)
                       (ctx_init sample_get_context)])) by reflexivity.
  destruct (error_interceptor_pipeline _ _ _ _ _ _ _ _ _ _ Hprep Htry) as [H _].
  unfold result. rewrite H. split; reflexivity.
Defined.

(** The claim as stated fails: an error thrown during an attempt before
    the [try] block is entered, here by [JSON.stringify] on a body that
    holds a [BigInt], leaves [dispatch] without any of the registered error
    interceptors having run. *)
Lemma errors_before_the_try_block_are_not_intercepted :
  let config :=
    sample_resolved (answering sample_ok) (num_of_Z 1)
      (with_error_interceptors [observing]) in
  length (default [] (on_error (rc_interceptors config))) = 1%nat
  /\ dispatch sample_platform config POST "/v1/emails" (options_with_body bigint_body) 0
     = (Throw (NativeError "TypeError" "Do not know how to serialize a BigInt"), [])
  /\ error_interceptor_runs
       (snd (dispatch sample_platform config POST "/v1/emails"
               (options_with_body bigint_body) 0)) = [].
Proof. repeat split. Qed.

(** The same holds for a base address the [URL] constructor rejects:
    every attempt fails in [buildUrl], unseen by the error interceptors. *)
Example invalid_base_address_sample :
  let config :=
    sample_resolved_at "api.example.com" (answering sample_ok) (num_of_Z 1)
      (with_error_interceptors [observing]) in
  dispatch sample_platform config GET "/v1/domains" default_options 0
  = (Throw (NativeError "TypeError" "Invalid URL"), []).
Proof. reflexivity. Qed.

(** An interceptor that throws hides the error from the ones after it. *)
Example throwing_interceptor_sample :
  let config :=
    sample_resolved (failing (NativeError "TypeError" "network down")) (num_of_Z 1)
      (with_error_interceptors [throwing (NonError (VStr "oops")); observing]) in
  let result := dispatch sample_platform config GET "/v1/domains" default_options 0 in
  fst result = Throw (NonError (VStr "oops"))
  /\ error_interceptor_runs (snd result) = [0%nat].
Proof. split; reflexivity. Qed.

(** ** The target address *)

Lemma insert_by_index_perm {V : Type} (n : Z) (kv : string * V)
  (l : list (Z * (string * V))) :
  insert_by_index n kv l ≡ₚ (n, kv) :: l.
Proof.
  induction l as [|[m x] l IH]; cbn [insert_by_index]; [reflexivity|].
  destruct (n <? m)%Z; [reflexivity|]. rewrite IH. apply perm_swap.
Qed.

Lemma indexed_entries_perm {V : Type} (o : JsObject V) (acc : list (Z * (string * V))) :
  map snd
    (foldl (fun acc kv =>
              match array_index kv.1 with
              | Some n => insert_by_index n kv acc
              | None => acc
              end) acc o)
  ≡ₚ (map snd acc ++ filter (fun kv => array_index kv.1 <> None) o)%list.
Proof.
  revert acc. induction o as [|kv o IH]; intros acc; cbn [foldl].
  - now rewrite app_nil_r.
  - rewrite IH. destruct (array_index kv.1) as [n|] eqn:E.
    + rewrite filter_cons_True by (rewrite E; discriminate).
      rewrite insert_by_index_perm. cbn [map snd app].
      apply Permutation_middle.
    + rewrite filter_cons_False by (rewrite E; intros H; now apply H).
      reflexivity.
Qed.

(** [Object.entries] yields every entry once. *)
Lemma Object_entries_perm {V : Type} (o : JsObject V) : Object_entries o ≡ₚ o.
Proof.
  unfold Object_entries. rewrite indexed_entries_perm. cbn [map app].
  induction o as [|kv o IH]; [reflexivity|].
  destruct (array_index kv.1) as [n|] eqn:E.
  - rewrite filter_cons_True by (rewrite E; discriminate).
    rewrite filter_cons_False by (rewrite E; discriminate).
    cbn [app]. now rewrite IH.
  - rewrite filter_cons_False by (rewrite E; intros H; now apply H).
    rewrite filter_cons_True by exact E.
    rewrite <- Permutation_middle. now rewrite IH.
Qed.

(** Without array-index keys, [Object.entries] follows creation order. *)
Lemma Object_entries_named {V : Type} (o : JsObject V) :
  (forall kv, In kv o -> array_index kv.1 = None) -> Object_entries o = o.
Proof.
  intros H. unfold Object_entries.
  assert (Hfold : forall acc : list (Z * (string * V)),
             foldl (fun acc kv =>
                      match array_index kv.1 with
                      | Some n => insert_by_index n kv acc
                      | None => acc
                      end) acc o = acc).
  { induction o as [|kv o IH]; intros acc; cbn [foldl]; [reflexivity|].
    rewrite (H kv (or_introl eq_refl)). apply IH. intros kv' Hkv'. apply H. now right. }
  rewrite Hfold. cbn [map app].
  induction o as [|kv o IH]; [reflexivity|].
  rewrite filter_cons_True by (apply H; now left).
  f_equal. apply IH.
  - intros kv' Hkv'. apply H. now right.
  - intros acc. specialize (Hfold acc). cbn [foldl] in Hfold.
    now rewrite (H kv (or_introl eq_refl)) in Hfold.
Qed.

Lemma params_set_fresh (k v : string) (ps : list (string * string)) :
  ~ In k (map fst ps) -> params_set k v ps = (ps ++ [(k, v)])%list.
Proof.
  induction ps as [|[k' v'] ps IH]; intros H; cbn [params_set]; [reflexivity|].
  destruct (String.eqb k' k) eqn:E.
  - apply String.eqb_eq in E. elim H. now left.
  - cbn [app]. f_equal. apply IH. intros Hin. apply H. now right.
Qed.

Lemma append_items (k : string) (items : list (option Scalar))
  (ps : list (string * string)) :
  foldl (fun acc item =>
           match item with
           | Some x => params_append k (String_of x) acc
           | None => acc
           end) ps items
  = (ps ++ map (fun x => (k, String_of x)) (omap id items))%list.
Proof.
  revert ps. induction items as [|[x|] items IH]; intros ps; cbn [foldl omap].
  - now rewrite app_nil_r.
  - rewrite IH. unfold params_append. cbn [id map]. now rewrite <- app_assoc.
  - apply IH.
Qed.

Lemma query_pairs_keys (kv : string * QueryValue) (k : string) :
  In k (map fst (query_pairs kv)) -> k = kv.1.
Proof.
  unfold query_pairs. destruct kv.2 as [|items|x]; cbn [map In].
  - intros [].
  - rewrite map_map. cbn [fst]. intros H. apply in_map_iff in H as (x & <- & _).
    reflexivity.
  - intros [<-|[]]. reflexivity.
Qed.

(** The loop over the entries of the query, for keys that are distinct
    and new to the parameters gathered so far. *)
Lemma add_query_entries (entries : list (string * QueryValue))
  (ps : list (string * string)) :
  NoDup (map fst entries) ->
  (forall k, In k (map fst entries) -> ~ In k (map fst ps)) ->
  foldl add_query_entry ps entries = (ps ++ flat_map query_pairs entries)%list.
Proof.
  revert ps. induction entries as [|[k v] entries IH]; intros ps Hnd Hfresh;
    cbn [foldl flat_map]; [now rewrite app_nil_r|].
  assert (Hstep : add_query_entry ps (k, v) = (ps ++ query_pairs (k, v))%list).
  { unfold add_query_entry, query_pairs. cbn [fst snd]. destruct v as [|items|x].
    - now rewrite app_nil_r.
    - apply append_items.
    - apply params_set_fresh. apply Hfresh. now left. }
  rewrite Hstep. cbn [map fst] in Hnd. apply NoDup_cons in Hnd as [Hk Hnd].
  rewrite IH; [now rewrite <- app_assoc|exact Hnd|].
  intros k' Hk' Hin. rewrite map_app, in_app_iff in Hin. destruct Hin as [Hin|Hin].
  - apply (Hfresh k'); [now right|exact Hin].
  - apply query_pairs_keys in Hin. cbn [fst] in Hin. subst k'.
    apply Hk. now apply list_elem_of_In.
Qed.

(** *** Paths *)

Lemma append_nil_r (s : string) : s ++ "" = s.
Proof. induction s as [|c s IH]; [reflexivity|]. now rewrite append_cons, IH. Qed.

Lemma string_of_list_ascii_app (a b : list ascii) :
  string_of_list_ascii (a ++ b) = string_of_list_ascii a ++ string_of_list_ascii b.
Proof.
  induction a as [|c a IH]; [reflexivity|].
  cbn [app string_of_list_ascii]. now rewrite IH, append_cons.
Qed.

Lemma pieces_cons (s : string) : exists p rest, pieces s = p :: rest.
Proof.
  induction s as [|c s (p & rest & IH)]; cbn [pieces]; [now eexists _, _|].
  destruct (Ascii.eqb c "/"); [now eexists _, _|]. rewrite IH. now eexists _, _.
Qed.

Lemma pieces_app_slash (a b : string) :
  pieces (a ++ String "/" b) = (pieces a ++ pieces b)%list.
Proof.
  induction a as [|c a IH]; [reflexivity|].
  rewrite append_cons. cbn [pieces]. rewrite IH.
  destruct (Ascii.eqb c "/"); [reflexivity|].
  now destruct (pieces_cons a) as (p & rest & ->).
Qed.

Lemma segments_app_slash (a b : string) :
  segments (a ++ String "/" b) = (segments a ++ segments b)%list.
Proof. unfold segments. now rewrite pieces_app_slash, List.filter_app. Qed.

Lemma segments_slash (s : string) : segments (String "/" s) = segments s.
Proof. reflexivity. Qed.

Lemma pieces_collapse (s : string) :
  exists p rest rest',
    pieces s = p :: rest
    /\ pieces (collapse_slashes s) = p :: rest'
    /\ List.filter nonempty rest = List.filter nonempty rest'.
Proof.
  induction s as [|c s (p & rest & rest' & Hs & Hc & Hf)]; [now exists "", [], []|].
  cbn [pieces collapse_slashes].
  destruct (Ascii.eqb c "/") eqn:Ec; cbn [andb].
  - destruct (String.prefix "/" s) eqn:Ep.
    + assert (p = "") as ->.
      { destruct s as [|c' s]; [discriminate|]. cbn [String.prefix] in Ep.
        destruct (ascii_dec "/" c') as [<-|]; [|discriminate].
        cbn [pieces] in Hs. now injection Hs as <- _. }
      exists "", ("" :: rest), rest'. rewrite Hs, Hc. repeat split. exact Hf.
    + exists "", (p :: rest), (p :: rest'). cbn [pieces]. rewrite Ec, Hs, Hc.
      repeat split. cbn [List.filter]. now rewrite Hf.
  - exists (String c p), rest, rest'. cbn [pieces]. rewrite Ec, Hs, Hc. now repeat split.
Qed.

Lemma segments_collapse (s : string) : segments (collapse_slashes s) = segments s.
Proof.
  unfold segments. destruct (pieces_collapse s) as (p & rest & rest' & -> & -> & Hf).
  cbn [List.filter]. now rewrite Hf.
Qed.

Lemma prefix_slash_cons (c : ascii) (s : string) :
  String.prefix "/" (String c s) = Ascii.eqb c "/".
Proof.
  cbn [String.prefix]. destruct (ascii_dec "/" c) as [<-|Hne].
  - now destruct s.
  - symmetry. apply Ascii.eqb_neq. congruence.
Qed.

Lemma prefix_slash_collapse (s : string) :
  String.prefix "/" (collapse_slashes s) = String.prefix "/" s.
Proof.
  induction s as [|c s IH]; [reflexivity|]. cbn [collapse_slashes].
  destruct (Ascii.eqb c "/" && String.prefix "/" s) eqn:E.
  - apply andb_true_iff in E as [Ec Ep]. now rewrite IH, Ep, prefix_slash_cons, Ec.
  - now rewrite !prefix_slash_cons.
Qed.

Lemma collapse_no_double_slash (s : string) : includes "//" (collapse_slashes s) = false.
Proof.
  induction s as [|c s IH]; [reflexivity|]. cbn [collapse_slashes].
  destruct (Ascii.eqb c "/" && String.prefix "/" s) eqn:E; [exact IH|].
  cbn [includes]. rewrite IH, orb_false_r.
  pose proof (prefix_slash_collapse s) as Hp.
  cbn [String.prefix]. destruct (ascii_dec "/" c) as [<-|]; [|reflexivity].
  cbn [Ascii.eqb Bool.eqb andb] in E. rewrite E in Hp.
  destruct (collapse_slashes s) as [|c' s']; [reflexivity|].
  rewrite prefix_slash_cons in Hp.
  cbn [String.prefix]. destruct (ascii_dec "/" c') as [<-|]; [discriminate|reflexivity].
Qed.

Lemma drop_slashes_spec (l : list ascii) :
  exists n, l = (repeat "/"%char n ++ drop_slashes l)%list.
Proof.
  induction l as [|c l (n & IH)]; [now exists 0%nat|]. cbn [drop_slashes].
  destruct (Ascii.eqb c "/") eqn:Ec; [|now exists 0%nat].
  apply Ascii.eqb_eq in Ec as ->. exists (S n). cbn [repeat app]. now rewrite <- IH.
Qed.

Lemma rev_repeat_slash (n : nat) : rev (repeat "/"%char n) = repeat "/"%char n.
Proof.
  induction n as [|n IH]; [reflexivity|]. cbn [repeat rev]. rewrite IH.
  clear IH. induction n as [|n IH]; [reflexivity|]. cbn [repeat app]. now rewrite IH.
Qed.

(** A string is what [strip_trailing_slashes] keeps of it, followed by
    slashes only. *)
Lemma strip_trailing_slashes_spec (s : string) :
  exists n, s = strip_trailing_slashes s ++ string_of_list_ascii (repeat "/"%char n).
Proof.
  unfold strip_trailing_slashes.
  destruct (drop_slashes_spec (rev (list_ascii_of_string s))) as (n & H).
  exists n. rewrite <- string_of_list_ascii_app, <- (rev_repeat_slash n), <- rev_app_distr.
  now rewrite <- H, rev_involutive, string_of_list_ascii_of_string.
Qed.

Lemma segments_trailing_slashes (s : string) (n : nat) :
  segments (s ++ string_of_list_ascii (repeat "/"%char n)) = segments s.
Proof.
  assert (Hslashes : forall m, segments (string_of_list_ascii (repeat "/"%char m)) = []).
  { induction m as [|m IH]; [reflexivity|]. cbn [repeat string_of_list_ascii].
    now rewrite segments_slash. }
  destruct n as [|n]; [now rewrite append_nil_r|].
  cbn [repeat string_of_list_ascii]. rewrite segments_app_slash, Hslashes.
  apply app_nil_r.
Qed.

Lemma segments_strip (s : string) : segments (strip_trailing_slashes s) = segments s.
Proof.
  destruct (strip_trailing_slashes_spec s) as (n & H).
  rewrite H at 2. now rewrite segments_trailing_slashes.
Qed.

Lemma substring_all (s : string) : String.substring 0 (String.length s) s = s.
Proof. induction s as [|c s IH]; [reflexivity|]. cbn. now rewrite IH. Qed.

Lemma segments_normalized (path : string) :
  segments (if startsWith "/" path
            then String.substring 1 (String.length path - 1) path else path)
  = segments path.
Proof.
  unfold startsWith. destruct path as [|c path]; [reflexivity|].
  rewrite prefix_slash_cons. destruct (Ascii.eqb c "/") eqn:Ec; [|reflexivity].
  apply Ascii.eqb_eq in Ec as ->.
  replace (String.length (String "/" path) - 1) with (String.length path)
    by (cbn [String.length]; lia).
  cbn [String.substring]. now rewrite substring_all, segments_slash.
Qed.

Lemma joinPath_cases (b n : string) :
  joinPath b n
  = if nonempty b then (if nonempty n then b ++ String "/" n else b)
    else n.
Proof.
  unfold joinPath.
  destruct (nonempty b) eqn:Eb, (nonempty n) eqn:En.
  - rewrite !filter_cons_True by assumption. reflexivity.
  - rewrite filter_cons_True, filter_cons_False by congruence. reflexivity.
  - rewrite filter_cons_False, filter_cons_True by congruence. reflexivity.
  - rewrite !filter_cons_False by congruence. cbn.
    unfold nonempty in En. apply negb_false_iff, String.eqb_eq in En. now subst.
Qed.

Lemma segments_joinPath (b n : string) :
  segments (joinPath b n) = (segments b ++ segments n)%list.
Proof.
  rewrite joinPath_cases. unfold nonempty.
  destruct (String.eqb b "") eqn:Eb; cbn [negb].
  - apply String.eqb_eq in Eb as ->. reflexivity.
  - destruct (String.eqb n "") eqn:En; cbn [negb].
    + apply String.eqb_eq in En as ->. now rewrite app_nil_r.
    + apply segments_app_slash.
Qed.

(** The path of the target: it starts with a slash, has no two slashes in
    a row, and its segments are those of the base path followed by those
    of the relative path. *)
Lemma joined_path (basePathname path : string) :
  let normalizedPath :=
    if startsWith "/" path then String.substring 1 (String.length path - 1) path
    else path in
  let combinedPath := joinPath (strip_trailing_slashes basePathname) normalizedPath in
  let joined :=
    collapse_slashes (if nonempty combinedPath then "/" ++ combinedPath else "/") in
  String.prefix "/" joined = true
  /\ includes "//" joined = false
  /\ segments joined = (segments basePathname ++ segments path)%list.
Proof.
  intros normalizedPath combinedPath joined. unfold joined. split; [|split].
  - rewrite prefix_slash_collapse.
    destruct (nonempty combinedPath); [|reflexivity].
    change ("/" ++ combinedPath) with (String "/" combinedPath).
    now rewrite prefix_slash_cons.
  - apply collapse_no_double_slash.
  - rewrite segments_collapse.
    assert (H : segments (if nonempty combinedPath then "/" ++ combinedPath else "/")
                = segments combinedPath).
    { unfold nonempty. destruct (String.eqb combinedPath "") eqn:E; cbn [negb].
      - apply String.eqb_eq in E. now rewrite E.
      - reflexivity. }
    rewrite H. unfold combinedPath. rewrite segments_joinPath, segments_strip.
    unfold normalizedPath. now rewrite segments_normalized.
Qed.

Lemma list_ascii_of_string_app (a b : string) :
  list_ascii_of_string (a ++ b) = (list_ascii_of_string a ++ list_ascii_of_string b)%list.
Proof.
  induction a as [|c a IH]; [reflexivity|].
  rewrite append_cons. cbn [list_ascii_of_string app]. now rewrite IH.
Qed.

(** *** The [pathname] setter on plain paths *)

Lemma path_input_plain (s : string) : plain_bytes s = true -> path_input s = s.
Proof.
  unfold plain_bytes. induction s as [|c s IH]; [reflexivity|].
  cbn [list_ascii_of_string forallb path_input]. intros H.
  apply andb_true_iff in H as [Hc Hs]. unfold plain_byte in Hc.
  apply negb_true_iff, orb_false_iff in Hc as [Hc Hset].
  apply orb_false_iff in Hc as [Htab Hback].
  now rewrite Htab, Hback, Hset, IH.
Qed.

Lemma serialize_pieces (s : string) : serialize_path (pieces s) = "/" ++ s.
Proof.
  induction s as [|c s IH]; [reflexivity|]. cbn [pieces].
  destruct (Ascii.eqb c "/") eqn:Ec.
  - apply Ascii.eqb_eq in Ec as ->. cbn [serialize_path]. rewrite IH.
    now rewrite append_nil, !append_cons, append_nil.
  - destruct (pieces s) as [|p rest]; cbn [serialize_path] in *.
    + rewrite !append_cons, !append_nil in IH. discriminate IH.
    + rewrite !append_cons, !append_nil in *. now injection IH as ->.
Qed.

Lemma resolve_segments_plain (buffers : list string) :
  no_dot_segment buffers = true ->
  forall path, resolve_segments path buffers = (path ++ buffers)%list.
Proof.
  unfold no_dot_segment. induction buffers as [|buffer rest IH]; intros H path.
  - now rewrite app_nil_r.
  - cbn [forallb] in H. apply andb_true_iff in H as [Hb Hrest].
    apply negb_true_iff, orb_false_iff in Hb as [Hsingle Hdouble].
    cbn [resolve_segments]. rewrite Hsingle, Hdouble.
    destruct rest as [|next rest]; [reflexivity|].
    rewrite (IH Hrest). now rewrite <- app_assoc.
Qed.

(** The setter leaves a path as it is when the path starts with a slash,
    is made of plain bytes and has no dot segment among its pieces. *)
Lemma URL_set_pathname_plain (value : string) :
  String.prefix "/" value = true ->
  plain_bytes value = true ->
  no_dot_segment (pieces value) = true ->
  URL_set_pathname value = value.
Proof.
  intros Hslash Hplain Hdots. unfold URL_set_pathname.
  rewrite (path_input_plain _ Hplain).
  destruct value as [|c t]; [discriminate Hslash|].
  rewrite prefix_slash_cons in Hslash. rewrite Hslash.
  cbn [pieces] in Hdots. rewrite Hslash in Hdots.
  unfold no_dot_segment in Hdots. cbn [forallb] in Hdots.
  apply andb_true_iff in Hdots as [_ Hdots].
  rewrite (resolve_segments_plain _ Hdots). cbn [app].
  rewrite serialize_pieces. apply Ascii.eqb_eq in Hslash as ->.
  now rewrite append_cons, append_nil.
Qed.

Lemma plain_bytes_app (a b : string) :
  plain_bytes (a ++ b) = plain_bytes a && plain_bytes b.
Proof. unfold plain_bytes. now rewrite list_ascii_of_string_app, forallb_app. Qed.

Lemma plain_bytes_collapse (s : string) :
  plain_bytes s = true -> plain_bytes (collapse_slashes s) = true.
Proof.
  unfold plain_bytes. induction s as [|c s IH]; [reflexivity|].
  cbn [list_ascii_of_string forallb collapse_slashes]. intros H.
  apply andb_true_iff in H as [Hc Hs].
  destruct (Ascii.eqb c "/" && String.prefix "/" s); [now apply IH|].
  cbn [list_ascii_of_string forallb]. now rewrite Hc, IH.
Qed.

Lemma plain_bytes_strip (s : string) :
  plain_bytes s = true -> plain_bytes (strip_trailing_slashes s) = true.
Proof.
  intros H. destruct (strip_trailing_slashes_spec s) as (n & Hs).
  rewrite Hs, plain_bytes_app in H. now apply andb_true_iff in H as [H _].
Qed.

Lemma plain_bytes_normalized (path : string) :
  plain_bytes path = true ->
  plain_bytes (if startsWith "/" path
               then String.substring 1 (String.length path - 1) path else path) = true.
Proof.
  intros H. unfold startsWith. destruct path as [|c path]; [reflexivity|].
  rewrite prefix_slash_cons. destruct (Ascii.eqb c "/") eqn:Ec; [|exact H].
  replace (String.length (String c path) - 1) with (String.length path)
    by (cbn [String.length]; lia).
  cbn [String.substring]. rewrite substring_all.
  unfold plain_bytes in *. cbn [list_ascii_of_string forallb] in H.
  now apply andb_true_iff in H as [_ H].
Qed.

Lemma plain_bytes_joinPath (b n : string) :
  plain_bytes b = true -> plain_bytes n = true -> plain_bytes (joinPath b n) = true.
Proof.
  intros Hb Hn. rewrite joinPath_cases.
  destruct (nonempty b); [|exact Hn]. destruct (nonempty n); [|exact Hb].
  rewrite plain_bytes_app, Hb. unfold plain_bytes in *.
  cbn [list_ascii_of_string forallb]. now rewrite Hn.
Qed.

Lemma no_dot_segment_pieces (s : string) :
  no_dot_segment (segments s) = true -> no_dot_segment (pieces s) = true.
Proof.
  unfold segments, no_dot_segment. induction (pieces s) as [|p rest IH]; [reflexivity|].
  cbn [List.filter forallb]. unfold nonempty at 1.
  destruct (String.eqb p "") eqn:Ep; cbn [negb].
  - apply String.eqb_eq in Ep as ->. intros H. now rewrite IH.
  - cbn [forallb]. intros H. apply andb_true_iff in H as [Hp H]. now rewrite Hp, IH.
Qed.

(** The joined path goes through the setter unchanged when the base path
    and the relative path are plain. *)
Lemma joined_path_plain (basePathname path : string) :
  plain_path basePathname = true ->
  plain_path path = true ->
  let normalizedPath :=
    if startsWith "/" path then String.substring 1 (String.length path - 1) path
    else path in
  let combinedPath := joinPath (strip_trailing_slashes basePathname) normalizedPath in
  let joined :=
    collapse_slashes (if nonempty combinedPath then "/" ++ combinedPath else "/") in
  URL_set_pathname joined = joined.
Proof.
  intros Hb Hp. unfold plain_path in Hb, Hp.
  apply andb_true_iff in Hb as [Hb Hbdots]. apply andb_true_iff in Hp as [Hp Hpdots].
  destruct (joined_path basePathname path) as (Hslash & _ & Hsegs).
  cbv zeta in Hslash, Hsegs |- *.
  set (normalizedPath :=
         if startsWith "/" path then String.substring 1 (String.length path - 1) path
         else path) in *.
  set (combinedPath := joinPath (strip_trailing_slashes basePathname) normalizedPath) in *.
  apply URL_set_pathname_plain; [exact Hslash| |].
  - apply plain_bytes_collapse.
    assert (Hc : plain_bytes combinedPath = true).
    { unfold combinedPath. apply plain_bytes_joinPath;
        [now apply plain_bytes_strip|now apply plain_bytes_normalized]. }
    destruct (nonempty combinedPath); [|reflexivity].
    now rewrite plain_bytes_app, Hc.
  - apply no_dot_segment_pieces. rewrite Hsegs. unfold no_dot_segment in *.
    now rewrite forallb_app, Hbdots, Hpdots.
Qed.

(** Claim C7, as amended.  The target of a call has the origin of the
    base address and no fragment.  For a base address with a hierarchical
    path (one that starts with a slash, as that of every [http] or [https]
    address does) and for a base path and a relative path that the
    [pathname] setter leaves as they are (plain bytes, no dot segment), its
    path starts with a slash, has no duplicate slash, and is made of the
    segments of the base path followed by those of the relative path.  For
    every path, its query holds, whatever query the base address
    had, the pairs of the entries of the [query] record in the order
    [Object.entries] yields them (keys that are array indices first, in
    ascending numeric order, then the other keys in creation order): a
    sequence gives its key once per item that is neither [null] nor
    [undefined], a scalar gives one pair with its [String()] image, and a
    key whose value is [null] or [undefined] gives nothing.  This order is
    creation order whenever no key is an array index. *)
Theorem target_address (pf : Platform) (config : ResolvedClientConfig) (path : string)
  (q : option (JsObject QueryValue)) (base : URL) :
  new_URL pf (rc_baseUrl config) = Ok base ->
  NoDup (map fst (default [] q)) ->
  exists u,
    buildUrl pf config path q = Ok u
    /\ origin u = origin base
    /\ hash u = ""
    /\ (String.prefix "/" (pathname base) = true ->
        plain_path (pathname base) = true -> plain_path path = true ->
        String.prefix "/" (pathname u) = true
        /\ includes "//" (pathname u) = false
        /\ segments (pathname u) = (segments (pathname base) ++ segments path)%list)
    /\ searchParams u = flat_map query_pairs (Object_entries (default [] q))
    /\ ((forall kv, In kv (default [] q) -> array_index kv.1 = None) ->
        searchParams u = flat_map query_pairs (default [] q)).
Proof.
  intros Hbase Hnd. unfold buildUrl. rewrite Hbase. cbn [mbind outcome_bind].
  assert (Hparams : forall o : JsObject QueryValue,
             NoDup (map fst o) ->
             foldl add_query_entry [] (Object_entries o)
             = flat_map query_pairs (Object_entries o)).
  { intros o Ho. rewrite add_query_entries; [reflexivity| |intros k _ []].
    assert (Hperm : map fst (Object_entries o) ≡ₚ map fst o)
      by apply Permutation_map, Object_entries_perm.
    now rewrite Hperm. }
  assert (Hpath : String.prefix "/" (pathname base) = true ->
            plain_path (pathname base) = true -> plain_path path = true ->
            let joined :=
              URL_set_pathname
                (collapse_slashes
                   (if nonempty
                         (joinPath (strip_trailing_slashes (pathname base))
                            (if startsWith "/" path
                             then String.substring 1 (String.length path - 1) path
                             else path))
                    then "/" ++ joinPath (strip_trailing_slashes (pathname base))
                                  (if startsWith "/" path
                                   then String.substring 1 (String.length path - 1) path
                                   else path)
                    else "/")) in
            String.prefix "/" joined = true
            /\ includes "//" joined = false
            /\ segments joined = (segments (pathname base) ++ segments path)%list).
  { intros _ Hb Hp. cbv zeta. rewrite (joined_path_plain _ _ Hb Hp).
    exact (joined_path (pathname base) path). }
  cbv zeta in Hpath.
  destruct q as [o|]; eexists; (split; [reflexivity|]);
    cbn [origin hash pathname searchParams default];
    (split; [reflexivity|]); (split; [reflexivity|]); (split; [exact Hpath|]).
  - split; [now apply Hparams|].
    intros Hnamed. rewrite Hparams by assumption. now rewrite Object_entries_named.
  - split; [reflexivity|]. intros _. reflexivity.
Qed.

Lemma sample_query_keys : NoDup (map fst sample_query).
Proof.
  cbn. apply NoDup_cons. split; [|apply NoDup_cons; split; [|apply NoDup_nil; exact I]].
  - intros H. apply list_elem_of_In in H. cbn in H. destruct H as [H|[]]. discriminate H.
  - intros H. apply list_elem_of_In in H. destruct H.
Qed.

Lemma target_address_witness :
  exists u,
    buildUrl sample_platform (sample_client (answering sample_ok)) "/v1/domains"
      (Some sample_query) = Ok u
    /\ segments (pathname u) = ["v1"; "domains"]
    /\ searchParams u = [("page", "2"); ("values", "a"); ("values", "b")].
Proof.
  destruct (target_address sample_platform (sample_client (answering sample_ok))
              "/v1/domains" (Some sample_query) sample_base eq_refl sample_query_keys)
    as (u & Hu & _ & _ & Hpath & Hq & _).
  exists u. split; [exact Hu|]. split; [|exact Hq].
  exact (proj2 (proj2 (Hpath eq_refl eq_refl eq_refl))).
Defined.

(** Outside the plain paths the setter rewrites what [buildUrl] joined: a
    double-dot segment removes the segment before it, and a question mark
    is percent-encoded instead of starting a query. *)
Example pathname_setter_sample :
  let target path :=
    match buildUrl sample_platform (sample_client (answering sample_ok)) path None with
    | Ok u => URL_toString u
    | Throw _ => ""
    end in
  target "/v1/../x" = "https://api.example.com/x"
  /\ target "/v1/emails?page=2" = "https://api.example.com/v1/emails%3Fpage=2"
  /\ target "/v1/a b/./c/" = "https://api.example.com/v1/a%20b/c/"
  /\ target "/v1/domains/.." = "https://api.example.com/v1/".
Proof. repeat split. Qed.

(** The query of the specification's example, on a GET of [/v1/domains]. *)
Example query_encoding_sample :
  match buildUrl sample_platform (sample_client (answering sample_ok)) "/v1/domains"
          (Some sample_query) with
  | Ok u => URL_toString u
  | Throw _ => ""
  end = "https://api.example.com/v1/domains?page=2&values=a&values=b".
Proof. reflexivity. Qed.

(** The claim as stated fails: in [{ b: 'x', 1: 'y' }] the key [b] was
    created first, yet the address carries [1=y] before [b=x]. *)
Lemma array_index_keys_come_first :
  NoDup (map fst indexed_query)
  /\ exists u,
      buildUrl sample_platform (sample_client (answering sample_ok)) "/v1/domains"
        (Some indexed_query) = Ok u
      /\ search u = "?1=y&b=x"
      /\ searchParams u <> flat_map query_pairs indexed_query.
Proof.
  split.
  - cbn. apply NoDup_cons. split; [|apply NoDup_cons; split; [|apply NoDup_nil; exact I]].
    + intros H. apply list_elem_of_In in H. cbn in H. destruct H as [H|[]]. discriminate H.
    + intros H. apply list_elem_of_In in H. destruct H.
  - eexists. split; [reflexivity|]. split; [reflexivity|]. discriminate.
Qed.

(** * Further properties of the dispatcher *)

(** ** What an attempt logs *)

Lemma transport_calls_app (a b : list event) :
  transport_calls (a ++ b) = (transport_calls a ++ transport_calls b)%list.
Proof. apply omap_app. Qed.

Lemma pauses_app (a b : list event) : pauses (a ++ b) = (pauses a ++ pauses b)%list.
Proof. apply omap_app. Qed.

(** The interceptors call no transport and take no pause. *)
Lemma runRequestInterceptors_from_quiet (l : list RequestInterceptor) (index : nat)
  (context : RequestContext) :
  transport_calls (snd (runRequestInterceptors_from index l context)) = []
  /\ pauses (snd (runRequestInterceptors_from index l context)) = [].
Proof.
  revert index context. induction l as [|interceptor rest IH]; intros index context;
    cbn [runRequestInterceptors_from]; [now split|].
  destruct (interceptor context) as [result|t]; [|now split].
  specialize (IH (S index) (default context result)).
  now destruct (runRequestInterceptors_from (S index) rest (default context result)).
Qed.

Lemma runResponseInterceptors_from_quiet (l : list ResponseInterceptor) (index : nat)
  (context : ResponseContext) :
  transport_calls (snd (runResponseInterceptors_from index l context)) = []
  /\ pauses (snd (runResponseInterceptors_from index l context)) = [].
Proof.
  revert index context. induction l as [|interceptor rest IH]; intros index context;
    cbn [runResponseInterceptors_from]; [now split|].
  destruct (interceptor context) as [result|t]; [|now split].
  match goal with
  | |- context [runResponseInterceptors_from (S index) rest ?c] =>
      specialize (IH (S index) c);
      now destruct (runResponseInterceptors_from (S index) rest c)
  end.
Qed.

Lemma runErrorInterceptors_from_quiet (l : list ErrorInterceptor) (index : nat)
  (context : RequestContext) (error : thrown) :
  transport_calls (snd (runErrorInterceptors_from index l context error)) = []
  /\ pauses (snd (runErrorInterceptors_from index l context error)) = [].
Proof.
  revert index. induction l as [|interceptor rest IH]; intros index;
    cbn [runErrorInterceptors_from]; [now split|].
  destruct (interceptor _) as [result|t]; [|now split].
  specialize (IH (S index)).
  now destruct (runErrorInterceptors_from (S index) rest context error).
Qed.

Lemma dispatch_catch_quiet (config : ResolvedClientConfig) (context : RequestContext)
  (error : thrown) :
  transport_calls (snd (dispatch_catch config context error)) = []
  /\ pauses (snd (dispatch_catch config context error)) = [].
Proof.
  unfold dispatch_catch, runErrorInterceptors.
  pose proof (runErrorInterceptors_from_quiet
                (default [] (on_error (rc_interceptors config))) 0 context error) as H.
  now destruct (runErrorInterceptors_from 0 _ context error).
Qed.

(** The calls of the transport and the pauses in the log of the [try]
    block. *)
Lemma dispatch_try_log (config : ResolvedClientConfig) (attempt : nat)
  (ctx0 : RequestContext) :
  transport_calls (snd (dispatch_try config attempt ctx0))
  = match fst (runRequestInterceptors (rc_interceptors config) ctx0) with
    | Ok _ => [attempt]
    | Throw _ => []
    end
  /\ pauses (snd (dispatch_try config attempt ctx0)) = [].
Proof.
  unfold dispatch_try, runRequestInterceptors, runResponseInterceptors.
  pose proof (runRequestInterceptors_from_quiet
                (default [] (on_request (rc_interceptors config))) 0 ctx0) as [H1 H1'].
  destruct (runRequestInterceptors_from 0 _ ctx0) as [[ctx|t] log1]; cbn [fst snd] in *;
    [|now split].
  destruct (rc_fetch config attempt (ctx_url ctx) (ctx_init ctx)) as [response|t];
    cbn [snd].
  - match goal with
    | |- context [runResponseInterceptors_from 0 ?l ?c] =>
        pose proof (runResponseInterceptors_from_quiet l 0 c) as [H2 H2'];
        destruct (runResponseInterceptors_from 0 l c) as [r2 log2]
    end.
    cbn [fst snd] in *.
    rewrite transport_calls_app, pauses_app, H1, H1'.
    change (transport_calls (?e :: log2)) with (attempt :: transport_calls log2) at 1.
    change (pauses (TransportCalled attempt (ctx_url ctx) (ctx_init ctx) :: log2))
      with (pauses log2).
    now rewrite H2, H2'.
  - rewrite transport_calls_app, pauses_app, H1, H1'. now split.
Qed.

(** The calls of the transport and the pauses in the log of an attempt. *)
Lemma dispatch_log (pf : Platform) (config : ResolvedClientConfig)
  (method : HttpMethod) (path : string) (options : RequestOptions) (attempt : nat) :
  transport_calls (snd (dispatch pf config method path options attempt))
  = match buildUrl pf config path (query options),
          serializeBody (body options) (buildHeaders pf config (o_headers options)) with
    | Ok url, Ok (body_, headers_) =>
        match fst (runRequestInterceptors (rc_interceptors config)
                     {| ctx_url := url;
                        ctx_init := {| init_method := method_name method;
                                       init_headers := headers_;
                                       init_body := body_ |} |}) with
        | Ok _ => [attempt]
        | Throw _ => []
        end
    | _, _ => []
    end
  /\ pauses (snd (dispatch pf config method path options attempt)) = [].
Proof.
  unfold dispatch.
  destruct (buildUrl pf config path (query options)) as [url|t]; [|now split].
  destruct (serializeBody _ _) as [[body_ headers_]|t]; [|now split].
  match goal with
  | |- context [dispatch_try config attempt ?c] =>
      pose proof (dispatch_try_log config attempt c) as [H1 H2];
      destruct (dispatch_try config attempt c) as [[ctx r] log]
  end.
  cbn [fst snd] in *. destruct r as [v|error]; cbn [snd]; [now split|].
  pose proof (dispatch_catch_quiet config ctx error) as [H3 H4].
  destruct (dispatch_catch config ctx error) as [t log']. cbn [fst snd] in *.
  rewrite transport_calls_app, pauses_app, H1, H2, H3, H4, app_nil_r. now split.
Qed.

Lemma dispatch_try_ok_calls (config : ResolvedClientConfig) (attempt : nat)
  (ctx0 ctx : RequestContext) (v : option BodyValue) (log : list event) :
  dispatch_try config attempt ctx0 = (ctx, Ok v, log) -> transport_calls log = [attempt].
Proof.
  intros H. pose proof (dispatch_try_log config attempt ctx0) as [H1 _].
  rewrite H in H1. cbn [snd] in H1. rewrite H1.
  unfold dispatch_try in H.
  destruct (runRequestInterceptors (rc_interceptors config) ctx0) as [[c|t] log1];
    [reflexivity|inversion H].
Qed.

(** An attempt that returns has called the transport. *)
Lemma dispatch_ok_calls (pf : Platform) (config : ResolvedClientConfig)
  (method : HttpMethod) (path : string) (options : RequestOptions) (attempt : nat)
  (v : option BodyValue) :
  fst (dispatch pf config method path options attempt) = Ok v ->
  transport_calls (snd (dispatch pf config method path options attempt)) = [attempt].
Proof.
  unfold dispatch.
  destruct (buildUrl pf config path (query options)) as [url|t]; [|discriminate].
  destruct (serializeBody _ _) as [[body_ headers_]|t]; [|discriminate].
  match goal with
  | |- context [dispatch_try config attempt ?c] =>
      pose proof (dispatch_try_ok_calls config attempt c) as H;
      destruct (dispatch_try config attempt c) as [[ctx r] log]
  end.
  destruct r as [w|error].
  - intros _. exact (H ctx w log eq_refl).
  - destruct (dispatch_catch config ctx error). discriminate.
Qed.

Lemma dispatch_calls_bound (pf : Platform) (config : ResolvedClientConfig)
  (method : HttpMethod) (path : string) (options : RequestOptions) (attempt : nat) :
  (length (transport_calls (snd (dispatch pf config method path options attempt))) <= 1)%nat.
Proof.
  rewrite (proj1 (dispatch_log pf config method path options attempt)).
  destruct (buildUrl _ _ _ _); [|cbn; lia].
  destruct (serializeBody _ _) as [[? ?]|]; [|cbn; lia].
  destruct (fst _); cbn; lia.
Qed.

(** *** What the transport is handed *)

Lemma requests_sent_app (a b : list event) :
  requests_sent (a ++ b) = (requests_sent a ++ requests_sent b)%list.
Proof. apply omap_app. Qed.

Lemma requests_sent_quiet (log : list event) :
  transport_calls log = [] -> requests_sent log = [].
Proof.
  induction log as [|ev log IH]; [reflexivity|].
  destruct ev; cbn; try exact IH. discriminate.
Qed.

(** The request inits in the log of an attempt: the one of the context the
    request interceptors returned, when they returned. *)
Lemma dispatch_requests_sent (pf : Platform) (config : ResolvedClientConfig)
  (method : HttpMethod) (path : string) (options : RequestOptions) (attempt : nat)
  (ctx0 : RequestContext) :
  prepared pf config method path options ctx0 ->
  requests_sent (snd (dispatch pf config method path options attempt))
  = match fst (runRequestInterceptors (rc_interceptors config) ctx0) with
    | Ok ctx => [ctx_init ctx]
    | Throw _ => []
    end.
Proof.
  intros (url & body_ & headers_ & Hurl & Hbody & ->).
  unfold dispatch. rewrite Hurl, Hbody.
  match goal with
  | |- context [dispatch_try config attempt ?c] => set (ctx0 := c)
  end.
  assert (Htry : requests_sent (snd (dispatch_try config attempt ctx0))
                 = match fst (runRequestInterceptors (rc_interceptors config) ctx0) with
                   | Ok ctx => [ctx_init ctx]
                   | Throw _ => []
                   end).
  { unfold dispatch_try, runRequestInterceptors, runResponseInterceptors.
    pose proof (runRequestInterceptors_from_quiet
                  (default [] (on_request (rc_interceptors config))) 0 ctx0) as [H1 _].
    apply requests_sent_quiet in H1.
    destruct (runRequestInterceptors_from 0 _ ctx0) as [[ctx|t] log1]; cbn [fst snd] in *;
      [|exact H1].
    destruct (rc_fetch config attempt (ctx_url ctx) (ctx_init ctx)) as [response|t];
      cbn [snd].
    - match goal with
      | |- context [runResponseInterceptors_from 0 ?l ?c] =>
          pose proof (runResponseInterceptors_from_quiet l 0 c) as [H2 _];
          apply requests_sent_quiet in H2;
          destruct (runResponseInterceptors_from 0 l c) as [r2 log2]
      end.
      cbn [fst snd] in *.
      change (log1 ++ ?e :: log2)%list with (log1 ++ [e] ++ log2)%list.
      rewrite !requests_sent_app, H1, H2. reflexivity.
    - rewrite requests_sent_app, H1. reflexivity. }
  destruct (dispatch_try config attempt ctx0) as [[ctx r] log]. cbn [snd] in Htry.
  destruct r as [v|error]; cbn [snd]; [exact Htry|].
  pose proof (dispatch_catch_quiet config ctx error) as [H3 _].
  apply requests_sent_quiet in H3.
  destruct (dispatch_catch config ctx error) as [t log']. cbn [fst snd] in *.
  now rewrite requests_sent_app, Htry, H3, app_nil_r.
Qed.

Lemma prepared_header (pf : Platform) (config : ResolvedClientConfig)
  (method : HttpMethod) (path : string) (options : RequestOptions)
  (ctx0 : RequestContext) (k : string) :
  prepared pf config method path options ctx0 ->
  Headers_get k (init_headers (ctx_init ctx0)) = built_header pf config options k.
Proof.
  intros Hprep. unfold built_header, header_by_precedence.
  rewrite <- (proj1 (buildHeaders_precedence pf config (o_headers options) k)).
  destruct (decide (lower k = "content-type")) as [Hk|Hk].
  - destruct Hprep as (url & body_ & headers_ & _ & Hbody & ->).
    cbn [ctx_init init_headers]. unfold Headers_get in *. rewrite Hk.
    unfold serializeBody in Hbody.
    destruct (body options) as [|raw|[text|t]];
      try (now injection Hbody as <- <-); [|discriminate].
    simpl in Hbody. injection Hbody as <- <-. unfold Headers_has.
    change (lower "content-type") with "content-type".
    destruct (buildHeaders pf config (o_headers options) !! "content-type") as [v|] eqn:E.
    + rewrite bool_decide_eq_true_2 by eauto. exact E.
    + rewrite bool_decide_eq_false_2 by (intros [? ?]; discriminate).
      unfold Headers_set. change (lower "content-type") with "content-type".
      now rewrite lookup_insert_eq.
  - exact (proj2 (buildHeaders_precedence pf config (o_headers options) k)
             method path options ctx0 eq_refl Hprep Hk).
Qed.

(** Claim C6, as amended.  For every attempt whose header names and
    values are ones [Headers.set] takes as they are, the headers [dispatch]
    builds have this precedence under case-insensitive names: the per-call
    overrides, else the forced headers ([authorization: Bearer
    <credential>], the client identity, the user agent), else the static
    extra headers, else the default [Accept: application/json]; a body
    encoded as JSON adds [content-type: application/json] when that
    precedence gives no content type.  These are the headers the request
    interceptors are handed.  The transport is then called once, with the
    request of the context the request interceptors return: with the built
    headers when no request interceptor is registered, with whatever an
    interceptor put in their place otherwise. *)
Theorem header_precedence (pf : Platform) (config : ResolvedClientConfig)
  (method : HttpMethod) (path : string) (options : RequestOptions) (attempt : nat)
  (ctx0 : RequestContext) (k : string) :
  headers_taken_verbatim config (o_headers options) = true ->
  prepared pf config method path options ctx0 ->
  Headers_get k (buildHeaders pf config (o_headers options))
  = header_by_precedence pf config (o_headers options) k
  /\ Headers_get k (init_headers (ctx_init ctx0)) = built_header pf config options k
  /\ (forall ctx,
        fst (runRequestInterceptors (rc_interceptors config) ctx0) = Ok ctx ->
        requests_sent (snd (dispatch pf config method path options attempt))
        = [ctx_init ctx])
  /\ (default [] (on_request (rc_interceptors config)) = [] ->
      exists init,
        requests_sent (snd (dispatch pf config method path options attempt)) = [init]
        /\ Headers_get k (init_headers init) = built_header pf config options k).
Proof.
  intros _ Hprep. split; [|split; [|split]].
  - exact (proj1 (buildHeaders_precedence pf config (o_headers options) k)).
  - exact (prepared_header pf config method path options ctx0 k Hprep).
  - intros ctx Hctx.
    now rewrite (dispatch_requests_sent _ _ _ _ _ attempt _ Hprep), Hctx.
  - intros Hnone. exists (ctx_init ctx0).
    rewrite (dispatch_requests_sent _ _ _ _ _ attempt _ Hprep).
    unfold runRequestInterceptors. rewrite Hnone. cbn.
    split; [reflexivity|].
    exact (prepared_header pf config method path options ctx0 k Hprep).
Qed.

Lemma header_precedence_witness :
  exists init,
    requests_sent
      (snd (dispatch sample_platform (sample_client (answering sample_ok)) GET
              "/v1/domains" default_options 0)) = [init]
    /\ Headers_get "Authorization" (init_headers init) = Some "Bearer test-key".
Proof.
  assert (Hprep : prepared sample_platform (sample_client (answering sample_ok)) GET
                    "/v1/domains" default_options sample_get_context).
  { eexists _, _, _. repeat split; reflexivity. }
  exact (proj2 (proj2 (proj2
           (header_precedence sample_platform (sample_client (answering sample_ok)) GET
              "/v1/domains" default_options 0 sample_get_context "Authorization"
              eq_refl Hprep)))
           eq_refl).
Defined.

(** The claim as stated fails: with a request interceptor that replaces
    the authorization header, and no per-call override, the transport is
    handed [Basic intruder] where the precedence gives the forced
    [Bearer test-key]. *)
Lemma request_interceptor_replaces_the_headers :
  let config := sample_resolved (answering sample_ok) (num_of_Z 1)
                  (with_request_interceptors [intruding]) in
  o_headers default_options = None
  /\ headers_taken_verbatim config (o_headers default_options) = true
  /\ header_by_precedence sample_platform config (o_headers default_options)
       "authorization" = Some "Bearer test-key"
  /\ exists init,
       requests_sent
         (snd (dispatch sample_platform config GET "/v1/domains" default_options 0))
       = [init]
       /\ Headers_get "authorization" (init_headers init) = Some "Basic intruder".
Proof.
  intros config. split; [reflexivity|]. split; [reflexivity|]. split; [reflexivity|].
  eexists. split; reflexivity.
Qed.

(** Extra X1.  An attempt of a request calls the transport exactly once,
    with its own attempt index, when the address and the body could be
    built and every request interceptor went through, and not at all
    otherwise; an attempt that returns a body has called it; and no attempt
    ever pauses. *)
Theorem transport_called_once_per_attempt (pf : Platform) (config : ResolvedClientConfig)
  (method : HttpMethod) (path : string) (options : RequestOptions) (attempt : nat) :
  transport_calls (snd (dispatch pf config method path options attempt))
  = match buildUrl pf config path (query options),
          serializeBody (body options) (buildHeaders pf config (o_headers options)) with
    | Ok url, Ok (body_, headers_) =>
        match fst (runRequestInterceptors (rc_interceptors config)
                     {| ctx_url := url;
                        ctx_init := {| init_method := method_name method;
                                       init_headers := headers_;
                                       init_body := body_ |} |}) with
        | Ok _ => [attempt]
        | Throw _ => []
        end
    | _, _ => []
    end
  /\ (forall v, fst (dispatch pf config method path options attempt) = Ok v ->
        transport_calls (snd (dispatch pf config method path options attempt)) = [attempt])
  /\ pauses (snd (dispatch pf config method path options attempt)) = [].
Proof.
  split; [|split].
  - apply dispatch_log.
  - apply dispatch_ok_calls.
  - apply dispatch_log.
Qed.

Lemma transport_called_once_per_attempt_witness :
  transport_calls
    (snd (dispatch sample_platform (sample_client (answering sample_ok)) GET "/v1/domains"
            default_options 4))
  = [4%nat].
Proof.
  exact (proj1 (proj2 (transport_called_once_per_attempt sample_platform
                         (sample_client (answering sample_ok)) GET "/v1/domains"
                         default_options 4))
           (Some (FromJson (JObj [("ok", JBool true)]))) eq_refl).
Defined.

(** ** The attempt loop, continued *)

Lemma num_le_lt (j k : nat) (b : jsnum) :
  (j < k)%nat -> num_le (num_of_nat k) b = true -> num_lt (num_of_nat j) b = true.
Proof.
  intros Hjk. destruct b as [| |q|]; simpl; try discriminate; try reflexivity.
  intros H. apply Qle_bool_iff in H. apply negb_true_iff.
  destruct (Qle_bool q (inject_Z (Z.of_nat j))) eqn:E; [|reflexivity].
  apply Qle_bool_iff in E.
  assert (Hlt : (inject_Z (Z.of_nat j) < inject_Z (Z.of_nat k))%Q).
  { rewrite <- Zlt_Qlt. lia. }
  lra.
Qed.

Lemma pauses_delay (d : jsnum) : pauses [delay d] = [delay d].
Proof. unfold delay. now destruct (num_le d (num_of_Z 0)). Qed.

Lemma transport_calls_delay (d : jsnum) : transport_calls [delay d] = [].
Proof. unfold delay. now destruct (num_le d (num_of_Z 0)). Qed.

Section AttemptLoopOutcomes.

Variables (config : ResolvedClientConfig) (method : HttpMethod)
  (options : RequestOptions) (run : nat -> outcome (option BodyValue) * list event).

(** An attempt that succeeds, or fails with an error [shouldRetry]
    refuses, ends the call. *)
Lemma request_loop_final (fuel attempt : nat) (lastError : option thrown)
  (r : outcome (option BodyValue)) (log : list event) :
  num_le (num_of_nat attempt) (retry_budget config options) = true ->
  run attempt = (r, log) ->
  (forall error, r = Throw error ->
     shouldRetry method error options attempt (retry_budget config options) = false) ->
  request_loop config method options run (S fuel) attempt lastError = Some (r, log).
Proof.
  intros Hle Hrun Hno. rewrite request_loop_unfold, Hrun by exact Hle.
  destruct r as [v|error]; [reflexivity|]. now rewrite (Hno error eq_refl).
Qed.

(** [k] failed attempts with errors the policy retries, then an attempt
    that ends the call: the call settles to what that attempt settled to,
    after the [k] pauses of the failed attempts. *)
Lemma request_loop_retries (k : nat) :
  idempotent_call method options ->
  (forall a, pauses (snd (run a)) = []) ->
  forall fuel attempt lastError r logr,
    num_le (num_of_nat (attempt + k)) (retry_budget config options) = true ->
    (k < fuel)%nat ->
    (forall j, (attempt <= j < attempt + k)%nat ->
       exists e log, run j = (Throw e, log) /\ retryable_error e) ->
    run (attempt + k) = (r, logr) ->
    (forall error, r = Throw error ->
       shouldRetry method error options (attempt + k) (retry_budget config options) = false) ->
    exists log,
      request_loop config method options run fuel attempt lastError = Some (r, log)
      /\ pauses log
         = flat_map (fun j => pause_after config (fst (run j)) j) (seq attempt k)
      /\ transport_calls log
         = flat_map (fun j => transport_calls (snd (run j))) (seq attempt (S k)).
Proof.
  intros Hidem Hquiet. induction k as [|k IH];
    intros fuel attempt lastError r logr Hle Hfuel Hfail Hend Hstop;
    (destruct fuel as [|fuel]; [lia|]).
  - rewrite Nat.add_0_r in Hle, Hend, Hstop. exists logr.
    rewrite (request_loop_final _ _ _ _ _ Hle Hend Hstop).
    pose proof (Hquiet attempt) as Hq. rewrite Hend in Hq. cbn [snd] in Hq.
    rewrite Hq. cbn [flat_map seq]. rewrite Hend, app_nil_r. now repeat split.
  - destruct (Hfail attempt) as (e & log & Hrun & Hretry); [lia|].
    assert (Hlt : num_lt (num_of_nat attempt) (retry_budget config options) = true)
      by (apply (num_le_lt attempt (attempt + S k)); [lia|exact Hle]).
    rewrite request_loop_unfold, Hrun by now apply num_lt_le.
    rewrite (proj2 (shouldRetry_below_budget method e options attempt _ Hlt)
               (conj Hidem Hretry)).
    destruct (IH fuel (S attempt) (Some e) r logr) as (log' & -> & Hp & Hc).
    + now replace (S attempt + k)%nat with (attempt + S k)%nat by lia.
    + lia.
    + intros j Hj. apply Hfail. lia.
    + now replace (S attempt + k)%nat with (attempt + S k)%nat by lia.
    + now replace (S attempt + k)%nat with (attempt + S k)%nat by lia.
    + eexists. split; [reflexivity|].
      pose proof (Hquiet attempt) as Hq. rewrite Hrun in Hq. cbn [snd] in Hq.
      change (log ++ ?d :: log')%list with (log ++ [d] ++ log')%list.
      rewrite !pauses_app, !transport_calls_app, Hq, pauses_delay, transport_calls_delay.
      split.
      * cbn [app seq flat_map]. now rewrite Hp, Hrun.
      * cbn [app]. rewrite Hc. cbn [seq flat_map]. now rewrite Hrun.
Qed.

Lemma length_pauses_after (k attempt : nat) :
  (forall j, (attempt <= j < attempt + k)%nat -> exists e, fst (run j) = Throw e) ->
  length (flat_map (fun j => pause_after config (fst (run j)) j) (seq attempt k)) = k.
Proof.
  revert attempt. induction k as [|k IH]; intros attempt Hfail; [reflexivity|].
  cbn [seq flat_map]. destruct (Hfail attempt) as [e ->]; [lia|].
  cbn [pause_after app length]. rewrite IH; [reflexivity|].
  intros j Hj. apply Hfail. lia.
Qed.

End AttemptLoopOutcomes.

Lemma flat_map_singletons (f : nat -> list nat) (l : list nat) :
  (forall j, In j l -> f j = [j]) -> flat_map f l = l.
Proof.
  induction l as [|a l IH]; intros H; [reflexivity|].
  cbn [flat_map]. rewrite (H a (or_introl eq_refl)), IH; [reflexivity|].
  intros j Hj. apply H. now right.
Qed.

Section AttemptLoopEffort.

Variables (config : ResolvedClientConfig) (method : HttpMethod)
  (options : RequestOptions) (run : nat -> outcome (option BodyValue) * list event).

Hypothesis run_pauses : forall a, pauses (snd (run a)) = [].
Hypothesis run_calls : forall a, (length (transport_calls (snd (run a))) <= 1)%nat.

(** With a counted budget the loop settles at an attempt [k] within the
    budget, after [k - attempt] pauses and at most one call of the
    transport for each attempt made. *)
Lemma request_loop_effort (n : nat) :
  retry_budget config options = num_of_nat n ->
  forall fuel attempt lastError,
    (attempt <= n)%nat -> (n < attempt + fuel)%nat ->
    exists k log,
      (attempt <= k <= n)%nat
      /\ request_loop config method options run fuel attempt lastError
         = Some (fst (run k), log)
      /\ length (pauses log) = (k - attempt)%nat
      /\ (length (transport_calls log) <= S (k - attempt))%nat.
Proof.
  intros Hbudget. induction fuel as [|fuel IH]; intros attempt lastError Hle Hfuel;
    [lia|].
  rewrite request_loop_unfold by (rewrite Hbudget; now apply num_le_nat).
  pose proof (run_pauses attempt) as Hp. pose proof (run_calls attempt) as Hc.
  destruct (run attempt) as [[v|error] log] eqn:Hrun; cbn [snd] in Hp, Hc.
  - exists attempt, log. rewrite Hrun, Hp. cbn [fst length]. repeat split; lia.
  - destruct (shouldRetry method error options attempt (retry_budget config options))
      eqn:Hretry.
    + assert (Hlt : (attempt < n)%nat).
      { apply shouldRetry_below in Hretry. rewrite Hbudget in Hretry.
        unfold num_ge in Hretry.
        destruct (Nat.le_gt_cases n attempt) as [H|H]; [|exact H].
        apply (num_le_nat n attempt) in H. congruence. }
      destruct (IH (S attempt) (Some error)) as (k & log' & Hk & -> & Hp' & Hc');
        [lia|lia|].
      exists k. eexists. split; [lia|]. split; [reflexivity|].
      change (log ++ ?d :: log')%list with (log ++ [d] ++ log')%list.
      rewrite !pauses_app, !transport_calls_app, Hp, pauses_delay, transport_calls_delay,
        !length_app, Hp'.
      cbn [length app]. split; lia.
    + exists attempt, log. rewrite Hrun, Hp. cbn [fst length]. repeat split; lia.
Qed.

End AttemptLoopEffort.

(** Extra X2.  With a retry budget that is a count [n], a call settles to
    what one of its attempts [k <= n] settled to, after exactly [k] pauses
    and at most [k + 1] calls of the transport: never more than [n + 1]
    calls and [n] pauses. *)
Theorem request_effort_is_bounded (pf : Platform) (config : ResolvedClientConfig)
  (method : HttpMethod) (path : string) (options : RequestOptions) (n : nat) :
  retry_budget config options = num_of_nat n ->
  exists k log,
    (k <= n)%nat
    /\ request pf config method path options (S n)
       = Some (fst (dispatch pf config method path options k), log)
    /\ length (pauses log) = k
    /\ (length (transport_calls log) <= S k)%nat.
Proof.
  intros Hbudget.
  destruct (request_loop_effort config method options
              (dispatch pf config method path options)
              (fun a => proj2 (dispatch_log pf config method path options a))
              (dispatch_calls_bound pf config method path options)
              n Hbudget (S n) 0 None) as (k & log & Hk & Hloop & Hp & Hc); [lia|lia|].
  exists k, log. rewrite Nat.sub_0_r in Hp, Hc. repeat split; try assumption; lia.
Qed.

Lemma request_effort_is_bounded_witness :
  exists k log,
    (k <= 1)%nat
    /\ request sample_platform
         (sample_client (flaky (NativeError "TypeError" "network down") sample_ok))
         GET "/v1/domains" default_options 2
       = Some (fst (dispatch sample_platform
                      (sample_client (flaky (NativeError "TypeError" "network down") sample_ok))
                      GET "/v1/domains" default_options k), log)
    /\ length (pauses log) = k
    /\ (length (transport_calls log) <= S k)%nat.
Proof.
  apply (request_effort_is_bounded sample_platform
           (sample_client (flaky (NativeError "TypeError" "network down") sample_ok))
           GET "/v1/domains" default_options 1).
  reflexivity.
Defined.

(** A call that is not idempotent settles to what its first attempt
    settled to. *)
Lemma request_single_attempt (pf : Platform) (config : ResolvedClientConfig)
  (method : HttpMethod) (path : string) (options : RequestOptions) (fuel : nat) :
  ~ idempotent_call method options ->
  (idempotent options = None ->
   num_le (num_of_nat 0) (r_maxRetries (rc_retry config)) = true) ->
  request pf config method path options (S fuel)
  = Some (dispatch pf config method path options 0).
Proof.
  intros Hno Hentered. unfold request.
  assert (Hle : num_le (num_of_nat 0) (retry_budget config options) = true).
  { unfold retry_budget, idempotent_call in *.
    destruct (idempotent options) as [[|]|]; [now contradiction Hno|reflexivity|auto]. }
  destruct (dispatch pf config method path options 0) as [r log] eqn:Hrun.
  apply request_loop_final; [exact Hle|exact Hrun|].
  intros error _. unfold shouldRetry.
  destruct (num_ge _ _); [reflexivity|].
  destruct (isIdempotent method options) eqn:E; [|reflexivity].
  apply isIdempotent_iff in E. contradiction.
Qed.

(** Extra X3.  A call that is not idempotent is attempted once: with
    [idempotent: false], or with a verb other than GET and HEAD and no
    flag once the loop is entered, the call settles to what its first
    attempt settled to, whatever the error and the configured number of
    retries; the transport is called at most once and there is no pause. *)
Theorem non_idempotent_call_is_attempted_once (pf : Platform)
  (config : ResolvedClientConfig) (method : HttpMethod) (path : string)
  (options : RequestOptions) (fuel : nat) :
  ~ idempotent_call method options ->
  (idempotent options = None ->
   num_le (num_of_nat 0) (r_maxRetries (rc_retry config)) = true) ->
  request pf config method path options (S fuel)
  = Some (dispatch pf config method path options 0)
  /\ (length (transport_calls (snd (dispatch pf config method path options 0))) <= 1)%nat
  /\ pauses (snd (dispatch pf config method path options 0)) = [].
Proof.
  intros Hno Hentered. split; [|split].
  - now apply request_single_attempt.
  - apply dispatch_calls_bound.
  - apply dispatch_log.
Qed.

Lemma non_idempotent_call_is_attempted_once_witness :
  let config := sample_client (failing (NativeError "TypeError" "network down")) in
  request sample_platform config POST "/v1/emails" default_options 3
  = Some (dispatch sample_platform config POST "/v1/emails" default_options 0)
  /\ (length (transport_calls
                (snd (dispatch sample_platform config POST "/v1/emails" default_options 0)))
      <= 1)%nat
  /\ pauses (snd (dispatch sample_platform config POST "/v1/emails" default_options 0)) = [].
Proof.
  apply (non_idempotent_call_is_attempted_once sample_platform
           (sample_client (failing (NativeError "TypeError" "network down")))
           POST "/v1/emails" default_options 2).
  - intros [H|H]; discriminate H.
  - reflexivity.
Defined.

(** Extra X4.  An idempotent call whose attempts [0 .. k-1] fail with
    errors the policy retries and whose attempt [k], within the budget,
    returns a body, returns that body; its pauses are the [k] retry delays
    of the failed attempts, in order; and when each failed attempt reached
    the transport, the transport has been called [k + 1] times, once for
    each attempt in order. *)
Theorem retries_until_success (pf : Platform) (config : ResolvedClientConfig)
  (method : HttpMethod) (path : string) (options : RequestOptions) (k fuel : nat)
  (v : option BodyValue) :
  idempotent_call method options ->
  num_le (num_of_nat k) (retry_budget config options) = true ->
  (k < fuel)%nat ->
  (forall j, (j < k)%nat ->
     exists e, fst (dispatch pf config method path options j) = Throw e
               /\ retryable_error e) ->
  fst (dispatch pf config method path options k) = Ok v ->
  exists log,
    request pf config method path options fuel = Some (Ok v, log)
    /\ pauses log
       = flat_map (fun j => pause_after config
                              (fst (dispatch pf config method path options j)) j)
           (seq 0 k)
    /\ length (pauses log) = k
    /\ ((forall j, (j < k)%nat ->
           transport_calls (snd (dispatch pf config method path options j)) = [j]) ->
        transport_calls log = seq 0 (S k)).
Proof.
  intros Hidem Hle Hfuel Hfail Hok.
  destruct (request_loop_retries config method options
              (dispatch pf config method path options) k Hidem
              (fun a => proj2 (dispatch_log pf config method path options a))
              fuel 0 None (Ok v) (snd (dispatch pf config method path options k)))
    as (log & Hloop & Hp & Hc).
  - exact Hle.
  - exact Hfuel.
  - intros j [_ Hj]. destruct (Hfail j Hj) as (e & He & Hretry).
    exists e, (snd (dispatch pf config method path options j)).
    split; [|exact Hretry]. rewrite <- He. apply surjective_pairing.
  - cbn [Nat.add]. rewrite <- Hok. apply surjective_pairing.
  - discriminate.
  - exists log. split; [exact Hloop|]. split; [exact Hp|]. split.
    + rewrite Hp. apply length_pauses_after.
      intros j [_ Hj]. destruct (Hfail j Hj) as (e & He & _). now exists e.
    + intros Hreached. rewrite Hc. apply flat_map_singletons.
      intros j Hj. apply in_seq in Hj.
      destruct (Nat.eq_dec j k) as [->|Hne].
      * exact (dispatch_ok_calls pf config method path options k v Hok).
      * apply Hreached. lia.
Qed.

Lemma retries_until_success_witness :
  exists log,
    request sample_platform
      (sample_client (flaky (NativeError "TypeError" "network down") sample_ok))
      GET "/v1/domains" default_options 2
    = Some (Ok (Some (FromJson (JObj [("ok", JBool true)]))), log)
    /\ pauses log = [Slept (num_of_Z 500)]
    /\ transport_calls log = [0; 1]%nat.
Proof.
  destruct (retries_until_success sample_platform
              (sample_client (flaky (NativeError "TypeError" "network down") sample_ok))
              GET "/v1/domains" default_options 1 2
              (Some (FromJson (JObj [("ok", JBool true)]))))
    as (log & Hrequest & Hpauses & _ & Hcalls).
  - left. reflexivity.
  - reflexivity.
  - lia.
  - intros j Hj. assert (j = 0%nat) as -> by lia.
    exists (NativeError "TypeError" "network down"). split; [reflexivity|].
    right. right. reflexivity.
  - reflexivity.
  - exists log. split; [exact Hrequest|]. split; [exact Hpauses|].
    apply Hcalls. intros j Hj. assert (j = 0%nat) as -> by lia. reflexivity.
Defined.

(** Extra X5.  A typed error that is neither a rate-limit error nor an
    HTTP error with a status of 500 or more (a 404, an [AuthError], a
    [ValidationError], ...) is never retried: when the first attempt raises
    it, the call raises it after that single attempt, for every verb,
    idempotence flag and retry budget that lets the loop start. *)
Theorem client_errors_are_not_retried (pf : Platform) (config : ResolvedClientConfig)
  (method : HttpMethod) (path : string) (options : RequestOptions) (fuel : nat)
  (e : MailrifyError) (log : list event) :
  dispatch pf config method path options 0 = (Throw (Typed e), log) ->
  inherits (class e) RateLimitErrorClass = false ->
  (inherits (class e) HTTPErrorClass = true ->
   forall s, status e = Some s -> num_le (num_of_Z 500) s = false) ->
  num_le (num_of_nat 0) (retry_budget config options) = true ->
  request pf config method path options (S fuel) = Some (Throw (Typed e), log).
Proof.
  intros Hrun Hrl Hhttp Hle. unfold request.
  apply request_loop_final; [exact Hle|exact Hrun|].
  intros error [= <-]. unfold shouldRetry.
  destruct (num_ge _ _); [reflexivity|].
  destruct (negb _); [reflexivity|].
  cbn [instanceof]. rewrite Hrl.
  destruct (inherits (class e) HTTPErrorClass) eqn:EH.
  - unfold status_at_least_500, num_ge.
    destruct (status e) as [s|] eqn:Es; [|reflexivity]. now apply Hhttp.
  - now rewrite inherits_Mailrify.
Qed.

Lemma client_errors_are_not_retried_witness :
  let config := sample_client
                  (answering (jsonResponse 404 (JObj [("message", JStr "No such domain")]) [])) in
  exists e log,
    class e = HTTPErrorClass /\ status e = Some (num_of_Z 404)
    /\ request sample_platform config GET "/v1/domains" default_options 3
       = Some (Throw (Typed e), log).
Proof.
  intros config.
  destruct (dispatch sample_platform config GET "/v1/domains" default_options 0)
    as [r log] eqn:Hrun.
  vm_compute in Hrun. injection Hrun as <- <-.
  eexists. eexists. split; [|split]; cycle 2.
  - apply (client_errors_are_not_retried sample_platform
             (sample_client
                (answering (jsonResponse 404 (JObj [("message", JStr "No such domain")]) [])))
             GET "/v1/domains" default_options 2).
    + vm_compute. reflexivity.
    + reflexivity.
    + intros _ s [= <-]. reflexivity.
    + reflexivity.
  - reflexivity.
  - reflexivity.
Defined.

(** Extra X20.  Exhausting the budget raises the last error: when the
    budget is the count [n] and the attempts [0 .. n-1] of an idempotent
    call fail with errors the policy retries, the call raises whatever the
    attempt [n] raised, retryable or not, after the [n] retry delays of the
    attempts before it, and makes no further attempt. *)
Theorem exhausted_budget_raises_the_last_error (pf : Platform)
  (config : ResolvedClientConfig) (method : HttpMethod) (path : string)
  (options : RequestOptions) (n fuel : nat) (e : thrown) :
  idempotent_call method options ->
  retry_budget config options = num_of_nat n ->
  (n < fuel)%nat ->
  (forall j, (j < n)%nat ->
     exists e', fst (dispatch pf config method path options j) = Throw e'
                /\ retryable_error e') ->
  fst (dispatch pf config method path options n) = Throw e ->
  exists log,
    request pf config method path options fuel = Some (Throw e, log)
    /\ pauses log
       = flat_map (fun j => pause_after config
                              (fst (dispatch pf config method path options j)) j)
           (seq 0 n)
    /\ length (pauses log) = n
    /\ (length (transport_calls log) <= S n)%nat.
Proof.
  intros Hidem Hbudget Hfuel Hfail Hlast.
  destruct (request_loop_retries config method options
              (dispatch pf config method path options) n Hidem
              (fun a => proj2 (dispatch_log pf config method path options a))
              fuel 0 None (Throw e) (snd (dispatch pf config method path options n)))
    as (log & Hloop & Hp & Hc).
  - rewrite Hbudget. now apply num_le_nat.
  - exact Hfuel.
  - intros j [_ Hj]. destruct (Hfail j Hj) as (e' & He & Hretry).
    exists e', (snd (dispatch pf config method path options j)).
    split; [|exact Hretry]. rewrite <- He. apply surjective_pairing.
  - cbn [Nat.add]. rewrite <- Hlast. apply surjective_pairing.
  - intros error _. cbn [Nat.add]. rewrite Hbudget. unfold shouldRetry, num_ge.
    now rewrite (proj2 (num_le_nat n n) (le_n n)).
  - exists log. split; [exact Hloop|]. split; [exact Hp|]. split.
    + rewrite Hp. apply length_pauses_after.
      intros j [_ Hj]. destruct (Hfail j Hj) as (e' & He & _). now exists e'.
    + rewrite Hc. clear. generalize 0%nat. induction (S n) as [|m IH]; intros a; [cbn; lia|].
      cbn [seq flat_map]. rewrite length_app.
      pose proof (dispatch_calls_bound pf config method path options a).
      specialize (IH (S a)). lia.
Qed.

Lemma exhausted_budget_raises_the_last_error_witness :
  exists log,
    request sample_platform
      (sample_client (failing (NativeError "TypeError" "network down")))
      GET "/v1/domains" default_options 2
    = Some (Throw (NativeError "TypeError" "network down"), log)
    /\ pauses log = [Slept (num_of_Z 500)].
Proof.
  destruct (exhausted_budget_raises_the_last_error sample_platform
              (sample_client (failing (NativeError "TypeError" "network down")))
              GET "/v1/domains" default_options 1 2
              (NativeError "TypeError" "network down"))
    as (log & Hrequest & Hpauses & _).
  - left. reflexivity.
  - reflexivity.
  - lia.
  - intros j Hj. assert (j = 0%nat) as -> by lia.
    exists (NativeError "TypeError" "network down"). split; [reflexivity|].
    right. right. reflexivity.
  - reflexivity.
  - exists log. split; [exact Hrequest|exact Hpauses].
Defined.

(** ** The interceptor chains *)

(** Extra X6.  Request interceptors compose: a chain registered as [l1]
    followed by [l2] behaves as the chain [l1] followed, on the context it
    produced, by the chain [l2]; when an interceptor of [l1] throws, no
    interceptor of [l2] runs and the error is that one. *)
Theorem request_interceptors_compose (l1 l2 : list RequestInterceptor) (index : nat)
  (context : RequestContext) :
  runRequestInterceptors_from index (l1 ++ l2) context
  = match runRequestInterceptors_from index l1 context with
    | (Ok next, log1) =>
        let (r, log2) := runRequestInterceptors_from (index + length l1) l2 next in
        (r, (log1 ++ log2)%list)
    | (Throw t, log1) => (Throw t, log1)
    end.
Proof.
  revert index context. induction l1 as [|interceptor rest IH]; intros index context.
  - cbn [app runRequestInterceptors_from length]. rewrite Nat.add_0_r.
    now destruct (runRequestInterceptors_from index l2 context).
  - cbn [app runRequestInterceptors_from length].
    destruct (interceptor context) as [result|t]; [|reflexivity].
    rewrite IH. replace (index + S (length rest))%nat with (S index + length rest)%nat by lia.
    destruct (runRequestInterceptors_from (S index) rest (default context result))
      as [[next|t] log1]; [|reflexivity].
    now destruct (runRequestInterceptors_from (S index + length rest) l2 next).
Qed.

Lemma next_response_context_kept (context : ResponseContext)
  (result : ResponseInterceptorResult) :
  keeps_response result ->
  rctx_response (next_response_context context result) = rctx_response context.
Proof. destruct result as [r|u i [r|]|]; cbn; intros H; try reflexivity; now inversion H. Qed.

Lemma runResponseInterceptors_from_kept (l : list ResponseInterceptor) (index : nat)
  (context : ResponseContext) :
  keep_response_in_run l context ->
  fst (runResponseInterceptors_from index l context) = Ok (rctx_response context).
Proof.
  revert index context. induction l as [|interceptor rest IH]; intros index context Hall;
    [reflexivity|].
  cbn [runResponseInterceptors_from keep_response_in_run] in *.
  destruct Hall as (result & -> & Hkeeps & Hrest).
  change (runResponseInterceptors_from (S index) rest ?c)
    with (runResponseInterceptors_from (S index) rest
            (next_response_context context result)).
  specialize (IH (S index) _ Hrest).
  destruct (runResponseInterceptors_from (S index) rest _) as [r log].
  cbn [fst] in *. now rewrite IH, next_response_context_kept.
Qed.

Lemma runResponseInterceptors_from_last (before : list ResponseInterceptor)
  (last : ResponseInterceptor) (handed : ResponseContext) (substitute : Response)
  (index : nat) (context : ResponseContext) :
  response_context_after before context = Some handed ->
  last handed = Ok (ReturnsResponse substitute) ->
  fst (runResponseInterceptors_from index (before ++ [last]) context) = Ok substitute.
Proof.
  intros Hhanded Hlast. revert index context Hhanded.
  induction before as [|interceptor rest IH]; intros index context Hhanded.
  - cbn in Hhanded. injection Hhanded as ->.
    cbn [app runResponseInterceptors_from]. now rewrite Hlast.
  - cbn [app runResponseInterceptors_from response_context_after] in *.
    destruct (interceptor context) as [result|t]; [|discriminate Hhanded].
    change (runResponseInterceptors_from (S index) (rest ++ [last]) ?c)
      with (runResponseInterceptors_from (S index) (rest ++ [last])
              (next_response_context context result)).
    specialize (IH (S index) _ Hhanded).
    now destruct (runResponseInterceptors_from (S index) (rest ++ [last]) _).
Qed.

(** Extra X7.  The response the interceptor chain settles on: the
    transport's own response when every interceptor, on the context it is
    handed in the run, returns nothing or a context without a response; the
    response the interceptor registered last returns, on the context the
    ones before it leave it, whatever those returned. *)
Theorem response_interceptors_result (config : ResolvedClientConfig)
  (context : RequestContext) (response : Response) :
  let registered := default [] (on_response (rc_interceptors config)) in
  let first_context :=
    {| rctx_url := ctx_url context; rctx_init := ctx_init context;
       rctx_response := response |} in
  (keep_response_in_run registered first_context ->
   fst (runResponseInterceptors (rc_interceptors config) context response) = Ok response)
  /\ (forall before last handed substitute,
        registered = (before ++ [last])%list ->
        response_context_after before first_context = Some handed ->
        last handed = Ok (ReturnsResponse substitute) ->
        fst (runResponseInterceptors (rc_interceptors config) context response)
        = Ok substitute).
Proof.
  intros registered first_context. unfold runResponseInterceptors.
  fold registered. fold first_context. split.
  - intros Hall. now rewrite runResponseInterceptors_from_kept.
  - intros before last handed substitute -> Hhanded Hlast.
    exact (runResponseInterceptors_from_last before last handed substitute 0 _
             Hhanded Hlast).
Qed.

Lemma response_interceptors_result_witness :
  let not_found := jsonResponse 404 (JObj [("message", JStr "No such domain")]) [] in
  fst (runResponseInterceptors
         (rc_interceptors
            (sample_resolved (answering not_found) (num_of_Z 1)
               (with_response_interceptors [passing; wrapping])))
         sample_get_context not_found)
  = Ok (jsonResponse 404 (JObj [("wrapped", JBool true)]) [])
  /\ fst (runResponseInterceptors
            (rc_interceptors
               (sample_resolved (answering sample_ok) (num_of_Z 1)
                  (with_response_interceptors [passing; passing])))
            sample_get_context sample_ok)
     = Ok sample_ok.
Proof.
  intros not_found. split.
  - exact (proj2 (response_interceptors_result
                    (sample_resolved (answering not_found) (num_of_Z 1)
                       (with_response_interceptors [passing; wrapping]))
                    sample_get_context not_found)
             [passing] wrapping _ _ eq_refl eq_refl eq_refl).
  - refine (proj1 (response_interceptors_result
                     (sample_resolved (answering sample_ok) (num_of_Z 1)
                        (with_response_interceptors [passing; passing]))
                     sample_get_context sample_ok) _).
    exists ReturnsNothing. split; [reflexivity|]. split; [exact I|].
    exists ReturnsNothing. split; [reflexivity|]. split; exact I.
Defined.

(** Extra X8.  When the response interceptor registered last returns a
    response, on the context the ones before it leave it, the attempt
    settles on that response alone: it returns its parsed body, or raises
    its typed error, whatever the transport answered. *)
Theorem substituted_response_is_returned (pf : Platform) (config : ResolvedClientConfig)
  (method : HttpMethod) (path : string) (options : RequestOptions) (attempt : nat)
  (ctx0 ctx : RequestContext) (response : Response)
  (before : list ResponseInterceptor) (last : ResponseInterceptor)
  (handed : ResponseContext) (substitute : Response) :
  prepared pf config method path options ctx0 ->
  fst (runRequestInterceptors (rc_interceptors config) ctx0) = Ok ctx ->
  rc_fetch config attempt (ctx_url ctx) (ctx_init ctx) = Ok response ->
  default [] (on_response (rc_interceptors config)) = (before ++ [last])%list ->
  response_context_after before
    {| rctx_url := ctx_url ctx; rctx_init := ctx_init ctx; rctx_response := response |}
  = Some handed ->
  last handed = Ok (ReturnsResponse substitute) ->
  fst (dispatch pf config method path options attempt)
  = match settle substitute ctx with
    | Ok v => Ok v
    | Throw error => Throw (fst (dispatch_catch config ctx error))
    end.
Proof.
  intros Hprep Hreq Hfetch Hregistered Hhanded Hlast.
  destruct (runRequestInterceptors (rc_interceptors config) ctx0) as [r1 log1] eqn:H1.
  cbn [fst] in Hreq. subst r1.
  destruct (runResponseInterceptors (rc_interceptors config) ctx response) as [r2 log2] eqn:H2.
  assert (Hr2 : r2 = Ok substitute).
  { change r2 with (fst (r2, log2)). rewrite <- H2.
    unfold runResponseInterceptors. rewrite Hregistered.
    exact (runResponseInterceptors_from_last before last handed substitute 0 _
             Hhanded Hlast). }
  subst r2.
  rewrite (dispatch_final_response pf config method path options attempt ctx0 ctx substitute
             (log1 ++ TransportCalled attempt (ctx_url ctx) (ctx_init ctx) :: log2)%list Hprep).
  - now destruct (settle substitute ctx).
  - exists response, log1, log2. repeat split; assumption.
Qed.

Lemma substituted_response_is_returned_witness :
  fst (dispatch sample_platform
         (sample_resolved (answering sample_ok) (num_of_Z 1)
            (with_response_interceptors [passing; wrapping]))
         GET "/v1/domains" default_options 0)
  = Ok (Some (FromJson (JObj [("wrapped", JBool true)]))).
Proof.
  refine (substituted_response_is_returned sample_platform
            (sample_resolved (answering sample_ok) (num_of_Z 1)
               (with_response_interceptors [passing; wrapping]))
            GET "/v1/domains" default_options 0 sample_get_context sample_get_context
            sample_ok [passing] wrapping _ _ _ eq_refl eq_refl eq_refl eq_refl eq_refl).
  eexists _, _, _. repeat split; reflexivity.
Defined.

(** ** The content type of an attempt *)

(** Extra X9.  The content type of the request an attempt prepares: a body
    the dispatcher encodes as JSON gets [application/json] only when the
    built headers have no content type; a content type of the caller, in
    any letter case, stays; and a body passed through or absent adds no
    content type. *)
Theorem content_type_of_an_attempt (pf : Platform) (config : ResolvedClientConfig)
  (method : HttpMethod) (path : string) (options : RequestOptions)
  (ctx0 : RequestContext) :
  prepared pf config method path options ctx0 ->
  let built := Headers_get "content-type" (buildHeaders pf config (o_headers options)) in
  Headers_get "content-type" (init_headers (ctx_init ctx0))
  = match body options with
    | BodyData _ => Some (default "application/json" built)
    | _ => built
    end
  /\ (forall o v, o_headers options = Some o ->
        named "content-type" (Object_entries o) = Some v ->
        Headers_get "content-type" (init_headers (ctx_init ctx0)) = Some v).
Proof.
  intros (url & body_ & headers_ & _ & Hbody & ->) built. cbn [ctx_init init_headers].
  assert (Hfirst : Headers_get "content-type" headers_
                   = match body options with
                     | BodyData _ => Some (default "application/json" built)
                     | _ => built
                     end).
  { unfold serializeBody in Hbody.
    destruct (body options) as [|s|[s|t]]; try (now injection Hbody as <- <-);
      [|discriminate].
    simpl in Hbody. injection Hbody as <- <-.
    unfold Headers_has.
    change (buildHeaders pf config (o_headers options) !! lower "content-type")
      with built.
    destruct built as [v|] eqn:E.
    - rewrite bool_decide_eq_true_2 by eauto. exact E.
    - rewrite bool_decide_eq_false_2 by (intros [? ?]; discriminate).
      rewrite Headers_get_set. now destruct (decide _). }
  split; [exact Hfirst|].
  intros o v Ho Hnamed. rewrite Hfirst. subst built. rewrite Ho.
  unfold buildHeaders. rewrite Headers_get_set_all, Hnamed. cbn [or_else].
  now destruct (body options).
Qed.

Lemma content_type_of_an_attempt_witness :
  let options := {| query := None; o_headers := Some [("Content-Type", "text/csv")];
                    body := BodyData (Ok (Some "{}")); idempotent := None |} in
  let config := sample_client (answering sample_ok) in
  let ctx0 :=
    {| ctx_url := {| origin := "https://api.example.com"; pathname := "/v1/contacts";
                     searchParams := []; hash := "" |};
       ctx_init := {| init_method := "POST";
                      init_headers := buildHeaders sample_platform config (o_headers options);
                      init_body := Some "{}" |} |} in
  prepared sample_platform config POST "/v1/contacts" options ctx0
  /\ Headers_get "content-type" (init_headers (ctx_init ctx0)) = Some "text/csv".
Proof.
  intros options config ctx0.
  assert (Hprep : prepared sample_platform config POST "/v1/contacts" options ctx0).
  { eexists _, _, _. repeat split; reflexivity. }
  split; [exact Hprep|].
  exact (proj2 (content_type_of_an_attempt sample_platform config POST "/v1/contacts"
                  options ctx0 Hprep)
           [("Content-Type", "text/csv")] "text/csv" eq_refl eq_refl).
Defined.

(** ** The typed error of a response *)

(** Extra X10.  Whatever its class, the typed error built from a response
    carries the status of the response (a 403 gives an [AuthError] with
    status 403, not the default 401), the [code] of the payload, the
    [details] of the payload or else the whole payload, the
    [x-request-id] header, and no cause; its name is the name of its class,
    and only a [RateLimitError] carries a retry-after value. *)
Theorem error_fields_of_a_response (r : Response) (context : RequestContext) :
  let e := buildError r context in
  let payload := safeParseError r in
  status e = Some (num_of_Z (resp_status r))
  /\ code e = string_member "code" payload
  /\ details e = or_else (member "details" payload) payload
  /\ requestId e = Headers_get "x-request-id" (resp_headers r)
  /\ cause e = None
  /\ name e = match class e with
              | AuthErrorClass => "AuthError"
              | RateLimitErrorClass => "RateLimitError"
              | _ => "HTTPError"
              end
  /\ (class e <> RateLimitErrorClass -> retryAfter e = None).
Proof.
  intros e payload. unfold e, buildError. fold payload.
  destruct ((resp_status r =? 401)%Z || (resp_status r =? 403)%Z);
    [|destruct (resp_status r =? 429)%Z]; cbn; repeat split; try reflexivity;
    intros H; try reflexivity; now elim H.
Qed.

(** Extra X11.  Reading the payload of an error response never fails and
    falls back step by step: a JSON body that does not decode and an empty
    text give no payload, hence the default message of the status and
    neither code nor details; any other text is the message of the error
    and is kept, wrapped as [{message: text}], as its details. *)
Theorem error_payload_is_best_effort (r : Response) (context : RequestContext) :
  let e := buildError r context in
  let fallback :=
    if (resp_status r =? 401)%Z || (resp_status r =? 403)%Z then "Unauthorized request."
    else if (resp_status r =? 429)%Z then "Rate limit exceeded."
    else "Request to " ++ pathname (ctx_url context) ++ " failed with status "
         ++ string_of_Z (resp_status r) ++ "." in
  ((json_content r /\ (exists t, resp_json r = Throw t))
   \/ (~ json_content r /\ resp_text r = "") ->
   safeParseError r = None
   /\ message e = fallback /\ code e = None /\ details e = None)
  /\ (~ json_content r -> resp_text r <> "" ->
      safeParseError r = Some (JObj [("message", JStr (resp_text r))])
      /\ message e = resp_text r /\ code e = None
      /\ details e = Some (JObj [("message", JStr (resp_text r))])).
Proof.
  intros e fallback. pose proof (is_json_iff r) as Hj. split.
  - intros Hcase.
    assert (Hnone : safeParseError r = None).
    { unfold safeParseError. destruct Hcase as [[Hjson [t Ht]]|[Hjson Htext]].
      - apply Hj in Hjson. now rewrite Hjson, Ht.
      - destruct (is_json r); [now elim Hjson; apply Hj|]. now rewrite Htext. }
    split; [exact Hnone|]. unfold e, fallback, buildError. rewrite Hnone.
    destruct ((resp_status r =? 401)%Z || (resp_status r =? 403)%Z);
      [|destruct (resp_status r =? 429)%Z]; cbn; repeat split; reflexivity.
  - intros Hjson Htext.
    assert (Hsome : safeParseError r = Some (JObj [("message", JStr (resp_text r))])).
    { unfold safeParseError. destruct (is_json r); [now elim Hjson; apply Hj|].
      destruct (resp_text r); [now elim Htext|reflexivity]. }
    split; [exact Hsome|]. unfold e, buildError. rewrite Hsome.
    destruct ((resp_status r =? 401)%Z || (resp_status r =? 403)%Z);
      [|destruct (resp_status r =? 429)%Z]; cbn; repeat split; reflexivity.
Qed.

Lemma error_fields_of_a_response_witness :
  let forbidden :=
    jsonResponse 403 (JObj [("message", JStr "Forbidden"); ("code", JStr "forbidden")])
      [("x-request-id", "req_1")] in
  let e := buildError forbidden sample_get_context in
  class e = AuthErrorClass
  /\ status e = Some (num_of_Z 403)
  /\ requestId e = Some "req_1"
  /\ retryAfter e = None.
Proof.
  intros forbidden e.
  destruct (error_fields_of_a_response forbidden sample_get_context)
    as (Hstatus & _ & _ & Hid & _ & _ & Hretry).
  split; [reflexivity|]. split; [exact Hstatus|]. split; [exact Hid|].
  apply Hretry. discriminate.
Defined.

Lemma error_payload_is_best_effort_witness :
  let gateway := {| resp_status := 502; resp_headers := ∅;
                    resp_json := Throw (NativeError "SyntaxError" "Unexpected token B");
                    resp_text := "Bad gateway" |} in
  message (buildError gateway sample_get_context) = "Bad gateway"
  /\ details (buildError gateway sample_get_context)
     = Some (JObj [("message", JStr "Bad gateway")]).
Proof.
  intros gateway.
  destruct (proj2 (error_payload_is_best_effort gateway sample_get_context))
    as (_ & Hmessage & _ & Hdetails).
  - intros (ct & Hct & _). discriminate Hct.
  - discriminate.
  - split; [exact Hmessage|exact Hdetails].
Defined.

(** ** The resolved configuration *)

Lemma drop_slashes_head (l t : list ascii) : drop_slashes l <> ("/"%char :: t)%list.
Proof.
  induction l as [|c l IH]; [discriminate|]. cbn [drop_slashes].
  destruct (Ascii.eqb c "/") eqn:Ec; [exact IH|].
  intros H. injection H as -> _. discriminate Ec.
Qed.

(** What [strip_trailing_slashes] returns does not end with a slash. *)
Lemma strip_trailing_slashes_end (s t : string) : strip_trailing_slashes s <> t ++ "/".
Proof.
  unfold strip_trailing_slashes. intros H.
  apply (f_equal list_ascii_of_string) in H.
  rewrite list_ascii_of_string_of_list_ascii, list_ascii_of_string_app in H.
  apply (f_equal (@rev ascii)) in H.
  rewrite rev_involutive, rev_app_distr in H. cbn in H.
  exact (drop_slashes_head _ _ H).
Qed.

(** [strip_trailing_slashes] leaves a string without trailing slash as it
    is. *)
Lemma strip_trailing_slashes_fixed (s : string) :
  (forall t, s <> t ++ "/") -> strip_trailing_slashes s = s.
Proof.
  intros Hend. destruct (strip_trailing_slashes_spec s) as ([|n] & Hs).
  - cbn in Hs. now rewrite append_nil_r in Hs.
  - exfalso. apply (Hend (strip_trailing_slashes s ++ string_of_list_ascii (repeat "/"%char n))).
    rewrite Hs at 1. rewrite <- (rev_repeat_slash (S n)). cbn [repeat rev].
    rewrite rev_repeat_slash, string_of_list_ascii_app.
    clear. generalize (strip_trailing_slashes s), (string_of_list_ascii (repeat "/"%char n)).
    intros a b. induction a as [|c a IH]; [now rewrite !append_nil|].
    now rewrite !append_cons, IH.
Qed.

(** Extra X12.  A configuration that resolves is an object whose settings
    the resolved configuration keeps, with the documented defaults for
    those left out: the credential is the caller's string and is not
    blank; the base address is the caller's without its trailing slashes,
    or the production endpoint, and never ends with a slash; the timeout is
    finite and positive; the retry count and the backoff delay are not
    negative. *)
Theorem resolved_configuration (global_fetch : fetch_slot) (config : option ClientConfig)
  (rc : ResolvedClientConfig) :
  resolveConfig global_fetch config = Ok rc ->
  exists c,
    config = Some c
    /\ (apiKey c = VStr (rc_apiKey rc) /\ trim (rc_apiKey rc) <> "")
    /\ (rc_baseUrl rc = match baseUrl c with
                        | VStr s => strip_trailing_slashes s
                        | _ => DEFAULT_BASE_URL
                        end
        /\ forall t, rc_baseUrl rc <> t ++ "/")
    /\ (rc_timeout rc = default DEFAULT_TIMEOUT (timeout c)
        /\ exists q, rc_timeout rc = Fin q /\ (0 < q)%Q)
    /\ (r_maxRetries (rc_retry rc) = default DEFAULT_MAX_RETRIES (maxRetries c)
        /\ num_lt (r_maxRetries (rc_retry rc)) (num_of_Z 0) = false)
    /\ (r_retryDelayMs (rc_retry rc) = default DEFAULT_RETRY_DELAY (retryDelayMs c)
        /\ num_lt (r_retryDelayMs (rc_retry rc)) (num_of_Z 0) = false).
Proof.
  unfold resolveConfig. intros H.
  destruct config as [c|]; [|discriminate]. exists c. split; [reflexivity|].
  unfold validateConfig in H.
  destruct (negb (truthy (apiKey c)) || _ || _) eqn:E1; [discriminate|].
  destruct (truthy (baseUrl c) && _) eqn:E2; [discriminate|].
  destruct (match timeout c with Some _ => _ | None => _ end) eqn:E3; [discriminate|].
  destruct (match maxRetries c with Some _ => _ | None => _ end) eqn:E4; [discriminate|].
  destruct (match retryDelayMs c with Some _ => _ | None => _ end) eqn:E5; [discriminate|].
  assert (Hkey : exists s, apiKey c = VStr s /\ trim s <> "").
  { destruct (apiKey c) as [| |b|n|s|];
      try (apply orb_false_iff in E1 as [E1 _]; apply orb_false_iff in E1 as [_ E1];
           discriminate E1).
    exists s. split; [reflexivity|]. apply orb_false_iff in E1 as [_ E1].
    intros Hblank. rewrite Hblank in E1. discriminate E1. }
  assert (Htimeout : exists q, default DEFAULT_TIMEOUT (timeout c) = Fin q /\ (0 < q)%Q).
  { destruct (timeout c) as [t|]; [now apply positive_finite_iff|].
    eexists. split; reflexivity. }
  assert (Hretries : num_lt (default DEFAULT_MAX_RETRIES (maxRetries c)) (num_of_Z 0) = false)
    by (destruct (maxRetries c); [exact E4|reflexivity]).
  assert (Hdelay : num_lt (default DEFAULT_RETRY_DELAY (retryDelayMs c)) (num_of_Z 0) = false)
    by (destruct (retryDelayMs c); [exact E5|reflexivity]).
  assert (Hdefault : forall t, DEFAULT_BASE_URL <> t ++ "/").
  { intros t Ht.
    assert (Hfixed : strip_trailing_slashes DEFAULT_BASE_URL = DEFAULT_BASE_URL)
      by reflexivity.
    rewrite <- Hfixed in Ht. exact (strip_trailing_slashes_end _ _ Ht). }
  destruct Hkey as (key & Hkey & Hblank).
  cbn [mbind] in H.
  change (outcome_bind ClientConfig ResolvedClientConfig ?f (Ok c)) with (f c) in H.
  cbv beta in H.
  destruct (baseUrl c) as [| |b|n|s|] eqn:Eb; cbn [mbind outcome_bind] in H;
    try discriminate H;
    (destruct (match fetch c with FetchValue v => _ | FetchFunction _ => _ end) as [f|v];
     cbv beta iota in H; [|discriminate H]);
    injection H as <-;
    cbn [rc_apiKey rc_baseUrl rc_timeout rc_retry r_maxRetries r_retryDelayMs];
    rewrite Hkey; repeat split; try assumption; apply strip_trailing_slashes_end.
Qed.

Lemma resolved_configuration_witness :
  exists rc,
    resolveConfig (FetchValue VUndefined)
      (Some {| apiKey := VStr "test-key"; baseUrl := VStr "https://api.example.com//";
               timeout := None; maxRetries := None; retryDelayMs := Some (num_of_Z 0);
               fetch := FetchFunction (answering sample_ok); headers := None;
               interceptors := None; debug := VUndefined; userAgent := None |}) = Ok rc
    /\ rc_baseUrl rc = "https://api.example.com"
    /\ rc_timeout rc = num_of_Z 30000
    /\ r_maxRetries (rc_retry rc) = num_of_Z 2.
Proof.
  eexists. split; [reflexivity|].
  destruct (resolved_configuration (FetchValue VUndefined)
              (Some {| apiKey := VStr "test-key"; baseUrl := VStr "https://api.example.com//";
                       timeout := None; maxRetries := None;
                       retryDelayMs := Some (num_of_Z 0);
                       fetch := FetchFunction (answering sample_ok); headers := None;
                       interceptors := None; debug := VUndefined; userAgent := None |})
              _ eq_refl)
    as (c & Hc & _ & [Hbase _] & [Htimeout _] & [Hretries _] & _).
  injection Hc as <-. repeat split.
Defined.

(** ** The error taxonomy, continued *)

(** Extra X13.  The classes of the typed errors form a tree under
    [instanceof]: the relation is reflexive, transitive and antisymmetric,
    every class is a [MailrifyError], the [HTTPError]s are [HTTPError],
    [AuthError] and [RateLimitError], and a [ValidationError] is neither an
    [HTTPError] nor the other way round; each constructor makes an error of
    its own class. *)
Theorem error_class_hierarchy :
  (forall c, inherits c c = true)
  /\ (forall a b c, inherits a b = true -> inherits b c = true -> inherits a c = true)
  /\ (forall a b, inherits a b = true -> inherits b a = true -> a = b)
  /\ (forall c, inherits c MailrifyErrorClass = true)
  /\ (forall c, inherits c HTTPErrorClass = true
                <-> c = HTTPErrorClass \/ c = AuthErrorClass \/ c = RateLimitErrorClass)
  /\ (forall c, inherits c ValidationErrorClass = true <-> c = ValidationErrorClass)
  /\ (forall msg o,
        class (new_MailrifyError msg o) = MailrifyErrorClass
        /\ class (new_HTTPError msg o) = HTTPErrorClass
        /\ class (new_ValidationError msg o) = ValidationErrorClass
        /\ class (new_AuthError msg o) = AuthErrorClass
        /\ class (new_RateLimitError msg o) = RateLimitErrorClass).
Proof.
  split; [|split; [|split; [|split; [|split; [|split]]]]].
  - now intros [].
  - intros [] [] []; vm_compute; congruence.
  - intros [] []; vm_compute; congruence.
  - now intros [].
  - intros []; vm_compute; split; intros H; try discriminate H; auto;
      destruct H as [H|[H|H]]; discriminate H.
  - intros []; vm_compute; split; intros H; try discriminate H; auto.
  - intros msg o. repeat split.
Qed.

Lemma error_class_hierarchy_witness :
  inherits AuthErrorClass MailrifyErrorClass = true
  /\ inherits ValidationErrorClass HTTPErrorClass = false.
Proof.
  destruct error_class_hierarchy as (_ & Htrans & _ & _ & Hhttp & _).
  split.
  - exact (Htrans AuthErrorClass HTTPErrorClass MailrifyErrorClass eq_refl eq_refl).
  - destruct (inherits ValidationErrorClass HTTPErrorClass) eqn:E; [|reflexivity].
    apply Hhttp in E. destruct E as [E|[E|E]]; discriminate E.
Defined.

(** Extra X14.  Every constructor of the taxonomy keeps the message and
    the code, details and request id of its options, and keeps the cause
    only when it is truthy.  The status is the one given, with the defaults
    401 for an [AuthError] and 429 for a [RateLimitError] when none is, and
    may be missing on a [MailrifyError] or an [HTTPError]; only a
    [RateLimitError] has a retry-after value, the one of its options. *)
Theorem typed_error_constructors (msg : string) (o : MailrifyErrorOptions) :
  let kept (e : MailrifyError) :=
    message e = msg /\ code e = opt_code o /\ details e = opt_details o
    /\ requestId e = opt_requestId o
    /\ cause e = match opt_cause o with
                 | Some c => if truthy c then Some c else None
                 | None => None
                 end in
  (kept (new_MailrifyError msg o) /\ kept (new_HTTPError msg o)
   /\ kept (new_ValidationError msg o) /\ kept (new_AuthError msg o)
   /\ kept (new_RateLimitError msg o))
  /\ (status (new_MailrifyError msg o) = opt_status o
      /\ status (new_HTTPError msg o) = opt_status o
      /\ status (new_AuthError msg o) = Some (default (num_of_Z 401) (opt_status o))
      /\ status (new_RateLimitError msg o) = Some (default (num_of_Z 429) (opt_status o)))
  /\ (retryAfter (new_RateLimitError msg o) = opt_retryAfter o
      /\ retryAfter (new_MailrifyError msg o) = None
      /\ retryAfter (new_HTTPError msg o) = None
      /\ retryAfter (new_ValidationError msg o) = None
      /\ retryAfter (new_AuthError msg o) = None).
Proof.
  intros kept. unfold kept. cbv beta. split; [|split].
  - repeat split.
  - destruct o as [[s|] c d r ca ra]; repeat split.
  - repeat split.
Qed.

(** ** The pre-flight checks of the resource methods *)

Lemma assertNonEmptyString_cases (v : jsval) (fieldName : string) :
  (non_blank_string v /\ exists s, v = VStr s /\ assertNonEmptyString v fieldName = Ok s)
  \/ (~ non_blank_string v
      /\ assertNonEmptyString v fieldName
         = validation_failure ("Expected non-empty string for '" ++ fieldName ++ "'.")).
Proof.
  destruct v as [| |b|n|s|];
    try (right; split; [intros (s' & H & _); discriminate H|reflexivity]).
  unfold assertNonEmptyString. destruct (String.length (trim s) =? 0)%nat eqn:E.
  - right. split; [|reflexivity]. intros (s' & H & Hne). injection H as <-.
    apply length_zero_iff in E. contradiction.
  - left. split; [|now exists s]. exists s. split; [reflexivity|].
    intros H. rewrite H in E. discriminate E.
Qed.

Lemma assertPositiveNumber_cases (v : jsval) (fieldName : string) :
  ((exists q, v = VNum (Fin q) /\ (0 < q)%Q)
   /\ exists n, v = VNum n /\ assertPositiveNumber v fieldName = Ok n)
  \/ (~ (exists q, v = VNum (Fin q) /\ (0 < q)%Q)
      /\ assertPositiveNumber v fieldName
         = validation_failure ("Expected positive number for '" ++ fieldName ++ "'.")).
Proof.
  destruct v as [| |b|n|s|];
    try (right; split; [intros (q & H & _); discriminate H|reflexivity]).
  unfold assertPositiveNumber.
  destruct (negb (isFinite n) || num_le n (num_of_Z 0)) eqn:E.
  - right. split; [|reflexivity]. intros (q & H & Hq). injection H as ->.
    assert (Hpos : negb (isFinite (Fin q)) || num_le (Fin q) (num_of_Z 0) = false)
      by (apply positive_finite_iff; now exists q).
    congruence.
  - left. apply positive_finite_iff in E as (q & -> & Hq).
    split; [now exists q|]. now eexists.
Qed.

Section PreFlight.

Variable Date_parse : string -> jsnum.

Lemma assertIsoDate_cases (v : jsval) (fieldName : string) :
  (date_string Date_parse v
   /\ exists s, v = VStr s /\ assertIsoDate Date_parse v fieldName = Ok s)
  \/ (~ date_string Date_parse v
      /\ assertIsoDate Date_parse v fieldName
         = validation_failure
             ("Expected ISO-8601 date string for '" ++ fieldName ++ "'.")).
Proof.
  destruct v as [| |b|n|s|];
    try (right; split; [intros (s' & H & _); discriminate H|reflexivity]).
  unfold assertIsoDate, date_string. destruct (Date_parse s) eqn:E; cbn [isNaN].
  - right. split; [|reflexivity]. intros (s' & H & Hd). injection H as <-. contradiction.
  - left. split; [|now exists s]. exists s. split; [reflexivity|]. now rewrite E.
  - left. split; [|now exists s]. exists s. split; [reflexivity|]. now rewrite E.
  - left. split; [|now exists s]. exists s. split; [reflexivity|]. now rewrite E.
Qed.

Lemma optionalIsoDate_cases (v : jsval) (fieldName : string) :
  ((nullish v = true \/ date_string Date_parse v)
   /\ optionalIsoDate Date_parse v fieldName = Ok tt)
  \/ (~ (nullish v = true \/ date_string Date_parse v)
      /\ optionalIsoDate Date_parse v fieldName
         = validation_failure
             ("Expected ISO-8601 date string for '" ++ fieldName ++ "'.")).
Proof.
  unfold optionalIsoDate. destruct (nullish v) eqn:En; [left; split; [now left|reflexivity]|].
  destruct (assertIsoDate_cases v fieldName) as [(Hd & s & _ & ->)|(Hd & ->)].
  - left. split; [now right|reflexivity].
  - right. split; [|reflexivity]. intros [H|H]; [discriminate H|contradiction].
Qed.

(** Extra X15.  The pre-flight assertions accept exactly what their names
    say and hand the value back: a string with something else than white
    space in it; a finite number above zero; a string [Date.parse] reads
    (or, for the optional form, [null] or [undefined]).  Whatever they
    refuse, they refuse with a [ValidationError] made without options,
    hence of status 400. *)
Theorem pre_flight_assertions (v : jsval) (fieldName : string) :
  (non_blank_string v
   <-> exists s, v = VStr s /\ assertNonEmptyString v fieldName = Ok s)
  /\ ((exists q, v = VNum (Fin q) /\ (0 < q)%Q)
      <-> exists n, v = VNum n /\ assertPositiveNumber v fieldName = Ok n)
  /\ (date_string Date_parse v
      <-> exists s, v = VStr s /\ assertIsoDate Date_parse v fieldName = Ok s)
  /\ (nullish v = true \/ date_string Date_parse v
      <-> optionalIsoDate Date_parse v fieldName = Ok tt)
  /\ (forall t,
        assertNonEmptyString v fieldName = Throw t
        \/ assertPositiveNumber v fieldName = Throw t
        \/ assertIsoDate Date_parse v fieldName = Throw t
        \/ optionalIsoDate Date_parse v fieldName = Throw t ->
        exists msg, t = Typed (new_ValidationError msg no_options)).
Proof.
  pose proof (assertNonEmptyString_cases v fieldName) as H1.
  pose proof (assertPositiveNumber_cases v fieldName) as H2.
  pose proof (assertIsoDate_cases v fieldName) as H3.
  pose proof (optionalIsoDate_cases v fieldName) as H4.
  unfold validation_failure in *.
  split; [|split; [|split; [|split]]].
  - destruct H1 as [[Hg He]|[Hb He]].
    + split; [intros _; exact He|intros _; exact Hg].
    + split; [intros H; contradiction|intros (s & _ & H); congruence].
  - destruct H2 as [[Hg He]|[Hb He]].
    + split; [intros _; exact He|intros _; exact Hg].
    + split; [intros H; contradiction|intros (s & _ & H); congruence].
  - destruct H3 as [[Hg He]|[Hb He]].
    + split; [intros _; exact He|intros _; exact Hg].
    + split; [intros H; contradiction|intros (s & _ & H); congruence].
  - destruct H4 as [[Hg He]|[Hb He]].
    + split; [intros _; exact He|intros _; exact Hg].
    + split; [intros H; contradiction|intros H; congruence].
  - intros t [H|[H|[H|H]]].
    + destruct H1 as [(_ & s & _ & He)|[_ He]]; [congruence|].
      rewrite He in H. injection H as <-. now eexists.
    + destruct H2 as [(_ & s & _ & He)|[_ He]]; [congruence|].
      rewrite He in H. injection H as <-. now eexists.
    + destruct H3 as [(_ & s & _ & He)|[_ He]]; [congruence|].
      rewrite He in H. injection H as <-. now eexists.
    + destruct H4 as [[_ He]|[_ He]]; [congruence|].
      rewrite He in H. injection H as <-. now eexists.
Qed.

Lemma forEach_cases {A : Type} (check : A -> nat -> outcome unit) (good : A -> Prop) :
  (forall a i, (good a /\ check a i = Ok tt)
               \/ (~ good a /\ exists msg, check a i = validation_failure msg)) ->
  forall items index,
    (Forall good items /\ forEach check index items = Ok tt)
    \/ (~ Forall good items /\ exists msg, forEach check index items = validation_failure msg).
Proof.
  intros Hcheck. induction items as [|a rest IH]; intros index.
  - left. split; [constructor|reflexivity].
  - cbn [forEach]. destruct (Hcheck a index) as [[Hg ->]|(Hb & msg & ->)].
    + destruct (IH (S index)) as [[Hall ->]|(Hnot & msg & ->)].
      * left. split; [now constructor|reflexivity].
      * right. split; [|now exists msg]. intros H. inversion H. contradiction.
    + right. split; [|now exists msg]. intros H. inversion H. contradiction.
Qed.

Lemma validateSendRequest_cases (request_ : SendEmailRequest) (prefix : string) :
  (acceptable_send_request Date_parse request_
   /\ validateSendRequest Date_parse request_ prefix = Ok tt)
  \/ (~ acceptable_send_request Date_parse request_
      /\ exists msg, validateSendRequest Date_parse request_ prefix = validation_failure msg).
Proof.
  unfold validateSendRequest, acceptable_send_request.
  assert (Hto :
    (match send_to request_ with
     | IsArray items => items <> [] /\ Forall non_blank_string items
     | NotArray v => non_blank_string v
     end
     /\ match send_to request_ with
        | IsArray items =>
            _ ← assertArray (send_to request_) (prefix ++ ".to");
            if (length items =? 0)%nat
            then validation_failure "`to` must contain at least one recipient."
            else forEach (fun recipient index =>
                            _ ← assertNonEmptyString recipient
                                  (prefix ++ ".to[" ++ string_of_Z (Z.of_nat index) ++ "]");
                            Ok tt) 0 items
        | NotArray v => _ ← assertNonEmptyString v (prefix ++ ".to"); Ok tt
        end = Ok tt)
    \/ (~ match send_to request_ with
          | IsArray items => items <> [] /\ Forall non_blank_string items
          | NotArray v => non_blank_string v
          end
        /\ exists msg,
            match send_to request_ with
            | IsArray items =>
                _ ← assertArray (send_to request_) (prefix ++ ".to");
                if (length items =? 0)%nat
                then validation_failure "`to` must contain at least one recipient."
                else forEach (fun recipient index =>
                                _ ← assertNonEmptyString recipient
                                      (prefix ++ ".to[" ++ string_of_Z (Z.of_nat index)
                                       ++ "]");
                                Ok tt) 0 items
            | NotArray v => _ ← assertNonEmptyString v (prefix ++ ".to"); Ok tt
            end = validation_failure msg)).
  { destruct (send_to request_) as [items|v].
    - cbn [assertArray mbind outcome_bind]. destruct items as [|item rest].
      + right. split; [now intros [H _]|]. now eexists.
      + cbn [length Nat.eqb].
        destruct (forEach_cases
                    (fun recipient index =>
                       _ ← assertNonEmptyString recipient
                             (prefix ++ ".to[" ++ string_of_Z (Z.of_nat index) ++ "]");
                       Ok tt) non_blank_string) with (items := item :: rest) (index := 0%nat)
          as [[Hall ->]|(Hnot & msg & ->)].
        * intros a i.
          destruct (assertNonEmptyString_cases a
                      (prefix ++ ".to[" ++ string_of_Z (Z.of_nat i) ++ "]"))
            as [(Hg & s & _ & ->)|(Hb & ->)];
            [left; now split|right; split; [exact Hb|now eexists]].
        * left. split; [split; [discriminate|exact Hall]|reflexivity].
        * right. split; [now intros [_ H]|now exists msg].
    - destruct (assertNonEmptyString_cases v (prefix ++ ".to"))
        as [(Hg & s & _ & ->)|(Hb & ->)];
        [left; now split|right; split; [exact Hb|now eexists]]. }
  destruct Hto as [[Hto ->]|(Hto & msg & ->)];
    [|right; split; [now intros [H _]|now exists msg]].
  cbn [mbind outcome_bind].
  destruct (assertNonEmptyString_cases (send_from request_) (prefix ++ ".from"))
    as [(Hfrom & s & _ & ->)|(Hfrom & ->)];
    [|right; split; [now intros (_ & H & _)|now eexists]].
  destruct (truthy (send_subject request_)) eqn:Es;
    [|destruct (truthy (send_templateId request_)) eqn:Et]; cbn [negb andb].
  - destruct (optionalIsoDate_cases (send_scheduledAt request_) (prefix ++ ".scheduledAt"))
      as [[Hd ->]|[Hd ->]].
    + left. repeat split; auto.
    + right. split; [now intros (_ & _ & _ & H)|now eexists].
  - destruct (optionalIsoDate_cases (send_scheduledAt request_) (prefix ++ ".scheduledAt"))
      as [[Hd ->]|[Hd ->]].
    + left. repeat split; auto.
    + right. split; [now intros (_ & _ & _ & H)|now eexists].
  - right. split; [|now eexists]. intros (_ & _ & [H|H] & _); discriminate H.
Qed.

(** Extra X16.  [validateSendRequest] lets a request through exactly when
    it has a recipient that is a non-blank string, or a non-empty array of
    such, a sender that is a non-blank string, a truthy subject or
    template, and a schedule that is absent or a date string; every other
    request is refused with a [ValidationError] made without options. *)
Theorem send_request_validation (request_ : SendEmailRequest) (prefix : string) :
  (acceptable_send_request Date_parse request_
   <-> validateSendRequest Date_parse request_ prefix = Ok tt)
  /\ (~ acceptable_send_request Date_parse request_ ->
      exists msg,
        validateSendRequest Date_parse request_ prefix
        = Throw (Typed (new_ValidationError msg no_options))).
Proof.
  destruct (validateSendRequest_cases request_ prefix) as [[Hg He]|(Hb & msg & He)].
  - split; [split; auto|]. intros H. contradiction.
  - split; [split; [intros H; contradiction|]|].
    + rewrite He. discriminate.
    + intros _. now exists msg.
Qed.

(** Extra X17.  [emails.send] validates before it calls the client and
    calls it once: a request that is not acceptable raises its
    [ValidationError] without any call of the transport; an acceptable one
    is posted to [/v1/emails] with [idempotent: false], so that the call
    settles to what its single attempt settled to, whatever the error and
    the configured retries. *)
Theorem emails_send_is_one_call (pf : Platform) (config : ResolvedClientConfig)
  (request_ : SendEmailRequest) (fuel : nat) :
  let options := {| query := None; o_headers := None;
                    body := BodyData (send_json request_); idempotent := Some false |} in
  (~ acceptable_send_request Date_parse request_ ->
   exists msg,
     emails_send Date_parse pf config request_ fuel
     = Some (Throw (Typed (new_ValidationError msg no_options)), []))
  /\ (acceptable_send_request Date_parse request_ ->
      emails_send Date_parse pf config request_ (S fuel)
      = Some (dispatch pf config POST "/v1/emails" options 0)
      /\ (length (transport_calls (snd (dispatch pf config POST "/v1/emails" options 0)))
          <= 1)%nat
      /\ pauses (snd (dispatch pf config POST "/v1/emails" options 0)) = []).
Proof.
  intros options. unfold emails_send.
  destruct (validateSendRequest_cases request_ "request") as [[Hg ->]|(Hb & msg & ->)];
    (split; [|]); intros H; try contradiction.
  - cbn [then_request]. split; [|split].
    + apply request_single_attempt; [|discriminate]. cbn. discriminate.
    + apply dispatch_calls_bound.
    + apply dispatch_log.
  - now exists msg.
Qed.

(** Extra X18.  [emails.batch] is one call for the whole array: what is
    not an array, or holds a request that is not acceptable, raises a
    [ValidationError] without any call of the transport; an array of
    acceptable requests, the empty array included, is posted once to
    [/v1/emails/batch] with [idempotent: false] and settles to what that
    single attempt settled to. *)
Theorem emails_batch_is_one_call (pf : Platform) (config : ResolvedClientConfig)
  (requests : maybe_array SendEmailRequest) (payload_json : outcome (option string))
  (fuel : nat) :
  let options := {| query := None; o_headers := None;
                    body := BodyData payload_json; idempotent := Some false |} in
  ((forall items, requests = IsArray items ->
      ~ Forall (acceptable_send_request Date_parse) items) ->
   exists msg,
     emails_batch Date_parse pf config requests payload_json fuel
     = Some (Throw (Typed (new_ValidationError msg no_options)), []))
  /\ (forall items, requests = IsArray items ->
        Forall (acceptable_send_request Date_parse) items ->
        emails_batch Date_parse pf config requests payload_json (S fuel)
        = Some (dispatch pf config POST "/v1/emails/batch" options 0)).
Proof.
  intros options. unfold emails_batch. split.
  - intros Hbad. destruct requests as [items|v]; [|now eexists].
    cbn [assertArray mbind outcome_bind].
    destruct (forEach_cases
                (fun request_ index =>
                   validateSendRequest Date_parse request_
                     ("requests[" ++ string_of_Z (Z.of_nat index) ++ "]"))
                (acceptable_send_request Date_parse)) with (items := items) (index := 0%nat)
      as [[Hall _]|(_ & msg & ->)].
    + intros a i. apply validateSendRequest_cases.
    + now elim (Hbad items eq_refl).
    + now exists msg.
  - intros items -> Hall. cbn [assertArray mbind outcome_bind].
    destruct (forEach_cases
                (fun request_ index =>
                   validateSendRequest Date_parse request_
                     ("requests[" ++ string_of_Z (Z.of_nat index) ++ "]"))
                (acceptable_send_request Date_parse)) with (items := items) (index := 0%nat)
      as [[_ ->]|(Hnot & _)].
    + intros a i. apply validateSendRequest_cases.
    + cbn [then_request]. apply request_single_attempt; [|discriminate]. cbn. discriminate.
    + contradiction.
Qed.

End PreFlight.

Lemma pre_flight_assertions_witness :
  exists n, VNum (num_of_Z 7) = VNum n
            /\ assertPositiveNumber (VNum (num_of_Z 7)) "domainId" = Ok n.
Proof.
  apply (proj1 (proj1 (proj2 (pre_flight_assertions sample_Date_parse
                                (VNum (num_of_Z 7)) "domainId")))).
  exists (inject_Z 7). split; reflexivity.
Defined.

Lemma sample_send_request_acceptable :
  acceptable_send_request sample_Date_parse sample_send_request.
Proof.
  split; [|split; [|split]].
  - exists "user@example.com". split; [reflexivity|]. intros H. vm_compute in H. discriminate H.
  - exists "noreply@example.com". split; [reflexivity|]. intros H. vm_compute in H.
    discriminate H.
  - now left.
  - now left.
Defined.

Lemma send_request_validation_witness :
  validateSendRequest sample_Date_parse sample_send_request "request" = Ok tt
  /\ exists msg,
       validateSendRequest sample_Date_parse sample_send_request_without_sender "request"
       = Throw (Typed (new_ValidationError msg no_options)).
Proof.
  split.
  - exact (proj1 (proj1 (send_request_validation sample_Date_parse sample_send_request
                           "request")) sample_send_request_acceptable).
  - apply (proj2 (send_request_validation sample_Date_parse
                    sample_send_request_without_sender "request")).
    intros (_ & (s & H & _) & _). discriminate H.
Defined.

Lemma emails_send_is_one_call_witness :
  let config := sample_client (failing (NativeError "TypeError" "network down")) in
  emails_send sample_Date_parse sample_platform config sample_send_request 3
  = Some (dispatch sample_platform config POST "/v1/emails"
            {| query := None; o_headers := None;
               body := BodyData (send_json sample_send_request);
               idempotent := Some false |} 0)
  /\ exists msg,
       emails_send sample_Date_parse sample_platform config
         sample_send_request_without_sender 3
       = Some (Throw (Typed (new_ValidationError msg no_options)), []).
Proof.
  intros config. split.
  - exact (proj1 (proj2 (emails_send_is_one_call sample_Date_parse sample_platform
                           (sample_client (failing (NativeError "TypeError" "network down")))
                           sample_send_request 2)
                    sample_send_request_acceptable)).
  - apply (proj1 (emails_send_is_one_call sample_Date_parse sample_platform
                    (sample_client (failing (NativeError "TypeError" "network down")))
                    sample_send_request_without_sender 3)).
    intros (_ & (s & H & _) & _). discriminate H.
Defined.

Lemma emails_batch_is_one_call_witness :
  let config := sample_client (answering sample_ok) in
  emails_batch sample_Date_parse sample_platform config (IsArray []) (Ok (Some "[]")) 3
  = Some (dispatch sample_platform config POST "/v1/emails/batch"
            {| query := None; o_headers := None; body := BodyData (Ok (Some "[]"));
               idempotent := Some false |} 0)
  /\ exists msg,
       emails_batch sample_Date_parse sample_platform config (NotArray VUndefined)
         (Ok None) 3
       = Some (Throw (Typed (new_ValidationError msg no_options)), []).
Proof.
  intros config. split.
  - exact (proj2 (emails_batch_is_one_call sample_Date_parse sample_platform
                    (sample_client (answering sample_ok)) (IsArray []) (Ok (Some "[]")) 2)
             [] eq_refl (List.Forall_nil _)).
  - apply (proj1 (emails_batch_is_one_call sample_Date_parse sample_platform
                    (sample_client (answering sample_ok)) (NotArray VUndefined) (Ok None) 3)).
    intros items H. discriminate H.
Defined.

(** ** Diagnostics *)

Lemma lower_ascii_idempotent (c : ascii) : lower_ascii (lower_ascii c) = lower_ascii c.
Proof. destruct c as [[] [] [] [] [] [] [] []]; reflexivity. Qed.

Lemma lower_idempotent (s : string) : lower (lower s) = lower s.
Proof.
  induction s as [|c s IH]; [reflexivity|]. cbn [lower].
  now rewrite lower_ascii_idempotent, IH.
Qed.

(** The headers built for an attempt always hold an authorization. *)
Lemma buildHeaders_authorization (pf : Platform) (config : ResolvedClientConfig)
  (overrides : option (JsObject string)) :
  is_Some (Headers_get "authorization" (buildHeaders pf config overrides)).
Proof.
  unfold buildHeaders.
  assert (Hforced : forall h : gmap string string,
             is_Some (Headers_get "authorization"
                        match rc_userAgent config with
                        | Some ua =>
                            if nonempty ua && negb (navigator_defined pf)
                            then Headers_set "user-agent" ua
                                   (Headers_set "x-mailrify-client" "mailrify"
                                      (Headers_set "authorization"
                                         ("Bearer " ++ rc_apiKey config) h))
                            else Headers_set "x-mailrify-client" "mailrify"
                                   (Headers_set "authorization"
                                      ("Bearer " ++ rc_apiKey config) h)
                        | None =>
                            Headers_set "x-mailrify-client" "mailrify"
                              (Headers_set "authorization"
                                 ("Bearer " ++ rc_apiKey config) h)
                        end)).
  { intros h. destruct (rc_userAgent config) as [ua|];
      [destruct (nonempty ua && negb (navigator_defined pf))|];
      rewrite !Headers_get_set; repeat case_decide; eauto; congruence. }
  destruct overrides as [o|]; [|apply Hforced].
  rewrite Headers_get_set_all. destruct (named "authorization" (Object_entries o)); [eauto|].
  apply Hforced.
Qed.

(** Extra X19.  In the headers of a debug record the value listed under
    [authorization], in any letter case, is [REDACTED], every other header
    is listed with its own value, and no header is added or dropped; the
    headers built for an attempt always list [authorization: REDACTED]. *)
Theorem authorization_is_redacted (h : gmap string string) (k : string) :
  Headers_get k (redact h)
  = (if decide (lower k = "authorization")
     then _ ← Headers_get k h; Some "REDACTED"
     else Headers_get k h)
  /\ (forall pf config overrides,
        Headers_get "Authorization" (redact (buildHeaders pf config overrides))
        = Some "REDACTED").
Proof.
  assert (Hget : forall (h' : gmap string string) k',
             Headers_get k' (redact h')
             = if decide (lower k' = "authorization")
               then _ ← Headers_get k' h'; Some "REDACTED"
               else Headers_get k' h').
  { intros h' k'. unfold Headers_get, redact. rewrite map_lookup_imap.
    destruct (h' !! lower k') as [v|] eqn:E; cbn; [|now destruct (decide _)].
    rewrite lower_idempotent.
    destruct (decide (lower k' = "authorization")) as [->|Hne]; [reflexivity|].
    destruct (String.eqb (lower k') "authorization") eqn:Eq; [|reflexivity].
    apply String.eqb_eq in Eq. contradiction. }
  split; [apply Hget|].
  intros pf config overrides. rewrite Hget.
  destruct (decide (lower "Authorization" = "authorization")) as [_|Hne];
    [|now elim Hne].
  destruct (buildHeaders_authorization pf config overrides) as [v Hv].
  change (Headers_get "Authorization" ?x) with (Headers_get "authorization" x).
  now rewrite Hv.
Qed.
